(** * Fechamento: extraction and classification of point-of-sale records

    A shallow embedding of [Fechamento.py]: the payment classifier
    [formatar_meio_de_pagamento], the aggregator
    [encontrar_pagamento_mais_frequente], the block parser inside
    [extrair_dados_dos_pdfs] and the ordering step of
    [criar_planilha_excel], together with the parts of Python's [str],
    [re], [float] and [collections.Counter] they call.

    Text is modelled as a list of characters.  The repertoire is Latin-1
    (code points 0..255), which covers the Portuguese text of the reports,
    together with the ten characters outside Latin-1 that Python's case
    mappings tie to it: the ones [str.lower] turns into a Latin-1 letter,
    the ones the case-insensitive comparison of [re] takes for a Latin-1
    letter, and U+0307, which [str.lower] produces.  On that repertoire
    the character classes, [str.lower] and the case-insensitive comparison
    of [re] are the ones written below; its only decimal digits and white
    space are those of Latin-1 (the digits and spaces of other scripts,
    which [\d], [\s] and [float] also accept, are outside it). *)

From Stdlib Require Import Ascii String ZArith NArith Bool Lia Arith List.
From Stdlib Require Import Permutation Sorted DecimalString.
Import ListNotations.

(** ** Python strings *)

Module Str.

Inductive char : Type :=
| Latin (a : ascii)     (* U+0000 .. U+00FF *)
| I_com_ponto           (* U+0130, capital I with dot above *)
| i_sem_pingo           (* U+0131, small dotless i *)
| Y_com_trema           (* U+0178, capital Y with diaeresis *)
| s_longo               (* U+017F, small long s *)
| ponto_acima           (* U+0307, combining dot above *)
| Mi_maiusculo          (* U+039C, Greek capital mu *)
| mi_minusculo          (* U+03BC, Greek small mu *)
| Eszett_maiusculo      (* U+1E9E, capital sharp s *)
| Kelvin                (* U+212A, Kelvin sign *)
| Angstrom.             (* U+212B, Angstrom sign *)

Coercion Latin : ascii >-> char.

Bind Scope char_scope with char.

Definition str := list char.

(** A literal: the characters of an ASCII string constant. *)
Definition lit (s : string) : str := map Latin (list_ascii_of_string s).

(** [ord(c)] *)
Definition code (c : char) : N :=
  match c with
  | Latin a => N_of_ascii a
  | I_com_ponto => 304
  | i_sem_pingo => 305
  | Y_com_trema => 376
  | s_longo => 383
  | ponto_acima => 775
  | Mi_maiusculo => 924
  | mi_minusculo => 956
  | Eszett_maiusculo => 7838
  | Kelvin => 8490
  | Angstrom => 8491
  end.

(** [chr(n)] for the code points of the repertoire. *)
Definition chr (n : N) : char :=
  match n with
  | 304 => I_com_ponto
  | 305 => i_sem_pingo
  | 376 => Y_com_trema
  | 383 => s_longo
  | 775 => ponto_acima
  | 924 => Mi_maiusculo
  | 956 => mi_minusculo
  | 7838 => Eszett_maiusculo
  | 8490 => Kelvin
  | 8491 => Angstrom
  | _ => Latin (ascii_of_N n)
  end%N.

Definition between (lo hi : N) (c : char) : bool :=
  (lo <=? code c)%N && (code c <=? hi)%N.

Definition char_dec (a c : char) : {a = c} + {a <> c}.
Proof. decide equality. apply ascii_dec. Defined.

Definition char_eqb (a c : char) : bool :=
  match a, c with
  | Latin x, Latin y => Ascii.eqb x y
  | I_com_ponto, I_com_ponto => true
  | i_sem_pingo, i_sem_pingo => true
  | Y_com_trema, Y_com_trema => true
  | s_longo, s_longo => true
  | ponto_acima, ponto_acima => true
  | Mi_maiusculo, Mi_maiusculo => true
  | mi_minusculo, mi_minusculo => true
  | Eszett_maiusculo, Eszett_maiusculo => true
  | Kelvin, Kelvin => true
  | Angstrom, Angstrom => true
  | _, _ => false
  end.

Definition is_char (a c : char) : bool := char_eqb a c.

(** [\d] on the repertoire: the ten ASCII digits. *)
Definition is_digit (c : char) : bool := between 48 57 c.

(** [\s] and [str.isspace] on the repertoire: TAB..CR, FS..US, space, NEL,
    NBSP. *)
Definition is_space (c : char) : bool :=
  between 9 13 c || between 28 32 c || is_char (chr 133) c || is_char (chr 160) c.

(** The lower-case form of one character, the mapping that [re] compares
    with under [re.IGNORECASE]: A..Z and the accented capitals
    U+00C0..U+00DE (the multiplication sign U+00D7 apart) move up by 32;
    of the capitals outside Latin-1, five have their small letter in
    Latin-1. *)
Definition lower_char (c : char) : char :=
  match c with
  | Latin _ =>
      if between 65 90 c || (between 192 222 c && negb (is_char (chr 215) c))
      then chr (code c + 32) else c
  | I_com_ponto => "i"%char
  | Y_com_trema => chr 255
  | Mi_maiusculo => mi_minusculo
  | Eszett_maiusculo => chr 223
  | Kelvin => "k"%char
  | Angstrom => chr 229
  | _ => c
  end.

(** What [str.lower] makes of one character: its lower-case form, but for
    U+0130, which becomes an [i] followed by the combining dot. *)
Definition minusculas (c : char) : str :=
  match c with
  | I_com_ponto => [Latin "i"; ponto_acima]
  | _ => [lower_char c]
  end.

(** [s.lower()] *)
Definition lower (s : str) : str := flat_map minusculas s.

Definition str_eqb (a b : str) : bool :=
  if list_eq_dec char_dec a b then true else false.

Fixpoint startswith (p s : str) : bool :=
  match p, s with
  | [], _ => true
  | a :: p', c :: s' => char_eqb a c && startswith p' s'
  | _ :: _, [] => false
  end.

(** [needle in hay] *)
Fixpoint contains (needle hay : str) : bool :=
  startswith needle hay ||
  match hay with
  | [] => false
  | _ :: hay' => contains needle hay'
  end.

Fixpoint lstrip (s : str) : str :=
  match s with
  | c :: s' => if is_space c then lstrip s' else s
  | [] => []
  end.

Definition rstrip (s : str) : str := rev (lstrip (rev s)).

Definition strip (s : str) : str := rstrip (lstrip s).

(** [s.replace(old, new)] for a one-character [old]. *)
Definition replace (old : char) (new : str) (s : str) : str :=
  flat_map (fun c => if char_eqb old c then new else [c]) s.

(** [sep.join(parts)] *)
Fixpoint join (sep : str) (parts : list str) : str :=
  match parts with
  | [] => []
  | [p] => p
  | p :: ps => p ++ sep ++ join sep ps
  end.

(** [s.endswith(suffix)] *)
Definition endswith (suffix s : str) : bool :=
  startswith (rev suffix) (rev s).

End Str.

Import Str.

(** ** The fragment of [re] the program uses

    Backtracking is modelled by the list of successes: [run r s] lists, in
    the order in which Python's matcher would try them, every way [r] can
    match a prefix of [s], as the captured groups and the text left over.
    The head of the list is the match Python reports.  Repetition is only
    ever applied to a character class in this program. *)

Module Re.

Inductive regex : Type :=
| Eps
| Cls (p : char -> bool)
| Cat (r1 r2 : regex)
| Alt (r1 r2 : regex)
| Rep (greedy : bool) (p : char -> bool)
| Grp (i : nat) (r : regex)
| Ahead (r : regex).

Definition caps := list (nat * str).

Fixpoint rep (greedy : bool) (p : char -> bool) (s : str) : list (caps * str) :=
  match s with
  | c :: s' =>
      if p c
      then if greedy then rep greedy p s' ++ [([], s)]
           else ([], s) :: rep greedy p s'
      else [([], s)]
  | [] => [([], s)]
  end.

Fixpoint run (r : regex) (s : str) : list (caps * str) :=
  match r with
  | Eps => [([], s)]
  | Cls p =>
      match s with
      | c :: s' => if p c then [([], s')] else []
      | [] => []
      end
  | Cat r1 r2 =>
      flat_map (fun m1 => map (fun m2 => (fst m1 ++ fst m2, snd m2))
                              (run r2 (snd m1)))
               (run r1 s)
  | Alt r1 r2 => run r1 s ++ run r2 s
  | Rep g p => rep g p s
  | Grp i r1 =>
      map (fun m => ((i, firstn (length s - length (snd m)) s) :: fst m, snd m))
          (run r1 s)
  | Ahead r1 =>
      match run r1 s with
      | [] => []
      | m :: _ => [(fst m, s)]
      end
  end.

(** [pattern.match(s)] at the start of [s]. *)
Definition match_here (r : regex) (s : str) : option (caps * str) :=
  hd_error (run r s).

(** [m.group(i)]; every group of the program's patterns takes part in
    every match, so the default is never used. *)
Fixpoint group (i : nat) (c : caps) : str :=
  match c with
  | [] => []
  | (j, t) :: c' => if Nat.eqb i j then t else group i c'
  end.

(** [re.search]: the match at the leftmost position that has one. *)
Fixpoint search (r : regex) (s : str) : option (caps * str) :=
  match match_here r s with
  | Some m => Some m
  | None =>
      match s with
      | [] => None
      | _ :: s' => search r s'
      end
  end.

(** The left-to-right scan shared by [re.findall] and [re.split]: [skip]
    counts the characters of the last match still to be passed over. *)
Fixpoint findall_from (r : regex) (s : str) (skip : nat) : list caps :=
  match skip with
  | S k =>
      match s with
      | [] => []
      | _ :: s' => findall_from r s' k
      end
  | O =>
      match match_here r s with
      | Some (c, rest) =>
          c :: match s with
               | [] => []
               | _ :: s' => findall_from r s' (length s - length rest - 1)
               end
      | None =>
          match s with
          | [] => []
          | _ :: s' => findall_from r s' 0
          end
      end
  end.

Definition findall (r : regex) (s : str) : list caps := findall_from r s 0.

Fixpoint split_from (r : regex) (s : str) (skip : nat) (cur : str) : list str :=
  match skip with
  | S k =>
      match s with
      | [] => [cur]
      | _ :: s' => split_from r s' k cur
      end
  | O =>
      match s with
      | [] => [cur]
      | c :: s' =>
          match match_here r s with
          | Some (_, rest) =>
              match length s - length rest with
              | O => cur :: split_from r s' 0 [c]
              | S k => cur :: split_from r s' k []
              end
          | None => split_from r s' 0 (cur ++ [c])
          end
      end
  end.

(** [re.split(r, s)] for a pattern without groups.  The patterns this
    program scans with consume at least one character per match. *)
Definition split (r : regex) (s : str) : list str := split_from r s 0 [].

(** Pattern building blocks. *)
Definition plus (g : bool) (p : char -> bool) : regex := Cat (Cls p) (Rep g p).

Definition seq (rs : list regex) : regex := fold_right Cat Eps rs.

Definition times4 (p : char -> bool) : regex := seq [Cls p; Cls p; Cls p; Cls p].
Definition times2 (p : char -> bool) : regex := seq [Cls p; Cls p].

(** A literal character. *)
Definition ch (a : char) : regex := Cls (is_char a).

(** The small letters that share their capital with another small letter
    (the table of equivalences of [re]): i and dotless i, s and long s,
    the micro sign and the Greek mu. *)
Definition equivalentes (c : char) : list char :=
  match c with
  | Latin a =>
      if Ascii.eqb a "i" then [i_sem_pingo]
      else if Ascii.eqb a "s" then [s_longo]
      else if Ascii.eqb a (ascii_of_N 181) then [mi_minusculo]
      else []
  | i_sem_pingo => [Latin "i"]
  | s_longo => [Latin "s"]
  | mi_minusculo => [chr 181]
  | _ => []
  end.

(** A literal character under [re.IGNORECASE]: the lower-case form of the
    subject character is the lower-case form of the literal or one of its
    equivalents. *)
Definition ich (a : char) : regex :=
  Cls (fun c => existsb (is_char (lower_char c))
                        (lower_char a :: equivalentes (lower_char a))).

Definition word (s : string) : regex := seq (map ch (lit s)).
Definition iword (s : string) : regex := seq (map ich (lit s)).

(** [.] without and with [re.DOTALL]. *)
Definition dot (c : char) : bool := negb (is_char (chr 10) c).
Definition dotall (c : char) : bool := true.

End Re.

Import Re.

(** ** Python floats: [float(s)] and the [.2f] format

    A float is kept as the exact value it denotes: [Finite m e] is
    [m * 2^e] with [0 <= m], and [Inf] is positive infinity.  [float] rounds
    a decimal numeral to the nearest binary64 value, ties to even; the
    [.2f] format rounds that exact value to two decimals, ties to even. *)

Module Float.

Inductive float : Type :=
| Finite (m e : Z)
| Inf.

Local Open Scope Z_scope.

(** [a / b] rounded to the nearest integer, ties to even ([0 <= a], [0 < b]). *)
Definition rne (a b : Z) : Z :=
  let q := a / b in
  let r := a mod b in
  if 2 * r <? b then q
  else if b <? 2 * r then q + 1
  else if Z.even q then q else q + 1.

(** The binary64 value nearest to [a / b] ([0 <= a], [0 < b]): 53 bits of
    mantissa, exponent of the last place at least [-1074], overflow to
    infinity from [2^1024] on. *)
Definition nearest (a b : Z) : float :=
  if a =? 0 then Finite 0 0 else
  let e0 := Z.log2 a - Z.log2 b in
  let ex := if b * 2 ^ Z.max 0 e0 <=? a * 2 ^ Z.max 0 (- e0) then e0 else e0 - 1 in
  let e := Z.max (ex - 52) (-1074) in
  let m := rne (a * 2 ^ Z.max 0 (- e)) (b * 2 ^ Z.max 0 e) in
  if (971 <? e) || ((e =? 971) && (2 ^ 53 <=? m)) then Inf else Finite m e.

Definition digit_val (c : char) : Z := Z.of_N (code c) - 48.

Definition digits_val (s : str) : Z :=
  fold_left (fun a c => 10 * a + digit_val c) s 0.

(** The text before the first ['.'] and, when there is one, the text
    after it. *)
Fixpoint cut_point (s : str) : str * option str :=
  match s with
  | [] => ([], None)
  | c :: s' =>
      if is_char "."%char c then ([], Some s')
      else let (a, b) := cut_point s' in (c :: a, b)
  end.

(** [float(s)] on text made of digits and points, which is all this
    program passes to it: digits with at most one point and at least one
    digit convert, anything else raises [ValueError] ([None]). *)
Definition float_of_str (s : str) : option float :=
  let (ip, rest) := cut_point s in
  let fp := match rest with Some t => t | None => [] end in
  if forallb is_digit ip && forallb is_digit fp
     && negb (Nat.eqb (length ip + length fp) 0)
  then Some (nearest (digits_val (ip ++ fp)) (10 ^ Z.of_nat (length fp)))
  else None.

Definition dec (n : Z) : str :=
  lit (NilZero.string_of_uint (N.to_uint (Z.to_N n))).

Definition digit (d : Z) : char := chr (Z.to_N (48 + d)).

(** [f"{x:.2f}"] *)
Definition format_2f (x : float) : str :=
  match x with
  | Inf => lit "inf"
  | Finite m e =>
      let c := rne (m * 100 * 2 ^ Z.max 0 e) (2 ^ Z.max 0 (- e)) in
      dec (c / 100) ++ lit "." ++ [digit (c / 10 mod 10); digit (c mod 10)]
  end.

(** [0 <= x] *)
Definition nonneg (x : float) : Prop :=
  match x with
  | Finite m _ => 0 <= m
  | Inf => True
  end.

End Float.

Import Float.
(** ** Exceptions and results *)

Inductive exn : Type :=
| ValueError (arg : str)        (* could not convert string to float *)
| ReaderError (cause : str)     (* raised while opening or reading a PDF *)
| KeyError (column : str).      (* a column the data frame does not have *)

Inductive result (A : Type) : Type :=
| Ok (a : A)
| Raise (e : exn).

Arguments Ok {A} a.
Arguments Raise {A} e.

(** ** The payment classifier *)

Definition Dinheiro : str := lit "Dinheiro".
Definition Cartao_de_Credito : str :=
  lit "Cart" ++ [chr 227] ++ lit "o de Cr" ++ [chr 233] ++ lit "dito".
Definition Cartao_de_Debito : str :=
  lit "Cart" ++ [chr 227] ++ lit "o de D" ++ [chr 233] ++ lit "bito".
Definition PIX : str := lit "PIX".
Definition Transferencia_PIX : str :=
  lit "Transfer" ++ [chr 234] ++ lit "ncia/PIX".
Definition Nao_Especificado : str :=
  lit "N" ++ [chr 227] ++ lit "o Especificado".

(** [[\d.,]] *)
Definition valor_char (c : char) : bool :=
  is_digit c || is_char "."%char c || is_char ","%char c.

(** [(dinheiro|master|elo|pix)] under [re.IGNORECASE] *)
Definition tipo_re : regex :=
  Alt (iword "dinheiro") (Alt (iword "master") (Alt (iword "elo") (iword "pix"))).

(** [R\$\s*([\d.,]+)\s*.*?(dinheiro|master|elo|pix)] under [re.IGNORECASE] *)
Definition padrao_multiplo : regex :=
  seq [ich "R"; ch "$"; Rep true is_space; Grp 1 (plus true valor_char);
       Rep true is_space; Rep false dot; Grp 2 tipo_re].

(** The branch of the [if]/[elif] chain that [tipo] selects, if any. *)
Definition rotulo (tipo : str) : option str :=
  let t := lower tipo in
  if contains (lit "dinheiro") t then Some Dinheiro
  else if contains (lit "master") t then Some Cartao_de_Credito
  else if contains (lit "elo") t then Some Cartao_de_Debito
  else if contains (lit "pix") t then Some PIX
  else None.

Definition valor_formatado (valor : str) : str :=
  replace ","%char (lit ".") (replace "."%char [] (strip valor)).

(** The [for valor, tipo in padrao_multiplo] loop, threading the list
    [pagamentos_encontrados]; [float] is only evaluated inside the branch
    taken. *)
Fixpoint laco_pagamentos (ms : list caps) (pagamentos_encontrados : list str)
  : result (list str) :=
  match ms with
  | [] => Ok pagamentos_encontrados
  | m :: ms' =>
      let valor := group 1 m in
      let tipo := group 2 m in
      match rotulo tipo with
      | None => laco_pagamentos ms' pagamentos_encontrados
      | Some r =>
          match float_of_str (valor_formatado valor) with
          | None => Raise (ValueError (valor_formatado valor))
          | Some x =>
              laco_pagamentos ms'
                (pagamentos_encontrados ++
                 [r ++ lit " (R$ " ++ format_2f x ++ lit ")"])
          end
      end
  end.

(** The keyword rules for single payments (second half of the function). *)
Definition pagamento_unico (observacoes : str) : str :=
  if contains (lit "link de pagamento") (lower observacoes) then Cartao_de_Credito
  else if contains (lit "elo") (lower observacoes) then Cartao_de_Debito
  else if contains (lit "a receber") (lower observacoes)
          || contains (lit "pix") (lower observacoes) then Transferencia_PIX
  else if contains (lit "dinheiro") (lower observacoes) then Dinheiro
  else Nao_Especificado.

(** The body of the function, with the keyword rules it ends in as the
    argument [regras]. *)
Definition classificar (regras : str -> str) (observacoes : str) : result str :=
  match laco_pagamentos (findall padrao_multiplo observacoes) [] with
  | Raise e => Raise e
  | Ok pagamentos_encontrados =>
      match pagamentos_encontrados with
      | _ :: _ => Ok (join (lit ", ") pagamentos_encontrados)
      | [] => Ok (regras observacoes)
      end
  end.

Definition formatar_meio_de_pagamento (observacoes : str) : result str :=
  classificar pagamento_unico observacoes.

(** ** The aggregator *)

Definition Nenhum : str := lit "Nenhum".

(** [[a-zA-Z\u00e3\u00e1\u00e7\u00e9\u00ed\u00f5\u00fa\s/]] *)
Definition tipo_char (c : char) : bool :=
  between 97 122 c || between 65 90 c
  || existsb (fun a => is_char (chr a) c) [227; 225; 231; 233; 237; 245; 250]%N
  || is_space c || is_char "/"%char c.

Definition padrao_tipos : regex := Grp 1 (plus true tipo_char).

(** The tokens one description contributes to [lista_pagamentos]. *)
Definition tipos_do_item (item : str) : list str :=
  flat_map
    (fun m =>
       let tipo := group 1 m in
       let tipo_limpo :=
         strip (replace ")"%char [] (replace "("%char [] (strip tipo))) in
       if negb (str_eqb tipo_limpo []) && negb (contains (lit "R$") tipo_limpo)
       then [tipo_limpo] else [])
    (findall padrao_tipos item).

(** [collections.Counter]: counts kept in order of first insertion. *)
Fixpoint incr (k : str) (cnt : list (str * nat)) : list (str * nat) :=
  match cnt with
  | [] => [(k, 1)]
  | (k', n) :: cnt' =>
      if str_eqb k k' then (k', S n) :: cnt' else (k', n) :: incr k cnt'
  end.

Definition Counter (l : list str) : list (str * nat) :=
  fold_left (fun cnt k => incr k cnt) l [].

(** [max(items, key=count)]: the first item of greatest count. *)
Fixpoint max_first (best : str * nat) (cnt : list (str * nat)) : str * nat :=
  match cnt with
  | [] => best
  | x :: cnt' => max_first (if snd best <? snd x then x else best) cnt'
  end.

(** [most_common(1)] *)
Definition most_common_1 (cnt : list (str * nat)) : list (str * nat) :=
  match cnt with
  | [] => []
  | x :: cnt' => [max_first x cnt']
  end.

(** The argument is the column ['Meio de Pagamento'] of the data frame. *)
Definition encontrar_pagamento_mais_frequente (coluna : list str) : str :=
  match coluna with
  | [] => Nenhum
  | _ =>
      let lista_pagamentos := flat_map tipos_do_item coluna in
      match most_common_1 (Counter lista_pagamentos) with
      | [] => Nenhum
      | (k, _) :: _ => k
      end
  end.

(** ** The transaction parser *)

Record transacao : Type := Transacao {
  numero_do_pedido : str;
  data : str;
  nome_do_cliente : str;
  valor_total : float;
  meio_de_pagamento : str
}.

Definition nl : char := chr 10.

(** [\n(?=\d{4}\s)] *)
Definition padrao_quebra : regex :=
  Cat (ch nl) (Ahead (Cat (times4 is_digit) (Cls is_space))).

Definition hora_char (c : char) : bool := is_digit c || is_char ":"%char c.

(** [[\s\S]] *)
Definition qualquer (c : char) : bool := is_space c || negb (is_space c).

(** [\d{2}/\d{2}/\d{4}] *)
Definition data_re : regex :=
  seq [times2 is_digit; word "/"; times2 is_digit; word "/"; times4 is_digit].

(** The pattern of [re.search] under [re.DOTALL]: group 1 [\d{4}], [\s+],
    group 2 the date, [\s+], [[\d:]+], [\s+], group 3 [.*?], [\s+],
    [R\$\s[\d.,]+], [\s+], [R\$\s], group 4 [[\d.,]+], group 5 [[\s\S]*]. *)
Definition padrao_transacao : regex :=
  seq [Grp 1 (times4 is_digit); plus true is_space;
       Grp 2 data_re; plus true is_space;
       plus true hora_char; plus true is_space;
       Grp 3 (Rep false dotall); plus true is_space;
       word "R$"; Cls is_space; plus true valor_char; plus true is_space;
       word "R$"; Cls is_space; Grp 4 (plus true valor_char);
       Grp 5 (Rep true qualquer)].

(** [....replace('.', '').replace(',', '.')] *)
Definition valor_venda_str (g4 : str) : str :=
  replace ","%char (lit ".") (replace "."%char [] (strip g4)).

(** The body of the [for bloco] loop: a record, nothing (the block does
    not match, or it is a drawer opening), or an exception.  In the dict
    display [float] is evaluated before the classifier is called. *)
Definition processar_bloco (bloco : str) : result (option transacao) :=
  match search padrao_transacao bloco with
  | None => Ok None
  | Some (g, _) =>
      let cliente_bruto := strip (group 3 g) in
      if contains (lit "abertura de caixa") (lower cliente_bruto) then Ok None
      else
        let num_pedido := strip (group 1 g) in
        let data_venda := strip (group 2 g) in
        let observacoes := strip (group 5 g) in
        match float_of_str (valor_venda_str (group 4 g)) with
        | None => Raise (ValueError (valor_venda_str (group 4 g)))
        | Some v =>
            match formatar_meio_de_pagamento observacoes with
            | Raise e => Raise e
            | Ok p => Ok (Some (Transacao num_pedido data_venda cliente_bruto v p))
            end
        end
  end.

(** The [for bloco] loop over the shared list [lista_de_transacoes]: an
    exception leaves the loop with the list as it then stands. *)
Fixpoint processar_blocos (blocos : list str) (lista_de_transacoes : list transacao)
  : list transacao * option exn :=
  match blocos with
  | [] => (lista_de_transacoes, None)
  | bloco :: blocos' =>
      match processar_bloco bloco with
      | Raise e => (lista_de_transacoes, Some e)
      | Ok None => processar_blocos blocos' lista_de_transacoes
      | Ok (Some t) => processar_blocos blocos' (lista_de_transacoes ++ [t])
      end
  end.

(** A page is what [extract_text()] gives for it: [None] or a string. *)
Definition pagina := option str.

(** A file of the directory: the document reader fails on it (on opening
    or on a page, both before any block is looked at), or it has pages. *)
Inductive arquivo : Type :=
| Ilegivel (causa : str)
| Pdf (paginas : list pagina).

Definition texto_completo (paginas : list pagina) : str :=
  flat_map (fun pg => match pg with
                      | Some (c :: t) => (c :: t) ++ [nl]
                      | _ => []
                      end) paginas.

Definition blocos_transacao (texto : str) : list str := split padrao_quebra texto.

(** What is printed. *)
Inductive evento : Type :=
| ErroPasta (pasta : str)
| Processando (nome_arquivo : str)
| ErroArquivo (nome_arquivo : str) (e : exn).

Definition eh_pdf (nome_arquivo : str) : bool :=
  endswith (lit ".pdf") (lower nome_arquivo).

(** The [try] block for one file. *)
Definition processar_arquivo (a : arquivo) (lista_de_transacoes : list transacao)
  : list transacao * option exn :=
  match a with
  | Ilegivel causa => (lista_de_transacoes, Some (ReaderError causa))
  | Pdf paginas =>
      processar_blocos (blocos_transacao (texto_completo paginas)) lista_de_transacoes
  end.

(** The [for nome_arquivo in os.listdir] loop, with its [except]. *)
Fixpoint laco_arquivos (arquivos : list (str * arquivo))
  (lista_de_transacoes : list transacao) (saida : list evento)
  : list transacao * list evento :=
  match arquivos with
  | [] => (lista_de_transacoes, saida)
  | (nome_arquivo, a) :: arquivos' =>
      if eh_pdf nome_arquivo then
        match processar_arquivo a lista_de_transacoes with
        | (lista, None) =>
            laco_arquivos arquivos' lista (saida ++ [Processando nome_arquivo])
        | (lista, Some e) =>
            laco_arquivos arquivos' lista
              (saida ++ [Processando nome_arquivo; ErroArquivo nome_arquivo e])
        end
      else laco_arquivos arquivos' lista_de_transacoes saida
  end.

(** [conteudo] is what the file system holds at [pasta_dos_pdfs]: [None]
    when it is not a directory, else its entries in [os.listdir] order. *)
Definition extrair_dados_dos_pdfs (pasta_dos_pdfs : str)
  (conteudo : option (list (str * arquivo)))
  : option (list transacao) * list evento :=
  match conteudo with
  | None => (None, [ErroPasta pasta_dos_pdfs])
  | Some arquivos =>
      let (lista, saida) := laco_arquivos arquivos [] [] in (Some lista, saida)
  end.
(** ** The ordering step of the output stage *)

Local Open Scope Z_scope.

(** A row of the data frame once the two key columns are converted. *)
Record linha : Type := Linha {
  pedido : Z;
  dia : Z * Z * Z;          (* year, month, day *)
  cliente : str;
  valor : float;
  pagamento : str
}.

(** [pd.to_numeric] on a string of digits, the only strings the parser
    puts in that column. *)
Definition to_numeric (s : str) : option Z :=
  match s with
  | [] => None
  | _ => if forallb is_digit s then Some (digits_val s) else None
  end.

Definition bissexto (y : Z) : bool :=
  ((y mod 4 =? 0) && negb (y mod 100 =? 0)) || (y mod 400 =? 0).

Definition dias_do_mes (y m : Z) : Z :=
  if m =? 2 then (if bissexto y then 29 else 28)
  else if (m =? 4) || (m =? 6) || (m =? 9) || (m =? 11) then 30 else 31.

Definition data_leb (a b : Z * Z * Z) : bool :=
  let '(ya, ma, da) := a in
  let '(yb, mb, db) := b in
  (ya <? yb) || ((ya =? yb) && ((ma <? mb) || ((ma =? mb) && (da <=? db)))).

(** [pd.to_datetime(..., format='%d/%m/%Y')] on text of the shape
    [dd/mm/yyyy] the parser extracts, as pandas 2 does it: a day that
    exists in the calendar and lies in the range of a nanosecond timestamp
    (1677-09-22 to 2262-04-11) converts, any other raises. *)
Definition to_datetime (s : str) : option (Z * Z * Z) :=
  match s with
  | [d1; d2; b1; m1; m2; b2; y1; y2; y3; y4] =>
      if forallb is_digit [d1; d2; m1; m2; y1; y2; y3; y4]
         && is_char "/"%char b1 && is_char "/"%char b2
      then
        let d := digits_val [d1; d2] in
        let m := digits_val [m1; m2] in
        let y := digits_val [y1; y2; y3; y4] in
        if (1 <=? m) && (m <=? 12) && (1 <=? d) && (d <=? dias_do_mes y m)
           && data_leb (1677, 9, 22) (y, m, d) && data_leb (y, m, d) (2262, 4, 11)
        then Some (y, m, d) else None
      else None
  | _ => None
  end.

(** Lines 114 and 115: a column is converted cell by cell, and the first
    cell that does not convert raises. *)
Fixpoint converter {A : Type} (f : str -> option A) (coluna : list str)
  : result (list A) :=
  match coluna with
  | [] => Ok []
  | x :: coluna' =>
      match f x with
      | None => Raise (ValueError x)
      | Some a =>
          match converter f coluna' with
          | Ok l => Ok (a :: l)
          | Raise e => Raise e
          end
      end
  end.

(** The frame with the two converted columns put back. *)
Fixpoint montar (dados : list transacao) (ns : list Z) (ds : list (Z * Z * Z))
  : list linha :=
  match dados, ns, ds with
  | t :: dados', n :: ns', d :: ds' =>
      Linha n d (nome_do_cliente t) (valor_total t) (meio_de_pagamento t)
      :: montar dados' ns' ds'
  | _, _, _ => []
  end.

(** The order of [sort_values(by=['Numero do Pedido', 'Data'])]. *)
Definition chave_leb (a b : linha) : bool :=
  (pedido a <? pedido b) || ((pedido a =? pedido b) && data_leb (dia a) (dia b)).

Fixpoint inserir (x : linha) (l : list linha) : list linha :=
  match l with
  | [] => [x]
  | y :: l' => if chave_leb x y then x :: l else y :: inserir x l'
  end.

(** [df.sort_values]: a stable sort. *)
Definition sort_values (l : list linha) : list linha := fold_right inserir [] l.

(** [criar_planilha_excel] up to the sorted frame [df] of line 118; an
    empty [dados_vendas] gives a frame without columns. *)
Definition criar_planilha_excel (dados_vendas : list transacao) : result (list linha) :=
  match dados_vendas with
  | [] => Raise (KeyError (lit "Numero do Pedido"))
  | _ =>
      match converter to_numeric (map numero_do_pedido dados_vendas) with
      | Raise e => Raise e
      | Ok ns =>
          match converter to_datetime (map data dados_vendas) with
          | Raise e => Raise e
          | Ok ds => Ok (sort_values (montar dados_vendas ns ds))
          end
      end
  end.

Local Close Scope Z_scope.

(** ** The display of the dates, the summary and the main program *)

Local Open Scope Z_scope.

Definition dois_digitos (n : Z) : str := [digit (n / 10); digit (n mod 10)].

Definition quatro_digitos (n : Z) : str :=
  [digit (n / 1000); digit (n / 100 mod 10); digit (n / 10 mod 10); digit (n mod 10)].

(** [strftime('%d/%m/%Y')] on a date whose year has four digits, as all
    dates of a nanosecond timestamp have. *)
Definition strftime (d : Z * Z * Z) : str :=
  let '(y, m, dd) := d in
  dois_digitos dd ++ lit "/" ++ dois_digitos m ++ lit "/" ++ quatro_digitos y.

(** Line 121: the column ['Data'] as it is written to the sheet. *)
Definition coluna_data (df : list linha) : list str :=
  map (fun l => strftime (dia l)) df.

(** Line 127: the most frequent payment, taken from the sorted frame. *)
Definition pagamento_frequente (df : list linha) : str :=
  encontrar_pagamento_mais_frequente (map pagamento df).

Local Close Scope Z_scope.

(** How the main program ends, up to the point where the sorted frame and
    the summary are handed to the spreadsheet writer. *)
Inductive desfecho : Type :=
| PastaAusente                                   (* [dados_extraidos is None] *)
| SemTransacoes                                  (* the empty list: a message *)
| Planilha (df : list linha) (frequente : str)   (* [criar_planilha_excel] *)
| Excecao (e : exn).                             (* not caught anywhere *)

(** The block under [if __name__ == "__main__"]; [conteudo] is what the
    file system holds at ["PDF"]. *)
Definition principal (conteudo : option (list (str * arquivo))) : desfecho :=
  match fst (extrair_dados_dos_pdfs (lit "PDF") conteudo) with
  | None => PastaAusente
  | Some [] => SemTransacoes
  | Some dados_extraidos =>
      match criar_planilha_excel dados_extraidos with
      | Raise e => Excecao e
      | Ok df => Planilha df (pagamento_frequente df)
      end
  end.

(** * Specification vocabulary *)

(** What [run] computes, declaratively: [sem r w rest c] says that [r]
    matches the word [w] when [rest] follows it, capturing [c]. *)
Fixpoint sem (r : regex) (w rest : str) (c : caps) : Prop :=
  match r with
  | Eps => w = [] /\ c = []
  | Cls p => (exists a, w = [a] /\ p a = true) /\ c = []
  | Cat r1 r2 =>
      exists w1 w2 c1 c2,
        w = w1 ++ w2 /\ c = c1 ++ c2 /\
        sem r1 w1 (w2 ++ rest) c1 /\ sem r2 w2 rest c2
  | Alt r1 r2 => sem r1 w rest c \/ sem r2 w rest c
  | Rep _ p => forallb p w = true /\ c = []
  | Grp i r1 => exists c1, c = (i, w) :: c1 /\ sem r1 w rest c1
  | Ahead r1 =>
      w = [] /\ exists w' rest', rest = w' ++ rest' /\ sem r1 w' rest' c
  end.

(** The four keywords of the multiple-payment pattern. *)
Definition palavras_chave : list str :=
  [lit "dinheiro"; lit "master"; lit "elo"; lit "pix"].

(** The characters that the case-insensitive comparison takes for a small
    ASCII letter: the letter, its capital and, for i, s and k, the
    characters outside ASCII that have it as their small letter or share
    their capital with it. *)
Definition grafias (k : char) : list char :=
  match k with
  | Latin a =>
      [Latin a; Latin (ascii_of_N (N_of_ascii a - 32))] ++
      (if Ascii.eqb a "i" then [I_com_ponto; i_sem_pingo]
       else if Ascii.eqb a "s" then [s_longo]
       else if Ascii.eqb a "k" then [Kelvin]
       else [])
  | _ => [k]
  end.

(** [tipo] spells the word [k] of small ASCII letters, letter by letter. *)
Definition escreve (k tipo : str) : Prop :=
  Forall2 (fun a c => In c (grafias a)) k tipo.

(** [tipo] spells one of the four keywords. *)
Definition palavra_chave (tipo : str) : Prop :=
  exists k, In k palavras_chave /\ escreve k tipo.

(** A character of Latin-1. *)
Definition latina (c : char) : bool :=
  match c with
  | Latin _ => true
  | _ => false
  end.

(** A numeral with an integer part, a point and exactly two decimals. *)
Definition duas_casas (t : str) : Prop :=
  exists (ip : str) (d1 d2 : char),
    t = ip ++ Latin "." :: [d1; d2] /\ ip <> [] /\
    forallb is_digit ip = true /\ is_digit d1 = true /\ is_digit d2 = true.


(** The category of a keyword of the multiple-payment pattern. *)
Definition categoria (tipo : str) : option str :=
  if str_eqb (lower tipo) (lit "dinheiro") then Some Dinheiro
  else if str_eqb (lower tipo) (lit "master") then Some Cartao_de_Credito
  else if str_eqb (lower tipo) (lit "elo") then Some Cartao_de_Debito
  else if str_eqb (lower tipo) (lit "pix") then Some PIX
  else None.

(** The matches that give an entry: the ones whose keyword, lower-cased,
    is one of the four. *)
Definition reconhecida (m : caps) : bool :=
  match categoria (group 2 m) with
  | Some _ => true
  | None => false
  end.

Definition tomadas (observacoes : str) : list caps :=
  filter reconhecida (findall padrao_multiplo observacoes).

(** The amount of a match converts to a finite float. *)
Definition valor_finito (m : caps) : Prop :=
  exists mm e, float_of_str (valor_formatado (group 1 m)) = Some (Finite mm e).

(** [e] is the entry ["<Category> (R$ <amount>)"] of the match [m], the
    amount with two decimals. *)
Definition entrada (m : caps) (e : str) : Prop :=
  exists cat x,
    categoria (group 2 m) = Some cat /\
    float_of_str (valor_formatado (group 1 m)) = Some x /\
    e = cat ++ lit " (R$ " ++ format_2f x ++ lit ")" /\
    duas_casas (format_2f x).

(** The keyword rules as a priority list: the first rule one of whose
    keywords occurs in the lower-cased text gives the description. *)
Definition regras_de_palavra_chave : list (list str * str) :=
  [([lit "link de pagamento"], Cartao_de_Credito);
   ([lit "elo"], Cartao_de_Debito);
   ([lit "a receber"; lit "pix"], Transferencia_PIX);
   ([lit "dinheiro"], Dinheiro)].

Definition primeira_regra (observacoes : str) : str :=
  match find (fun regra => existsb (fun k => contains k (lower observacoes)) (fst regra))
             regras_de_palavra_chave with
  | Some regra => snd regra
  | None => Nao_Especificado
  end.

(** Somewhere in the text: the currency marker, white space, an amount,
    white space, filler without a line break, a keyword. *)
Definition par_na_mesma_linha (observacoes : str) : Prop :=
  exists antes r esp1 valor esp2 recheio tipo depois,
    observacoes =
      antes ++ (r :: Latin "$" :: esp1 ++ valor ++ esp2 ++ recheio ++ tipo) ++ depois /\
    lower_char r = "r"%char /\
    forallb is_space esp1 = true /\
    valor <> [] /\ forallb valor_char valor = true /\
    forallb is_space esp2 = true /\
    forallb dot recheio = true /\
    palavra_chave tipo.


(** The text begins with a transaction header: four digits and a
    white-space character. *)
Definition cabecalho (s : str) : bool :=
  match s with
  | d1 :: d2 :: d3 :: d4 :: e :: _ =>
      is_digit d1 && is_digit d2 && is_digit d3 && is_digit d4 && is_space e
  | _ => false
  end.

(** The line breaks that are followed by a header. *)
Fixpoint quebras (s : str) : nat :=
  match s with
  | [] => 0
  | c :: s' => (if is_char nl c && cabecalho s' then 1 else 0) + quebras s'
  end.

(** The transaction headers of a text: the lines that begin with one. *)
Definition cabecalhos (texto : str) : nat :=
  (if cabecalho texto then 1 else 0) + quebras texto.

(** The text up to the first line break that is followed by a header. *)
Fixpoint ate_quebra (s : str) : str :=
  match s with
  | [] => []
  | c :: s' => if is_char nl c && cabecalho s' then [] else c :: ate_quebra s'
  end.

(** The block begins with the four digits of an order number, and what
    follows them, if anything, is white space. *)
Definition comeca_com_pedido (b : str) : bool :=
  match b with
  | d1 :: d2 :: d3 :: d4 :: resto =>
      is_digit d1 && is_digit d2 && is_digit d3 && is_digit d4 &&
      match resto with
      | [] => true
      | e :: _ => is_space e
      end
  | _ => false
  end.


(** The finite float [x] is the quotient [a / b] rounded to the nearest
    float with the exponent of [x]: the two differ by at most half a unit
    of the last place of [x]. *)
Definition arredonda (x : float) (a b : Z) : Prop :=
  match x with
  | Inf => False
  | Finite m e =>
      (2 * Z.abs (m * (b * 2 ^ Z.max 0 e) - a * 2 ^ Z.max 0 (- e))
       <= b * 2 ^ Z.max 0 e)%Z
  end.

(** The finite float [x] is exactly the integer [n]. *)
Definition vale (x : float) (n : Z) : Prop :=
  match x with
  | Inf => False
  | Finite m e => (m * 2 ^ Z.max 0 e = n * 2 ^ Z.max 0 (- e))%Z
  end.

(** The customer text holds the phrase, whatever the case of its letters. *)
Definition menciona_abertura (cliente : str) : Prop :=
  exists a b, lower cliente = a ++ lit "abertura de caixa" ++ b.


(** What one directory entry contributes on its own: its records ... *)
Definition registros_de (entrada_dir : str * arquivo) : list transacao :=
  let (nome_arquivo, a) := entrada_dir in
  if eh_pdf nome_arquivo then fst (processar_arquivo a []) else [].

(** ... and what is printed for it. *)
Definition eventos_de (entrada_dir : str * arquivo) : list evento :=
  let (nome_arquivo, a) := entrada_dir in
  if eh_pdf nome_arquivo then
    Processando nome_arquivo ::
    match snd (processar_arquivo a []) with
    | Some e => [ErroArquivo nome_arquivo e]
    | None => []
    end
  else [].


(** A record the parser can produce. *)
Definition extraida (t : transacao) : Prop :=
  exists bloco, processar_bloco bloco = Ok (Some t).

(** Order number first, date second. *)
Definition dia_le (a b : Z * Z * Z) : Prop :=
  let '(ya, ma, da) := a in
  let '(yb, mb, db) := b in
  (ya < yb \/ (ya = yb /\ (ma < mb \/ (ma = mb /\ da <= db))))%Z.

Definition ordem (a b : linha) : Prop :=
  (pedido a < pedido b)%Z \/ (pedido a = pedido b /\ dia_le (dia a) (dia b)).


(** [varredura r s ms]: reading [s] from left to right, [ms] are the
    groups of the successive matches of [r], each one the match found at
    the leftmost position, not before the end of the previous match,
    where [r] matches at all; the matches do not overlap. *)
Inductive varredura (r : regex) : str -> list caps -> Prop :=
| varredura_fim s :
    (forall pre t, s = pre ++ t -> match_here r t = None) ->
    varredura r s []
| varredura_achou pre w rest c ms :
    (forall p1 p2, pre = p1 ++ p2 -> p2 <> [] ->
                   match_here r (p2 ++ w ++ rest) = None) ->
    match_here r (w ++ rest) = Some (c, rest) ->
    w <> [] ->
    varredura r rest ms ->
    varredura r (pre ++ w ++ rest) (c :: ms).


(** An amount the classifier cannot convert: two commas or more, or no
    digit at all. *)
Definition malformado (valor : str) : Prop :=
  2 <= count_occ char_dec valor ","%char \/ existsb is_digit valor = false.

(** A character of a number written with points between the thousands. *)
Definition digito_ou_ponto (c : char) : bool := is_digit c || is_char "."%char c.


(** The shape [dd/dd/dddd] of a date token. *)
Definition forma_de_data (s : str) : Prop :=
  exists d1 d2 m1 m2 y1 y2 y3 y4 : char,
    s = [d1; d2; Latin "/"; m1; m2; Latin "/"; y1; y2; y3; y4] /\
    forallb is_digit [d1; d2; m1; m2; y1; y2; y3; y4] = true.

(** Four digits. *)
Definition quatro_algarismos (s : str) : Prop :=
  exists d1 d2 d3 d4, s = [d1; d2; d3; d4] /\ forallb is_digit [d1; d2; d3; d4] = true.

(** The first match of the pattern, wherever it starts, leaves nothing of
    the text over. *)
Definition ate_o_fim (r : regex) : Prop :=
  forall s m l, run r s = m :: l -> snd m = [].


(** A row as the sheet shows it, and a record as the parser made it: order
    number as a number, date as text, customer, total, payment. *)
Definition visao_da_linha (l : linha) : Z * str * str * float * str :=
  (pedido l, strftime (dia l), cliente l, valor l, pagamento l).

Definition visao_do_registro (t : transacao) : Z * str * str * float * str :=
  (digits_val (numero_do_pedido t), data t, nome_do_cliente t, valor_total t,
   meio_de_pagamento t).


(** How many times a token occurs. *)
Definition conta (l : list str) (k : str) : nat :=
  count_occ (list_eq_dec char_dec) l k.


(** The text with every character in its lower-case form. *)
Definition em_minusculas (s : str) : str := map lower_char s.

(** The same for the groups of a match. *)
Definition lower_caps (c : caps) : caps :=
  map (fun it => (fst it, em_minusculas (snd it))) c.

Definition lower_m (m : caps * str) : caps * str :=
  (lower_caps (fst m), em_minusculas (snd m)).

(** A pattern all of whose character tests give the same answer for a
    character and for its lower-case form. *)
Fixpoint insensivel (r : regex) : Prop :=
  match r with
  | Eps => True
  | Cls p => forall c, p (lower_char c) = p c
  | Rep _ p => forall c, p (lower_char c) = p c
  | Cat r1 r2 => insensivel r1 /\ insensivel r2
  | Alt r1 r2 => insensivel r1 /\ insensivel r2
  | Grp _ r1 => insensivel r1
  | Ahead r1 => insensivel r1
  end.

(** Every spelling of a word of small ASCII letters. *)
Fixpoint escritas (k : str) : list str :=
  match k with
  | [] => [[]]
  | a :: k' => flat_map (fun c => map (cons c) (escritas k')) (grafias a)
  end.

(** The chain and the category agree on a spelling, and the spelling has
    a category exactly when it is written in Latin-1. *)
Definition rotulo_conforme (tipo : str) : bool :=
  match rotulo tipo, categoria tipo with
  | Some a, Some b => str_eqb a b && forallb latina tipo
  | None, None => negb (forallb latina tipo)
  | _, _ => false
  end.

(** [sequencias p s rs]: [rs] are the maximal runs of characters of the
    class [p] in the text [s], from left to right.  Before each run stands
    a stretch of characters outside the class, which is empty only at the
    start of the text, and after it the text ends or goes on with a
    character outside the class. *)
Inductive sequencias (p : char -> bool) : str -> list str -> Prop :=
| sequencias_fim fora :
    forallb (fun c => negb (p c)) fora = true ->
    sequencias p fora []
| sequencias_mais fora r resto rs :
    forallb (fun c => negb (p c)) fora = true ->
    r <> [] -> forallb p r = true ->
    match resto with
    | [] => True
    | c :: _ => p c = false
    end ->
    sequencias p resto rs ->
    sequencias p (fora ++ r ++ resto) (r :: rs).

(** * Verification *)

(** ** Facts about strings *)

Lemma char_eqb_eq (a c : char) : char_eqb a c = true <-> a = c.
Proof.
  destruct a, c; cbn [char_eqb]; try (split; [discriminate | congruence]);
    try (split; reflexivity).
  rewrite Ascii.eqb_eq. split; congruence.
Qed.

Lemma char_eqb_neq (a c : char) : char_eqb a c = false <-> a <> c.
Proof.
  rewrite <- char_eqb_eq. destruct (char_eqb a c); split; congruence.
Qed.

Lemma char_eqb_refl (a : char) : char_eqb a a = true.
Proof. now apply char_eqb_eq. Qed.

Lemma char_eqb_spec (a c : char) : reflect (a = c) (char_eqb a c).
Proof. apply iff_reflect. symmetry. apply char_eqb_eq. Qed.

Lemma str_eqb_eq a b : str_eqb a b = true <-> a = b.
Proof.
  unfold str_eqb. destruct (list_eq_dec char_dec a b); split; congruence.
Qed.

Lemma firstn_consumed (w rest : str) :
  firstn (length (w ++ rest) - length rest) (w ++ rest) = w.
Proof.
  rewrite length_app.
  replace (length w + length rest - length rest) with (length w + 0) by lia.
  rewrite firstn_app_2. simpl. apply app_nil_r.
Qed.

Lemma startswith_iff (p s : str) :
  startswith p s = true <-> exists t, s = p ++ t.
Proof.
  revert s. induction p as [|a p IH]; intros s; simpl.
  - split; eauto.
  - destruct s as [|c s].
    + split; [discriminate | intros [t Ht]; discriminate].
    + rewrite andb_true_iff, char_eqb_eq, IH. split.
      * intros [-> [t ->]]. eauto.
      * intros [t Ht]. injection Ht as -> ->. eauto.
Qed.

Lemma contains_iff (needle hay : str) :
  contains needle hay = true <-> exists a b, hay = a ++ needle ++ b.
Proof.
  induction hay as [|c hay IH].
  - simpl. rewrite orb_false_r, startswith_iff. split.
    + intros [t Ht]. exists [], t. exact Ht.
    + intros [a [b H]]. destruct a; simpl in H.
      * eauto.
      * discriminate.
  - simpl. rewrite orb_true_iff, startswith_iff, IH. split.
    + intros [[t Ht] | [a [b H]]].
      * exists [], t. exact Ht.
      * exists (c :: a), b. simpl. now rewrite H.
    + intros [a [b H]]. destruct a as [|c' a]; simpl in H.
      * left. eauto.
      * right. injection H as _ H. eauto.
Qed.

Lemma join_cons sep p q ps :
  join sep (p :: q :: ps) = p ++ sep ++ join sep (q :: ps).
Proof. reflexivity. Qed.

Lemma lower_app (a b : str) : lower (a ++ b) = lower a ++ lower b.
Proof. apply flat_map_app. Qed.

(** ** Facts about the matcher *)

Lemma rep_sound g p s c rest :
  In (c, rest) (rep g p s) ->
  c = [] /\ exists w, s = w ++ rest /\ forallb p w = true.
Proof.
  revert c rest. induction s as [|a s IH]; intros c rest H; simpl in H.
  - destruct H as [H|[]]. injection H as <- <-. split; [reflexivity|].
    exists []. auto.
  - destruct (p a) eqn:Hp.
    + assert (Hc : (c, rest) = ([], a :: s) \/ In (c, rest) (rep g p s)).
      { destruct g.
        - apply in_app_or in H. destruct H as [H|[H|[]]]; auto.
        - destruct H as [H|H]; auto. }
      destruct Hc as [Hc|Hc].
      * injection Hc as -> ->. split; [reflexivity|]. exists []. auto.
      * destruct (IH _ _ Hc) as [-> [w [-> Hw]]]. split; [reflexivity|].
        exists (a :: w). simpl. rewrite Hp, Hw. auto.
    + destruct H as [H|[]]. injection H as <- <-. split; [reflexivity|].
      exists []. auto.
Qed.

Lemma rep_complete g p w rest :
  forallb p w = true -> In ([], rest) (rep g p (w ++ rest)).
Proof.
  assert (Hbase : forall s, In ([], s) (rep g p s)).
  { intros [|a s]; simpl; [now left|].
    destruct (p a); [|now left].
    destruct g; [apply in_or_app; right; now left | now left]. }
  induction w as [|a w IH]; intros Hw; simpl in *.
  - apply Hbase.
  - apply andb_true_iff in Hw. destruct Hw as [Hp Hw]. rewrite Hp.
    destruct g.
    + apply in_or_app. left. auto.
    + right. auto.
Qed.

Theorem run_sound r : forall s c rest,
  In (c, rest) (run r s) -> exists w, s = w ++ rest /\ sem r w rest c.
Proof.
  induction r as [|p|r1 IH1 r2 IH2|r1 IH1 r2 IH2|g p|i r1 IH1|r1 IH1];
    intros s c rest H; simpl in H.
  - destruct H as [H|[]]. injection H as <- <-. exists []. simpl. auto.
  - destruct s as [|a s]; [destruct H|].
    destruct (p a) eqn:Hp; [|destruct H].
    destruct H as [H|[]]. injection H as <- <-.
    exists [a]. simpl. eauto.
  - apply in_flat_map in H. destruct H as [[c1 s1] [H1 H]].
    apply in_map_iff in H. destruct H as [[c2 s2] [E H2]].
    simpl in E. injection E as <- <-. simpl in H2.
    destruct (IH1 _ _ _ H1) as [w1 [-> S1]].
    destruct (IH2 _ _ _ H2) as [w2 [-> S2]].
    exists (w1 ++ w2). rewrite <- app_assoc. split; [reflexivity|].
    simpl. exists w1, w2, c1, c2. auto.
  - apply in_app_or in H. destruct H as [H|H].
    + destruct (IH1 _ _ _ H) as [w [-> S1]]. exists w. simpl. auto.
    + destruct (IH2 _ _ _ H) as [w [-> S2]]. exists w. simpl. auto.
  - apply rep_sound in H. destruct H as [-> [w [-> Hw]]]. exists w. simpl. auto.
  - apply in_map_iff in H. destruct H as [[c1 s1] [E H1]].
    simpl in E. injection E as <- <-.
    destruct (IH1 _ _ _ H1) as [w [-> S1]]. exists w. split; [reflexivity|].
    simpl. exists c1. rewrite firstn_consumed. auto.
  - destruct (run r1 s) as [|[c1 s1] l] eqn:E; [destruct H|].
    destruct H as [H|[]]. simpl in H. injection H as <- <-.
    destruct (IH1 s c1 s1) as [w [-> S1]]; [rewrite E; now left|].
    exists []. split; [reflexivity|]. simpl. split; [reflexivity|]. eauto.
Qed.

Theorem run_complete r : forall w rest c,
  sem r w rest c -> exists c', In (c', rest) (run r (w ++ rest)).
Proof.
  induction r as [|p|r1 IH1 r2 IH2|r1 IH1 r2 IH2|g p|i r1 IH1|r1 IH1];
    intros w rest c H; simpl in H.
  - destruct H as [-> ->]. exists []. simpl. auto.
  - destruct H as [[a [-> Hp]] ->]. exists []. simpl. rewrite Hp. now left.
  - destruct H as [w1 [w2 [c1 [c2 [-> [-> [S1 S2]]]]]]].
    destruct (IH1 _ _ _ S1) as [c1' H1]. destruct (IH2 _ _ _ S2) as [c2' H2].
    exists (c1' ++ c2'). simpl. rewrite <- app_assoc.
    apply in_flat_map. exists (c1', w2 ++ rest). split; [exact H1|].
    apply in_map_iff. exists (c2', rest). auto.
  - destruct H as [H|H].
    + destruct (IH1 _ _ _ H) as [c' H']. exists c'. simpl. apply in_or_app. auto.
    + destruct (IH2 _ _ _ H) as [c' H']. exists c'. simpl. apply in_or_app. auto.
  - destruct H as [Hw ->]. exists []. simpl. now apply rep_complete.
  - destruct H as [c1 [-> S1]]. destruct (IH1 _ _ _ S1) as [c' H'].
    eexists. simpl. apply in_map_iff. exists (c', rest). split; [reflexivity|exact H'].
  - destruct H as [-> [w' [rest' [-> S1]]]]. destruct (IH1 _ _ _ S1) as [c' H'].
    simpl. destruct (run r1 (w' ++ rest')) as [|m l]; [destruct H'|].
    eexists. now left.
Qed.

Lemma match_here_sound r s c rest :
  match_here r s = Some (c, rest) -> exists w, s = w ++ rest /\ sem r w rest c.
Proof.
  unfold match_here. intros H. apply run_sound.
  destruct (run r s) as [|m l]; [discriminate|].
  simpl in H. injection H as ->. now left.
Qed.

Lemma match_here_complete r w rest c :
  sem r w rest c -> exists m, match_here r (w ++ rest) = Some m.
Proof.
  intros H. destruct (run_complete _ _ _ _ H) as [c' H'].
  unfold match_here. destruct (run r (w ++ rest)) as [|m l]; [destruct H'|].
  exists m. reflexivity.
Qed.

(** Every tuple of [findall] is a match of the pattern somewhere in the text. *)
Lemma findall_from_in r : forall s k m,
  In m (findall_from r s k) ->
  exists pre t rest, s = pre ++ t /\ match_here r t = Some (m, rest).
Proof.
  induction s as [|a s IH]; intros k m H.
  - destruct k; simpl in H; [|destruct H].
    destruct (match_here r []) as [[c rest]|] eqn:E; [|destruct H].
    destruct H as [<-|[]]. exists [], [], rest. auto.
  - destruct k; simpl in H.
    + destruct (match_here r (a :: s)) as [[c rest]|] eqn:E.
      * destruct H as [<-|H].
        -- exists [], (a :: s), rest. auto.
        -- destruct (IH _ _ H) as [pre [t [rest' [-> Ht]]]].
           exists (a :: pre), t, rest'. auto.
      * destruct (IH _ _ H) as [pre [t [rest' [-> Ht]]]].
        exists (a :: pre), t, rest'. auto.
    + destruct (IH _ _ H) as [pre [t [rest' [-> Ht]]]].
      exists (a :: pre), t, rest'. auto.
Qed.

(** [findall] is empty exactly when the pattern matches nowhere. *)
Lemma findall_nil r s :
  findall r s = [] <-> forall pre t, s = pre ++ t -> match_here r t = None.
Proof.
  unfold findall. induction s as [|a s IH]; simpl.
  - split.
    + intros H pre t E. symmetry in E. apply app_eq_nil in E. destruct E as [_ ->].
      destruct (match_here r []) as [[c rest]|]; [discriminate|reflexivity].
    + intros H. rewrite (H [] []); reflexivity.
  - split.
    + intros H pre t E.
      destruct (match_here r (a :: s)) as [[c rest]|] eqn:Em; [discriminate|].
      destruct pre as [|b pre]; simpl in E.
      * now subst t.
      * injection E as _ E. apply (proj1 IH H pre t E).
    + intros H. rewrite (H [] (a :: s) eq_refl).
      apply IH. intros pre t E. apply (H (a :: pre) t). simpl. now rewrite E.
Qed.

Lemma findall_from_skip r w rest :
  findall_from r (w ++ rest) (length w) = findall_from r rest 0.
Proof. induction w as [|a w IH]; [reflexivity | exact IH]. Qed.

Lemma varredura_cons r a s ms :
  match_here r (a :: s) = None -> varredura r s ms -> varredura r (a :: s) ms.
Proof.
  intros Hn Hv. inversion Hv as [s0 Hnone|pre w rest c ms' Hpre Hm Hw Hrest]; subst.
  - apply varredura_fim. intros pre t E. destruct pre as [|b pre]; simpl in E.
    + now subst t.
    + injection E as _ E. eapply Hnone; eassumption.
  - change (a :: pre ++ w ++ rest) with ((a :: pre) ++ w ++ rest).
    apply varredura_achou; try assumption.
    intros p1 p2 E Hp2. destruct p1 as [|b p1]; simpl in E.
    + subst p2. exact Hn.
    + injection E as _ E. eapply Hpre; eassumption.
Qed.

(** [findall] reads the text from left to right, for a pattern whose
    matches consume text. *)
Theorem findall_varredura r :
  (forall t c rest, match_here r t = Some (c, rest) -> length rest < length t) ->
  forall s, varredura r s (findall r s).
Proof.
  intros Hcons s.
  assert (G : forall n s, length s <= n -> varredura r s (findall r s)).
  { clear s. induction n as [|n IH]; intros s Hlen.
    - destruct s; [|simpl in Hlen; lia].
      unfold findall. cbn [findall_from].
      destruct (match_here r []) as [[c rest]|] eqn:E.
      + apply Hcons in E. simpl in E. lia.
      + apply varredura_fim. intros pre t Et. symmetry in Et.
        apply app_eq_nil in Et. destruct Et as [_ ->]. exact E.
    - destruct s as [|a s].
      + apply IH. simpl. lia.
      + unfold findall. cbn [findall_from].
        destruct (match_here r (a :: s)) as [[c rest]|] eqn:E.
        * pose proof (Hcons _ _ _ E) as Hlt.
          destruct (match_here_sound _ _ _ _ E) as [w [Ew _]].
          destruct w as [|a' w].
          { simpl in Ew. rewrite <- Ew in Hlt. lia. }
          simpl in Ew. injection Ew as <- ->.
          replace (length (a :: w ++ rest) - length rest - 1) with (length w)
            by (cbn [length]; rewrite length_app; lia).
          rewrite findall_from_skip.
          apply (varredura_achou r [] (a :: w) rest c).
          -- intros p1 p2 E' Hp2. symmetry in E'. apply app_eq_nil in E'.
             destruct E' as [_ ->]. contradiction.
          -- exact E.
          -- discriminate.
          -- apply IH. cbn [length] in Hlen, Hlt. rewrite length_app in *. lia.
        * apply varredura_cons; [exact E|]. apply IH. simpl in Hlen. lia. }
  apply (G (length s)). lia.
Qed.

Lemma sem_plus g p w rest c :
  sem (plus g p) w rest c <-> (w <> [] /\ forallb p w = true /\ c = []).
Proof.
  unfold plus. simpl. split.
  - intros [w1 [w2 [c1 [c2 [-> [-> [[[a [-> Ha]] ->] [Hw ->]]]]]]]].
    simpl. rewrite Ha, Hw. repeat split; discriminate.
  - intros [Hne [Hw ->]]. destruct w as [|a w]; [contradiction|].
    simpl in Hw. apply andb_true_iff in Hw. destruct Hw as [Ha Hw].
    exists [a], w, [], []. repeat split; eauto.
Qed.

(** Under [re.IGNORECASE] a small ASCII letter of the pattern accepts
    exactly its spellings. *)
Lemma ich_grafias (a x : char) :
  between 97 122 a = true ->
  existsb (is_char (lower_char x)) (lower_char a :: equivalentes (lower_char a))
  = existsb (char_eqb x) (grafias a).
Proof.
  destruct a as [a| | | | | | | | | |]; intros H; try discriminate H.
  destruct a as [[] [] [] [] [] [] [] []]; vm_compute in H; try discriminate H;
    clear H;
    destruct x as [[[] [] [] [] [] [] [] []]| | | | | | | | | |]; reflexivity.
Qed.

Lemma ich_R (r : char) :
  existsb (is_char (lower_char r))
          (lower_char "R"%char :: equivalentes (lower_char "R"%char)) = true
  <-> lower_char r = "r"%char.
Proof.
  change (lower_char "R"%char :: equivalentes (lower_char "R"%char))
    with [Latin "r"].
  cbn [existsb]. rewrite orb_false_r. unfold is_char. apply char_eqb_eq.
Qed.

Lemma sem_iword l :
  forallb (between 97 122) l = true ->
  forall w rest c,
    sem (seq (map ich l)) w rest c <-> (escreve l w /\ c = []).
Proof.
  unfold escreve.
  induction l as [|a l IH]; intros Hl w rest c.
  - simpl. split.
    + intros [-> ->]. split; [constructor | reflexivity].
    + intros [H ->]. inversion H. auto.
  - cbn [forallb] in Hl. apply andb_true_iff in Hl. destruct Hl as [Ha Hl].
    change (seq (map ich (a :: l))) with (Cat (ich a) (seq (map ich l))).
    unfold ich at 1. cbn [sem]. split.
    + intros [w1 [w2 [c1 [c2 [-> [-> [[[x [-> Hx]] ->] H2]]]]]]].
      apply (IH Hl) in H2. destruct H2 as [H2 ->].
      rewrite (ich_grafias a x Ha) in Hx. apply existsb_exists in Hx.
      destruct Hx as [y [Hy Hxy]]. apply char_eqb_eq in Hxy. subst y.
      split; [constructor; assumption | reflexivity].
    + intros [H ->]. inversion H as [|? x ? w' Hx Hw]; subst.
      exists [x], w', [], []. repeat split.
      * exists x. split; [reflexivity|]. rewrite (ich_grafias a x Ha).
        apply existsb_exists. exists x. split; [exact Hx | apply char_eqb_refl].
      * apply (IH Hl). auto.
Qed.

Lemma sem_tipo_re w rest c :
  sem tipo_re w rest c <-> (palavra_chave w /\ c = []).
Proof.
  unfold tipo_re, palavra_chave, palavras_chave. cbn [sem]. unfold iword.
  rewrite !sem_iword by reflexivity.
  split.
  - intros [[H ->]|[[H ->]|[[H ->]|[H ->]]]];
      (split; [eexists; split; [|exact H]; simpl; auto 6 | reflexivity]).
  - intros [[k [[<-|[<-|[<-|[<-|[]]]]] H]] ->]; auto 6.
Qed.

(** The multiple-payment pattern, spelled out: the currency marker,
    white space, the amount, white space, filler without a line break, and
    a spelling of a keyword. *)
Lemma sem_padrao_multiplo w rest c :
  sem padrao_multiplo w rest c <->
  exists r esp1 valor esp2 recheio tipo,
    w = r :: Latin "$" :: esp1 ++ valor ++ esp2 ++ recheio ++ tipo /\
    c = [(1, valor); (2, tipo)] /\
    lower_char r = "r"%char /\
    forallb is_space esp1 = true /\
    valor <> [] /\ forallb valor_char valor = true /\
    forallb is_space esp2 = true /\
    forallb dot recheio = true /\
    palavra_chave tipo.
Proof.
  unfold padrao_multiplo, seq, ch. cbn [fold_right]. unfold ich at 1. split.
  - cbn [sem].
    intros [w1 [w2 [c1 [c2 [-> [-> [[[r [-> Hr]] ->] H]]]]]]].
    destruct H as [w3 [w4 [c3 [c4 [-> [-> [[[d [-> Hd]] ->] H]]]]]]].
    destruct H as [w5 [w6 [c5 [c6 [-> [-> [[He1 ->] H]]]]]]].
    destruct H as [w7 [w8 [c7 [c8 [-> [-> [[c7' [-> Hv]] H]]]]]]].
    destruct H as [w9 [w10 [c9 [c10 [-> [-> [[He2 ->] H]]]]]]].
    destruct H as [w11 [w12 [c11 [c12 [-> [-> [[Hf ->] H]]]]]]].
    destruct H as [w13 [w14 [c13 [c14 [-> [-> [[c13' [-> Ht]] [-> ->]]]]]]]].
    apply (sem_plus true valor_char) in Hv. destruct Hv as [Hne [Hv ->]].
    apply sem_tipo_re in Ht. destruct Ht as [Ht ->].
    apply ich_R in Hr.
    unfold is_char in Hd. apply char_eqb_eq in Hd. subst d.
    exists r, w5, w7, w9, w11, w13. rewrite app_nil_r.
    repeat split; auto.
  - intros [r [esp1 [valor [esp2 [recheio [tipo H]]]]]].
    destruct H as [-> [-> [Hr [He1 [Hne [Hv [He2 [Hf Ht]]]]]]]].
    cbn [sem].
    exists [r], (Latin "$" :: esp1 ++ valor ++ esp2 ++ recheio ++ tipo), [], [(1, valor); (2, tipo)].
    repeat split.
    { exists r. split; [reflexivity|]. apply ich_R. auto. }
    exists [Latin "$"], (esp1 ++ valor ++ esp2 ++ recheio ++ tipo), [], [(1, valor); (2, tipo)].
    repeat split.
    { exists "$"%char. auto. }
    exists esp1, (valor ++ esp2 ++ recheio ++ tipo), [], [(1, valor); (2, tipo)].
    repeat split; auto.
    exists valor, (esp2 ++ recheio ++ tipo), [(1, valor)], [(2, tipo)].
    repeat split.
    { exists []. split; [reflexivity|]. apply (sem_plus true valor_char). auto. }
    exists esp2, (recheio ++ tipo), [], [(2, tipo)].
    repeat split; auto.
    exists recheio, tipo, [], [(2, tipo)].
    repeat split; auto.
    exists tipo, [], [(2, tipo)], [].
    repeat split; auto using app_nil_r.
    { symmetry. apply app_nil_r. }
    exists []. split; [reflexivity|]. apply sem_tipo_re. auto.
Qed.

(** ** Facts about floats *)

Section FloatFacts.

Local Open Scope Z_scope.

Lemma rne_nonneg a b : 0 <= a -> 0 < b -> 0 <= rne a b.
Proof.
  intros Ha Hb. unfold rne.
  assert (0 <= a / b) by (apply Z.div_pos; lia).
  destruct (2 * (a mod b) <? b); [lia|].
  destruct (b <? 2 * (a mod b)); [lia|].
  destruct (Z.even (a / b)); lia.
Qed.

(** [rne a b] is within one half of [a / b]. *)
Lemma rne_error a b : 0 < b -> 2 * Z.abs (rne a b * b - a) <= b.
Proof.
  intros Hb. unfold rne.
  pose proof (Z.div_mod a b ltac:(lia)) as E.
  pose proof (Z.mod_pos_bound a b Hb) as B.
  destruct (2 * (a mod b) <? b) eqn:E1; [apply Z.ltb_lt in E1; nia|].
  apply Z.ltb_ge in E1.
  destruct (b <? 2 * (a mod b)) eqn:E2; [apply Z.ltb_lt in E2; nia|].
  apply Z.ltb_ge in E2.
  destruct (Z.even (a / b)); nia.
Qed.

Lemma nearest_nonneg a b : 0 <= a -> 0 < b -> nonneg (nearest a b).
Proof.
  intros Ha Hb. unfold nearest.
  destruct (a =? 0); [simpl; lia|].
  cbv zeta.
  match goal with |- nonneg (if ?c then _ else _) => destruct c end;
    [exact I|].
  simpl. apply rne_nonneg.
  - apply Z.mul_nonneg_nonneg; [lia|]. apply Z.pow_nonneg. lia.
  - apply Z.mul_pos_pos; [lia|]. apply Z.pow_pos_nonneg; lia.
Qed.

Lemma is_digit_val c : is_digit c = true -> 0 <= digit_val c <= 9.
Proof.
  unfold is_digit, between, digit_val. intros H.
  apply andb_true_iff in H. destruct H as [H1 H2].
  apply N.leb_le in H1, H2. lia.
Qed.

Lemma fold_digits_nonneg s : forall acc,
  0 <= acc -> forallb is_digit s = true ->
  0 <= fold_left (fun a c => 10 * a + digit_val c) s acc.
Proof.
  induction s as [|c s IH]; intros acc Hacc Hs; cbn [fold_left forallb] in *;
    [exact Hacc|].
  apply andb_true_iff in Hs. destruct Hs as [Hc Hs].
  apply IH; [|exact Hs]. pose proof (is_digit_val _ Hc). lia.
Qed.

Lemma digits_val_nonneg s : forallb is_digit s = true -> 0 <= digits_val s.
Proof. intros H. apply fold_digits_nonneg; [lia | exact H]. Qed.

(** [float] never yields a negative value. *)
Lemma float_of_str_nonneg s x : float_of_str s = Some x -> nonneg x.
Proof.
  unfold float_of_str. destruct (cut_point s) as [ip r].
  set (fp := match r with Some t => t | None => [] end).
  destruct (forallb is_digit ip && forallb is_digit fp
            && negb (Nat.eqb (length ip + length fp) 0)) eqn:E; [|discriminate].
  intros H. injection H as <-.
  apply andb_true_iff in E. destruct E as [E _].
  apply andb_true_iff in E. destruct E as [E1 E2].
  apply nearest_nonneg.
  - apply digits_val_nonneg. rewrite forallb_app, E1, E2. reflexivity.
  - apply Z.pow_pos_nonneg; lia.
Qed.

Lemma digit_is_digit d : 0 <= d <= 9 -> is_digit (digit d) = true.
Proof.
  intros H.
  assert (E : d = 0 \/ d = 1 \/ d = 2 \/ d = 3 \/ d = 4 \/ d = 5 \/
              d = 6 \/ d = 7 \/ d = 8 \/ d = 9) by lia.
  repeat (destruct E as [->|E]; [reflexivity|]). subst d. reflexivity.
Qed.

Lemma string_of_uint_digits u :
  forallb is_digit (lit (NilEmpty.string_of_uint u)) = true.
Proof. induction u; simpl; auto. Qed.

Lemma dec_digits n : dec n <> [] /\ forallb is_digit (dec n) = true.
Proof.
  unfold dec, NilZero.string_of_uint.
  destruct (N.to_uint (Z.to_N n)) as [|u|u|u|u|u|u|u|u|u|u] eqn:E;
    (split; [discriminate | try reflexivity]);
    apply (string_of_uint_digits (_ u)).
Qed.

(** The [.2f] rendering of a finite non-negative float has an integer
    part, a point and exactly two decimals. *)
Lemma format_2f_duas_casas m e : 0 <= m -> duas_casas (format_2f (Finite m e)).
Proof.
  intros Hm. unfold format_2f.
  set (c := rne (m * 100 * 2 ^ Z.max 0 e) (2 ^ Z.max 0 (- e))).
  assert (Hc : 0 <= c).
  { apply rne_nonneg.
    - apply Z.mul_nonneg_nonneg; [lia|]. apply Z.pow_nonneg. lia.
    - apply Z.pow_pos_nonneg; lia. }
  destruct (dec_digits (c / 100)) as [Hne Hd].
  exists (dec (c / 100)), (digit (c / 10 mod 10)), (digit (c mod 10)).
  repeat split; auto.
  - apply digit_is_digit.
    pose proof (Z.mod_pos_bound (c / 10) 10 ltac:(lia)). lia.
  - apply digit_is_digit.
    pose proof (Z.mod_pos_bound c 10 ltac:(lia)). lia.
Qed.

End FloatFacts.

(** ** The payment classifier *)

(** A match of the multiple-payment pattern consumes text. *)
Lemma padrao_multiplo_consome s c rest :
  match_here padrao_multiplo s = Some (c, rest) -> length rest < length s.
Proof.
  intros H. apply match_here_sound in H. destruct H as [w [-> H]].
  apply sem_padrao_multiplo in H.
  destruct H as [r [esp1 [valor [esp2 [recheio [tipo [-> _]]]]]]].
  rewrite length_app. cbn [length]. lia.
Qed.

Lemma findall_padrao_multiplo_in obs m :
  In m (findall padrao_multiplo obs) ->
  exists pre valor tipo pos,
    m = [(1, valor); (2, tipo)] /\ palavra_chave tipo /\
    valor <> [] /\ forallb valor_char valor = true /\
    obs = pre ++ tipo ++ pos.
Proof.
  intros H. apply findall_from_in in H.
  destruct H as [pre [t [rest [E H]]]].
  apply match_here_sound in H. destruct H as [w [Ew H]].
  apply sem_padrao_multiplo in H.
  destruct H as [r [esp1 [valor [esp2 [recheio [tipo H]]]]]].
  destruct H as [-> [-> [Hr [He1 [Hne [Hv [He2 [Hf Ht]]]]]]]].
  exists (pre ++ r :: Latin "$" :: esp1 ++ valor ++ esp2 ++ recheio), valor, tipo, rest.
  repeat split; auto.
  rewrite E, Ew. cbn [app]. rewrite <- !app_assoc. cbn [app].
  repeat (rewrite <- ?app_assoc; f_equal).
Qed.

Lemma escreve_escritas k : forall tipo, escreve k tipo -> In tipo (escritas k).
Proof.
  unfold escreve. induction k as [|a k IH]; intros tipo H; inversion H; subst.
  - now left.
  - cbn [escritas]. apply in_flat_map. eexists. split; [eassumption|].
    apply in_map. auto.
Qed.

Lemma rotulo_categoria m :
  palavra_chave (group 2 m) ->
  rotulo (group 2 m) = categoria (group 2 m) /\
  reconhecida m = forallb latina (group 2 m).
Proof.
  intros [k [Hk He]]. apply escreve_escritas in He.
  assert (G : forallb (fun k => forallb rotulo_conforme (escritas k)) palavras_chave
              = true) by (vm_compute; reflexivity).
  rewrite forallb_forall in G. specialize (G k Hk).
  rewrite forallb_forall in G. specialize (G _ He).
  unfold rotulo_conforme in G. unfold reconhecida.
  destruct (rotulo (group 2 m)) as [a|], (categoria (group 2 m)) as [b|];
    try discriminate G.
  - apply andb_true_iff in G. destruct G as [G1 G2]. apply str_eqb_eq in G1.
    subst. auto.
  - apply negb_true_iff in G. auto.
Qed.

Lemma findall_grupo_2 obs m :
  In m (findall padrao_multiplo obs) -> palavra_chave (group 2 m).
Proof.
  intros H. apply findall_padrao_multiplo_in in H.
  destruct H as [pre [valor [tipo [pos [-> [H _]]]]]]. exact H.
Qed.

(** The loop makes the entry of every match the chain takes and passes
    over the others. *)
Lemma laco_pagamentos_ok : forall ms acc,
  (forall m, In m ms -> palavra_chave (group 2 m)) ->
  Forall valor_finito (filter reconhecida ms) ->
  exists es,
    laco_pagamentos ms acc = Ok (acc ++ es) /\
    Forall2 entrada (filter reconhecida ms) es.
Proof.
  induction ms as [|m ms IH]; intros acc Hk Hf.
  - exists []. simpl. rewrite app_nil_r. auto.
  - destruct (rotulo_categoria m) as [Hr _]; [apply Hk; now left|].
    cbn [laco_pagamentos filter] in *. rewrite Hr. unfold reconhecida in *.
    destruct (categoria (group 2 m)) as [cat|] eqn:Hc.
    + inversion Hf as [|? ? [mm [e Hm]] Hf']; subst.
      destruct (IH (acc ++ [cat ++ lit " (R$ " ++ format_2f (Finite mm e) ++ lit ")"]))
        as [es [Hes HF]]; [intros; apply Hk; now right | exact Hf'|].
      exists ((cat ++ lit " (R$ " ++ format_2f (Finite mm e) ++ lit ")") :: es).
      rewrite Hm, Hes, <- app_assoc. split; [reflexivity|].
      constructor; [|exact HF].
      exists cat, (Finite mm e). repeat split; auto.
      apply format_2f_duas_casas.
      exact (float_of_str_nonneg _ _ Hm).
    + apply IH; [intros; apply Hk; now right | exact Hf].
Qed.

Lemma forallb_latina_app a b :
  forallb latina (a ++ b) = forallb latina a && forallb latina b.
Proof. apply forallb_app. Qed.

(** In a text of Latin-1 the chain takes every match. *)
Lemma tomadas_latinas obs :
  forallb latina obs = true -> tomadas obs = findall padrao_multiplo obs.
Proof.
  intros Hl. unfold tomadas.
  apply forallb_filter_id. apply forallb_forall. intros m Hm.
  destruct (rotulo_categoria m (findall_grupo_2 _ _ Hm)) as [_ ->].
  apply findall_padrao_multiplo_in in Hm.
  destruct Hm as [pre [valor [tipo [pos [-> [_ [_ [_ E]]]]]]]].
  cbn [group Nat.eqb]. rewrite E, !forallb_app in Hl.
  apply andb_true_iff in Hl. destruct Hl as [_ Hl].
  apply andb_true_iff in Hl. tauto.
Qed.

(** C1 (as amended): when the amount of every match that the [if]/[elif]
    chain takes converts to a finite float, the classifier returns the
    entries ["<Category> (R$ <amount>)"] of the matches taken, one per
    match and in the order of the matches, joined by [", "], each amount
    with exactly two decimals, and the keyword rules play no part in the
    result; the matches are the non-overlapping ones met from left to
    right in the text.  The chain takes a match exactly when its keyword
    is spelled in Latin-1, which is every match of a text in Latin-1; a
    match it does not take gives no entry, and when it takes none the
    keyword rules answer. *)
Theorem formatar_pagamentos_multiplos obs :
  Forall valor_finito (tomadas obs) ->
  varredura padrao_multiplo obs (findall padrao_multiplo obs) /\
  (forall m, In m (findall padrao_multiplo obs) ->
     palavra_chave (group 2 m) /\ reconhecida m = forallb latina (group 2 m)) /\
  (forallb latina obs = true -> tomadas obs = findall padrao_multiplo obs) /\
  exists entradas,
    Forall2 entrada (tomadas obs) entradas /\
    (tomadas obs <> [] ->
     formatar_meio_de_pagamento obs = Ok (join (lit ", ") entradas) /\
     forall regras, classificar regras obs = Ok (join (lit ", ") entradas)) /\
    (tomadas obs = [] ->
     formatar_meio_de_pagamento obs = Ok (pagamento_unico obs)).
Proof.
  intros Hf.
  split; [apply findall_varredura; exact padrao_multiplo_consome|].
  split.
  { intros m Hm. pose proof (findall_grupo_2 _ _ Hm) as Hp.
    split; [exact Hp | apply (rotulo_categoria m Hp)]. }
  split; [apply tomadas_latinas|].
  destruct (laco_pagamentos_ok (findall padrao_multiplo obs) []
              (findall_grupo_2 obs) Hf) as [es [Hes HF]].
  exists es. split; [exact HF|].
  fold (tomadas obs) in HF.
  assert (G : forall regras,
             classificar regras obs
             = Ok (match es with [] => regras obs | _ => join (lit ", ") es end)).
  { intros regras. unfold classificar. rewrite Hes. simpl app.
    destruct es; reflexivity. }
  split.
  - intros Hne.
    destruct es as [|e es]; [inversion HF as [E|]; congruence|].
    split; [apply G | exact G].
  - intros E. rewrite E in HF. inversion HF; subst. apply G.
Qed.

Lemma formatar_pagamentos_multiplos_witness :
  let obs := lit "R$ 5,00 p" ++ [i_sem_pingo] ++
             lit "x, R$ 125,00 no dinheiro e R$ 1.050,5 no Master" in
  length (findall padrao_multiplo obs) = 3 /\
  Forall valor_finito (tomadas obs) /\
  exists entradas,
    Forall2 entrada (tomadas obs) entradas /\
    formatar_meio_de_pagamento obs = Ok (join (lit ", ") entradas) /\
    join (lit ", ") entradas
      = lit "Dinheiro (R$ 125.00), " ++ Cartao_de_Credito ++ lit " (R$ 1050.50)".
Proof.
  intros obs.
  assert (Hf : Forall valor_finito (tomadas obs)).
  { vm_compute tomadas. repeat constructor; eexists; eexists; vm_compute; reflexivity. }
  split; [vm_compute; reflexivity|]. split; [exact Hf|].
  destruct (formatar_pagamentos_multiplos obs Hf) as [_ [_ [_ [es [HF [H _]]]]]].
  assert (Hne : tomadas obs <> []) by (vm_compute; discriminate).
  destruct (H Hne) as [H1 _].
  exists es. split; [exact HF|]. split; [exact H1|].
  assert (H2 : formatar_meio_de_pagamento obs
               = Ok (lit "Dinheiro (R$ 125.00), " ++ Cartao_de_Credito
                     ++ lit " (R$ 1050.50)")) by (vm_compute; reflexivity).
  rewrite H1 in H2. injection H2 as H2. exact H2.
Defined.

(** C1, counterexample: the pattern matches, yet the classifier raises on
    an amount with two separators, renders an amount beyond the float
    range without decimals, and makes no entry for a keyword written with
    a long s, which the pattern accepts and the chain does not: there the
    keyword rules answer. *)
Lemma formatar_pagamentos_multiplos_counterexample :
  findall padrao_multiplo (lit "R$ 1,2,3 dinheiro")
    = [[(1, lit "1,2,3"); (2, lit "dinheiro")]] /\
  formatar_meio_de_pagamento (lit "R$ 1,2,3 dinheiro")
    = Raise (ValueError (lit "1.2.3")) /\
  formatar_meio_de_pagamento (lit "R$ " ++ repeat (Latin "9") 310 ++ lit " pix")
    = Ok (lit "PIX (R$ inf)") /\
  findall padrao_multiplo (lit "R$ 10,00 ma" ++ [s_longo] ++ lit "ter")
    = [[(1, lit "10,00"); (2, lit "ma" ++ [s_longo] ++ lit "ter")]] /\
  formatar_meio_de_pagamento (lit "R$ 10,00 ma" ++ [s_longo] ++ lit "ter")
    = Ok Nao_Especificado.
Proof. vm_compute. auto 6. Qed.

(** The keyword rules of the code are the priority list. *)
Lemma pagamento_unico_primeira_regra obs : pagamento_unico obs = primeira_regra obs.
Proof.
  unfold pagamento_unico, primeira_regra, regras_de_palavra_chave.
  cbn [find existsb fst snd].
  destruct (contains (lit "link de pagamento") (lower obs)); [reflexivity|].
  destruct (contains (lit "elo") (lower obs)); [reflexivity|].
  destruct (contains (lit "a receber") (lower obs)); [reflexivity|].
  destruct (contains (lit "pix") (lower obs)); [reflexivity|].
  destruct (contains (lit "dinheiro") (lower obs)); reflexivity.
Qed.

Lemma primeira_regra_nao_vazia obs : primeira_regra obs <> [].
Proof.
  rewrite <- pagamento_unico_primeira_regra. unfold pagamento_unico.
  repeat match goal with |- (if ?b then _ else _) <> _ => destruct b end;
    discriminate.
Qed.

Lemma laco_pagamentos_nao_vazios : forall ms acc l,
  Forall (fun e => e <> []) acc ->
  laco_pagamentos ms acc = Ok l -> Forall (fun e => e <> []) l.
Proof.
  induction ms as [|m ms IH]; intros acc l Hacc H; cbn [laco_pagamentos] in H.
  - injection H as <-. exact Hacc.
  - destruct (rotulo (group 2 m)) as [r|]; [|exact (IH _ _ Hacc H)].
    destruct (float_of_str (valor_formatado (group 1 m))) as [x|]; [|discriminate].
    refine (IH _ _ _ H).
    apply Forall_app. split; [exact Hacc|].
    constructor; [|constructor]. destruct r; discriminate.
Qed.

Lemma classificar_sem_multiplos regras obs :
  findall padrao_multiplo obs = [] -> classificar regras obs = Ok (regras obs).
Proof. intros H. unfold classificar. rewrite H. reflexivity. Qed.

(** C2: when the multiple-payment pattern matches nowhere, the classifier
    returns the description of the first keyword rule that applies, in the
    order link de pagamento, elo, a receber or pix, dinheiro, and the
    sentinel when none does; that description is never empty, and neither
    is any other description the classifier returns. *)
Theorem formatar_pagamento_unico obs :
  (findall padrao_multiplo obs = [] ->
   formatar_meio_de_pagamento obs = Ok (primeira_regra obs)) /\
  primeira_regra obs <> [] /\
  (forall r, formatar_meio_de_pagamento obs = Ok r -> r <> []).
Proof.
  split; [|split].
  - intros H. unfold formatar_meio_de_pagamento.
    rewrite (classificar_sem_multiplos _ _ H).
    now rewrite pagamento_unico_primeira_regra.
  - apply primeira_regra_nao_vazia.
  - intros r. unfold formatar_meio_de_pagamento, classificar.
    destruct (laco_pagamentos (findall padrao_multiplo obs) []) as [l|e] eqn:E;
      [|discriminate].
    apply laco_pagamentos_nao_vazios in E; [|constructor].
    destruct l as [|p ps]; intros H; injection H as <-.
    + rewrite pagamento_unico_primeira_regra. apply primeira_regra_nao_vazia.
    + inversion E as [|? ? Hp _]; subst.
      destruct p; [contradiction|]. destruct ps; discriminate.
Qed.

Lemma formatar_pagamento_unico_witness :
  findall padrao_multiplo (lit "pago em Dinheiro") = [] /\
  formatar_meio_de_pagamento (lit "pago em Dinheiro") = Ok Dinheiro.
Proof.
  assert (H : findall padrao_multiplo (lit "pago em Dinheiro") = [])
    by (vm_compute; reflexivity).
  split; [exact H|].
  exact (proj1 (formatar_pagamento_unico (lit "pago em Dinheiro")) H).
Defined.

Lemma par_na_mesma_linha_findall obs :
  findall padrao_multiplo obs <> [] <-> par_na_mesma_linha obs.
Proof.
  split.
  - intros Hne. destruct (findall padrao_multiplo obs) as [|m ms] eqn:E;
      [contradiction|].
    assert (Hin : In m (findall padrao_multiplo obs)) by (rewrite E; now left).
    apply findall_from_in in Hin. destruct Hin as [pre [t [rest [-> H]]]].
    apply match_here_sound in H. destruct H as [w [-> H]].
    apply sem_padrao_multiplo in H.
    destruct H as [r [esp1 [valor [esp2 [recheio [tipo [-> H]]]]]]].
    exists pre, r, esp1, valor, esp2, recheio, tipo, rest. intuition.
  - intros [antes [r [esp1 [valor [esp2 [recheio [tipo [depois [-> H]]]]]]]]] Hnil.
    assert (S : sem padrao_multiplo
                  (r :: Latin "$" :: esp1 ++ valor ++ esp2 ++ recheio ++ tipo)
                  depois [(1, valor); (2, tipo)]).
    { apply sem_padrao_multiplo.
      exists r, esp1, valor, esp2, recheio, tipo. intuition. }
    apply match_here_complete in S. destruct S as [m Hm].
    rewrite (proj1 (findall_nil _ _) Hnil antes _ eq_refl) in Hm. discriminate.
Qed.

(** C10 (as amended): the multiple-payment pattern finds something exactly
    when the text holds, in this order, the currency marker, white space,
    an amount, white space, filler without a line break and a keyword;
    line breaks in either run of white space do not prevent the match.
    Without such a sequence the classifier returns the description of the
    keyword rules. *)
Theorem multiplos_na_mesma_linha obs :
  (findall padrao_multiplo obs <> [] <-> par_na_mesma_linha obs) /\
  (~ par_na_mesma_linha obs ->
   formatar_meio_de_pagamento obs = Ok (pagamento_unico obs)).
Proof.
  split; [apply par_na_mesma_linha_findall|].
  intros Hn. apply classificar_sem_multiplos.
  destruct (findall padrao_multiplo obs) as [|m ms] eqn:E; [reflexivity|].
  exfalso. apply Hn. apply par_na_mesma_linha_findall. rewrite E. discriminate.
Qed.

Lemma multiplos_na_mesma_linha_witness :
  let obs := lit "R$ 10,00 em" ++ [nl] ++ lit "dinheiro" in
  ~ par_na_mesma_linha obs /\
  formatar_meio_de_pagamento obs = Ok Dinheiro.
Proof.
  intros obs.
  destruct (multiplos_na_mesma_linha obs) as [Hiff Hregras].
  assert (Hn : ~ par_na_mesma_linha obs).
  { intros Hp. apply Hiff in Hp. apply Hp. vm_compute. reflexivity. }
  split; [exact Hn|]. rewrite (Hregras Hn). vm_compute. reflexivity.
Defined.

(** C10, counterexample: the amount and the keyword stand on different
    lines, nothing but the line break between them, and the pattern
    matches. *)
Lemma multiplos_na_mesma_linha_counterexample :
  let linha1 := lit "R$ 10,00" in
  let linha2 := lit "dinheiro" in
  findall padrao_multiplo linha1 = [] /\
  findall padrao_multiplo linha2 = [] /\
  findall padrao_multiplo (linha1 ++ [nl] ++ linha2)
    = [[(1, lit "10,00"); (2, lit "dinheiro")]] /\
  formatar_meio_de_pagamento (linha1 ++ [nl] ++ linha2)
    = Ok (lit "Dinheiro (R$ 10.00)").
Proof. vm_compute. auto. Qed.

(** ** The split into blocks *)

Lemma match_here_padrao_quebra s :
  match_here padrao_quebra s =
  match s with
  | c :: s' => if is_char nl c && cabecalho s' then Some ([], s') else None
  | [] => None
  end.
Proof.
  destruct s as [|c s]; [reflexivity|].
  unfold match_here, padrao_quebra, ch, times4, seq.
  cbn [run fold_right flat_map].
  destruct (is_char nl c); [|reflexivity].
  cbn [flat_map app snd fst map andb].
  destruct s as [|d1 [|d2 [|d3 [|d4 [|e s]]]]]; cbn [cabecalho];
    repeat match goal with
           | |- context [is_digit ?d] =>
               destruct (is_digit d); cbn [flat_map app snd fst map andb]
           end;
    try reflexivity.
  destruct (is_space e); reflexivity.
Qed.

Lemma split_from_padrao_quebra c s cur :
  split_from padrao_quebra (c :: s) 0 cur =
  if is_char nl c && cabecalho s
  then cur :: split_from padrao_quebra s 0 []
  else split_from padrao_quebra s 0 (cur ++ [c]).
Proof.
  cbn [split_from]. rewrite match_here_padrao_quebra.
  destruct (is_char nl c && cabecalho s); [|reflexivity].
  replace (length (c :: s) - length s) with 1 by (cbn [length]; lia).
  reflexivity.
Qed.

Lemma split_from_primeiro : forall s cur,
  exists bs, split_from padrao_quebra s 0 cur = (cur ++ ate_quebra s) :: bs.
Proof.
  induction s as [|c s IH]; intros cur.
  - exists []. simpl. now rewrite app_nil_r.
  - rewrite split_from_padrao_quebra. cbn [ate_quebra].
    destruct (is_char nl c && cabecalho s).
    + eexists. rewrite app_nil_r. reflexivity.
    + destruct (IH (cur ++ [c])) as [bs ->].
      exists bs. now rewrite <- app_assoc.
Qed.

Lemma split_from_length : forall s cur,
  length (split_from padrao_quebra s 0 cur) = 1 + quebras s.
Proof.
  induction s as [|c s IH]; intros cur; [reflexivity|].
  rewrite split_from_padrao_quebra. cbn [quebras].
  destruct (is_char nl c && cabecalho s); simpl; rewrite IH; reflexivity.
Qed.

Lemma split_from_join : forall s cur,
  join [nl] (split_from padrao_quebra s 0 cur) = cur ++ s.
Proof.
  induction s as [|c s IH]; intros cur.
  - simpl. now rewrite app_nil_r.
  - rewrite split_from_padrao_quebra.
    destruct (is_char nl c && cabecalho s) eqn:E.
    + apply andb_true_iff in E. destruct E as [E _].
      unfold is_char in E. apply char_eqb_eq in E. subst c.
      destruct (split_from_primeiro s []) as [bs Hbs].
      specialize (IH []). rewrite Hbs in *. rewrite join_cons.
      exact (f_equal (fun t => cur ++ nl :: t) IH).
    + rewrite IH. now rewrite <- app_assoc.
Qed.

Lemma is_digit_not_nl d : is_digit d = true -> is_char nl d = false.
Proof.
  unfold is_char. intros H. destruct (char_eqb_spec nl d) as [<-|]; [|reflexivity].
  discriminate.
Qed.

Lemma ate_quebra_cabecalho s :
  cabecalho s = true -> comeca_com_pedido (ate_quebra s) = true.
Proof.
  destruct s as [|d1 [|d2 [|d3 [|d4 [|e s]]]]]; try discriminate.
  cbn [cabecalho]. intros H.
  apply andb_true_iff in H. destruct H as [H He].
  apply andb_true_iff in H. destruct H as [H H4].
  apply andb_true_iff in H. destruct H as [H H3].
  apply andb_true_iff in H. destruct H as [H1 H2].
  cbn [ate_quebra].
  rewrite (is_digit_not_nl _ H1), (is_digit_not_nl _ H2),
          (is_digit_not_nl _ H3), (is_digit_not_nl _ H4).
  cbn [andb comeca_com_pedido]. rewrite H1, H2, H3, H4. cbn [andb].
  destruct (is_char nl e && cabecalho s); [reflexivity | exact He].
Qed.

Lemma split_from_resto : forall s cur,
  Forall (fun b => comeca_com_pedido b = true)
         (tl (split_from padrao_quebra s 0 cur)).
Proof.
  induction s as [|c s IH]; intros cur; [constructor|].
  rewrite split_from_padrao_quebra.
  destruct (is_char nl c && cabecalho s) eqn:E; [|apply IH].
  apply andb_true_iff in E. destruct E as [_ E].
  cbn [tl]. specialize (IH []).
  destruct (split_from_primeiro s []) as [bs Hbs]. rewrite Hbs in *.
  constructor; [|exact IH].
  now apply ate_quebra_cabecalho.
Qed.

(** C4 (as amended): the split puts each order token at the start of the
    block that follows the break, and gives one block more than there are
    line breaks followed by a header: as many blocks as headers when the
    text begins with a header, one more otherwise (the text before the
    first header, possibly empty, is a block of its own).  Joined by line
    breaks the blocks give the text back. *)
Theorem blocos_por_cabecalho texto :
  length (blocos_transacao texto)
    = cabecalhos texto + (if cabecalho texto then 0 else 1) /\
  Forall (fun b => comeca_com_pedido b = true) (tl (blocos_transacao texto)) /\
  join [nl] (blocos_transacao texto) = texto.
Proof.
  unfold blocos_transacao, split, cabecalhos. repeat split.
  - rewrite split_from_length. destruct (cabecalho texto); lia.
  - apply split_from_resto.
  - apply split_from_join.
Qed.

(** C4, counterexample: a text with one transaction header splits into two
    blocks, and the empty text, with none, into one. *)
Lemma blocos_por_cabecalho_counterexample :
  let texto := lit "Vendas do dia" ++ [nl] ++ lit "0001 01/01/2024" in
  cabecalhos texto = 1 /\
  blocos_transacao texto = [lit "Vendas do dia"; lit "0001 01/01/2024"] /\
  cabecalhos [] = 0 /\ blocos_transacao [] = [[]].
Proof. vm_compute. auto. Qed.

(** ** The aggregator *)

(** The claim's example: three occurrences against one. *)
Lemma mais_frequente_exemplo :
  encontrar_pagamento_mais_frequente
    [Dinheiro; Cartao_de_Credito ++ lit ", " ++ Dinheiro; Dinheiro] = Dinheiro /\
  Counter (flat_map tipos_do_item
             [Dinheiro; Cartao_de_Credito ++ lit ", " ++ Dinheiro; Dinheiro])
    = [(Dinheiro, 3); (Cartao_de_Credito, 1)] /\
  encontrar_pagamento_mais_frequente [] = Nenhum.
Proof. vm_compute. auto. Qed.

Lemma sem_padrao_tipos w rest c :
  sem padrao_tipos w rest c ->
  c = [(1, w)] /\ w <> [] /\ forallb tipo_char w = true.
Proof.
  unfold padrao_tipos. cbn [sem]. intros [c1 [-> H]].
  apply (sem_plus true tipo_char) in H. destruct H as [Hne [Hw ->]]. auto.
Qed.

Lemma in_lstrip x s : In x (lstrip s) -> In x s.
Proof.
  induction s as [|c s IH]; cbn [lstrip]; [auto|].
  destruct (is_space c); [right; auto | auto].
Qed.

Lemma in_strip x s : In x (strip s) -> In x s.
Proof.
  unfold strip, rstrip. intros H.
  apply in_rev, in_lstrip, in_rev in H. now apply in_lstrip.
Qed.

Lemma in_replace_vazio x c s : In x (replace c [] s) -> In x s.
Proof.
  unfold replace. intros H. apply in_flat_map in H.
  destruct H as [y [Hy H]]. destruct (char_eqb c y); [destruct H|].
  destruct H as [<-|[]]. exact Hy.
Qed.

(** The test ['R$' not in tipo_limpo] never rejects a token: the pattern
    of the tokens has no ['$'] in its class. *)
Lemma guarda_do_marcador_sem_efeito item m :
  In m (findall padrao_tipos item) ->
  contains (lit "R$")
    (strip (replace ")"%char [] (replace "("%char [] (strip (group 1 m))))) = false.
Proof.
  intros H. apply findall_from_in in H. destruct H as [pre [t [rest [_ H]]]].
  apply match_here_sound in H. destruct H as [w [_ H]].
  apply sem_padrao_tipos in H. destruct H as [-> [_ Hw]].
  cbn [group Nat.eqb].
  destruct (contains (lit "R$") _) eqn:E; [|reflexivity].
  apply contains_iff in E. destruct E as [a [b E]].
  assert (Hin : In (Latin "$") w).
  { apply in_strip, (in_replace_vazio _ "("%char), (in_replace_vazio _ ")"%char),
          in_strip.
    rewrite E. apply in_or_app. right. right. now left. }
  rewrite forallb_forall in Hw. apply Hw in Hin. discriminate.
Qed.

(** [most_common(1)] gives a greatest count. *)
Lemma max_first_max : forall cnt best x,
  In x (best :: cnt) -> snd x <= snd (max_first best cnt).
Proof.
  induction cnt as [|y cnt IH]; intros best x Hx; cbn [max_first].
  - destruct Hx as [<-|[]]. lia.
  - destruct (snd best <? snd y) eqn:E.
    + apply Nat.ltb_lt in E. destruct Hx as [<-|[<-|Hx]].
      * specialize (IH y y (or_introl eq_refl)). lia.
      * apply IH. now left.
      * apply IH. now right.
    + apply Nat.ltb_ge in E. destruct Hx as [<-|[<-|Hx]].
      * apply IH. now left.
      * specialize (IH best best (or_introl eq_refl)). lia.
      * apply IH. now right.
Qed.

(** C3, at a description of two payments: the runs next to the currency
    marker are not discarded, the letter of the marker is counted once
    per payment and wins; and a letter outside the class cuts a category
    in two. *)
Theorem mais_frequente_conta_marcador :
  tipos_do_item (lit "Dinheiro (R$ 10.00), PIX (R$ 5.00)")
    = [lit "Dinheiro"; lit "R"; lit "PIX"; lit "R"] /\
  encontrar_pagamento_mais_frequente [lit "Dinheiro (R$ 10.00), PIX (R$ 5.00)"]
    = lit "R" /\
  encontrar_pagamento_mais_frequente [Transferencia_PIX] = lit "Transfer".
Proof. vm_compute. auto. Qed.

(** ** The parser of one block *)

Lemma search_sound r : forall s g rest,
  search r s = Some (g, rest) ->
  exists pre t, s = pre ++ t /\ match_here r t = Some (g, rest).
Proof.
  induction s as [|a s IH]; intros g rest H; simpl in H.
  - destruct (match_here r []) as [m|] eqn:E; [|discriminate].
    injection H as ->. exists [], []. auto.
  - destruct (match_here r (a :: s)) as [m|] eqn:E.
    + injection H as ->. exists [], (a :: s). auto.
    + destruct (IH _ _ H) as [pre [t [-> Ht]]]. exists (a :: pre), t. auto.
Qed.

(** What a record says about the block it was made from. *)
Lemma processar_bloco_registro bloco t :
  processar_bloco bloco = Ok (Some t) ->
  exists g rest,
    search padrao_transacao bloco = Some (g, rest) /\
    contains (lit "abertura de caixa") (lower (strip (group 3 g))) = false /\
    float_of_str (valor_venda_str (group 4 g)) = Some (valor_total t) /\
    formatar_meio_de_pagamento (strip (group 5 g)) = Ok (meio_de_pagamento t) /\
    numero_do_pedido t = strip (group 1 g) /\
    data t = strip (group 2 g) /\
    nome_do_cliente t = strip (group 3 g).
Proof.
  unfold processar_bloco.
  destruct (search padrao_transacao bloco) as [[g rest]|]; [|discriminate].
  destruct (contains (lit "abertura de caixa") (lower (strip (group 3 g)))) eqn:Ec;
    [discriminate|].
  destruct (float_of_str (valor_venda_str (group 4 g))) as [v|] eqn:Ev;
    [|discriminate].
  destruct (formatar_meio_de_pagamento (strip (group 5 g))) as [p|e] eqn:Ep;
    [|discriminate].
  intros H. injection H as <-. exists g, rest. cbn.
  repeat split; reflexivity || assumption.
Qed.

Section Rounding.

Local Open Scope Z_scope.

(** [float] rounds to the nearest: the result is within half a unit of
    its last place of the quotient. *)
Lemma nearest_arredonda a b m e :
  0 < b -> nearest a b = Finite m e -> arredonda (Finite m e) a b.
Proof.
  intros Hb. unfold nearest.
  destruct (a =? 0) eqn:Ea.
  - intros H. injection H as <- <-. apply Z.eqb_eq in Ea. subst a.
    simpl. lia.
  - cbv zeta.
    match goal with |- (if ?c then _ else _) = _ -> _ => destruct c end;
      [discriminate|].
    intros H. injection H as <- <-. unfold arredonda.
    apply rne_error. apply Z.mul_pos_pos; [lia|]. apply Z.pow_pos_nonneg; lia.
Qed.

End Rounding.

(** C5: the total is converted by taking the points out and turning the
    comma into a point, then by [float]: ["1.234,56"] becomes the float
    nearest to 1234.56, which prints as 1234.56, and ["50,00"] becomes 50;
    the total of every record is the float of the converted text of group
    4, and it is not negative. *)
Theorem valor_total_convertido :
  (valor_venda_str (lit "1.234,56") = lit "1234.56" /\
   exists x, float_of_str (valor_venda_str (lit "1.234,56")) = Some x /\
             arredonda x 123456 100 /\ format_2f x = lit "1234.56") /\
  (valor_venda_str (lit "50,00") = lit "50.00" /\
   exists x, float_of_str (valor_venda_str (lit "50,00")) = Some x /\ vale x 50) /\
  (forall bloco t,
     processar_bloco bloco = Ok (Some t) ->
     exists g rest,
       search padrao_transacao bloco = Some (g, rest) /\
       float_of_str (valor_venda_str (group 4 g)) = Some (valor_total t) /\
       nonneg (valor_total t)).
Proof.
  split; [|split].
  - split; [reflexivity|].
    exists (Finite 5429652300748554 (-42)).
    split; [vm_compute; reflexivity|]. split; [|vm_compute; reflexivity].
    apply nearest_arredonda; [reflexivity | vm_compute; reflexivity].
  - split; [reflexivity|].
    exists (Finite 7036874417766400 (-47)).
    split; vm_compute; reflexivity.
  - intros bloco t H. apply processar_bloco_registro in H.
    destruct H as [g [rest [Hs [_ [Hv _]]]]].
    exists g, rest. repeat split; auto.
    exact (float_of_str_nonneg _ _ Hv).
Qed.

Lemma valor_total_convertido_witness :
  let bloco := lit "0001 01/01/2024 10:00 Fulano de Tal R$ 617,28 R$ 1.234,56 pix" in
  let t := Transacao (lit "0001") (lit "01/01/2024") (lit "Fulano de Tal")
             (Finite 5429652300748554 (-42)) Transferencia_PIX in
  processar_bloco bloco = Ok (Some t) /\
  exists g rest,
    search padrao_transacao bloco = Some (g, rest) /\
    float_of_str (valor_venda_str (group 4 g)) = Some (valor_total t) /\
    nonneg (valor_total t).
Proof.
  intros bloco t.
  assert (H : processar_bloco bloco = Ok (Some t)) by (vm_compute; reflexivity).
  split; [exact H|].
  exact (proj2 (proj2 valor_total_convertido) bloco t H).
Defined.

(** C6: a block that fits the pattern and whose customer text holds
    "abertura de caixa" in any letter case, or is that phrase, gives no
    record and no exception: the loop goes on to the next block with the
    list as it was. *)
Theorem abertura_de_caixa_sem_registro bloco g rest :
  search padrao_transacao bloco = Some (g, rest) ->
  menciona_abertura (strip (group 3 g)) ->
  processar_bloco bloco = Ok None /\
  forall blocos lista,
    processar_blocos (bloco :: blocos) lista = processar_blocos blocos lista.
Proof.
  intros Hs [a [b Hm]].
  assert (H : processar_bloco bloco = Ok None).
  { unfold processar_bloco. rewrite Hs.
    replace (contains (lit "abertura de caixa") (lower (strip (group 3 g))))
      with true; [reflexivity|].
    symmetry. apply contains_iff. eauto. }
  split; [exact H|]. intros blocos lista. cbn [processar_blocos]. now rewrite H.
Qed.

Lemma abertura_de_caixa_sem_registro_witness :
  let bloco := lit "0002 02/01/2024 08:00 Abertura de CAIXA R$ 0,00 R$ 0,00" in
  exists g rest,
    search padrao_transacao bloco = Some (g, rest) /\
    lower (strip (group 3 g)) = lit "abertura de caixa" /\
    processar_bloco bloco = Ok None.
Proof.
  intros bloco.
  destruct (search padrao_transacao bloco) as [[g rest]|] eqn:E;
    [|vm_compute in E; discriminate].
  assert (Hc : lower (strip (group 3 g)) = lit "abertura de caixa").
  { vm_compute in E. injection E as <- _. vm_compute. reflexivity. }
  exists g, rest. split; [reflexivity|]. split; [exact Hc|].
  refine (proj1 (abertura_de_caixa_sem_registro bloco g rest E _)).
  exists [], []. rewrite Hc. reflexivity.
Defined.

(** No record of the list ever names a drawer opening. *)
Lemma registros_sem_abertura : forall blocos lista,
  Forall (fun t => contains (lit "abertura de caixa") (lower (nome_do_cliente t)) = false)
         lista ->
  Forall (fun t => contains (lit "abertura de caixa") (lower (nome_do_cliente t)) = false)
         (fst (processar_blocos blocos lista)).
Proof.
  induction blocos as [|b blocos IH]; intros lista Hl; cbn [processar_blocos].
  - exact Hl.
  - destruct (processar_bloco b) as [[t|]|e] eqn:E; [| now apply IH | exact Hl].
    apply IH. apply Forall_app. split; [exact Hl|].
    constructor; [|constructor].
    apply processar_bloco_registro in E.
    destruct E as [g [rest [_ [Hc [_ [_ [_ [_ Hn]]]]]]]]. now rewrite Hn.
Qed.

(** ** Files and errors *)

(** The loop over the blocks only ever appends to the list it is given. *)
Lemma processar_blocos_acumula : forall blocos lista,
  processar_blocos blocos lista =
  (lista ++ fst (processar_blocos blocos []), snd (processar_blocos blocos [])).
Proof.
  induction blocos as [|b blocos IH]; intros lista; cbn [processar_blocos].
  - simpl. now rewrite app_nil_r.
  - destruct (processar_bloco b) as [[t|]|e].
    + rewrite (IH (lista ++ [t])), (IH ([] ++ [t])). simpl.
      now rewrite <- app_assoc.
    + apply IH.
    + simpl. now rewrite app_nil_r.
Qed.

Lemma processar_arquivo_acumula a lista :
  processar_arquivo a lista =
  (lista ++ fst (processar_arquivo a []), snd (processar_arquivo a [])).
Proof.
  destruct a as [causa|paginas]; simpl.
  - now rewrite app_nil_r.
  - apply processar_blocos_acumula.
Qed.

Lemma laco_arquivos_por_arquivo : forall arquivos lista saida,
  laco_arquivos arquivos lista saida =
  (lista ++ flat_map registros_de arquivos, saida ++ flat_map eventos_de arquivos).
Proof.
  induction arquivos as [|[nome a] arquivos IH]; intros lista saida.
  - simpl. now rewrite !app_nil_r.
  - cbn [laco_arquivos flat_map registros_de eventos_de].
    destruct (eh_pdf nome).
    + rewrite (processar_arquivo_acumula a lista).
      destruct (snd (processar_arquivo a [])) as [e|];
        rewrite IH, <- !app_assoc; reflexivity.
    + apply IH.
Qed.

(** C7: without the directory nothing is read and there is no list of
    records, only the message; with it there is always a list, made of
    what each PDF file contributes on its own, in directory order: a file
    that raises contributes the records appended before the exception and
    a message with its name and the cause, and takes nothing away from the
    files before and after it. *)
Theorem extrair_erros_por_arquivo pasta :
  extrair_dados_dos_pdfs pasta None = (None, [ErroPasta pasta]) /\
  forall arquivos,
    extrair_dados_dos_pdfs pasta (Some arquivos)
      = (Some (flat_map registros_de arquivos), flat_map eventos_de arquivos) /\
    forall antes nome a depois e,
      arquivos = antes ++ (nome, a) :: depois ->
      eh_pdf nome = true ->
      snd (processar_arquivo a []) = Some e ->
      flat_map registros_de arquivos
        = flat_map registros_de antes ++ fst (processar_arquivo a [])
          ++ flat_map registros_de depois /\
      flat_map eventos_de arquivos
        = flat_map eventos_de antes
          ++ [Processando nome; ErroArquivo nome e]
          ++ flat_map eventos_de depois.
Proof.
  split; [reflexivity|]. intros arquivos. split.
  - unfold extrair_dados_dos_pdfs. rewrite laco_arquivos_por_arquivo. reflexivity.
  - intros antes nome a depois e -> Hpdf He.
    rewrite !flat_map_app. cbn [flat_map registros_de eventos_de].
    rewrite Hpdf, He. split; reflexivity.
Qed.

Lemma extrair_erros_por_arquivo_witness :
  let bom1 := Pdf [Some (lit "0001 01/01/2024 10:00 Ana R$ 5,00 R$ 50,00 pix")] in
  let bom2 := Pdf [Some (lit "0003 03/01/2024 10:00 Rui R$ 7,00 R$ 70,00 dinheiro")] in
  let arquivos := [(lit "a.pdf", bom1); (lit "b.PDF", Ilegivel (lit "EOF"));
                   (lit "c.pdf", bom2)] in
  snd (processar_arquivo (Ilegivel (lit "EOF")) []) = Some (ReaderError (lit "EOF")) /\
  fst (extrair_dados_dos_pdfs (lit "PDF") (Some arquivos))
    = Some (fst (processar_arquivo bom1 []) ++ fst (processar_arquivo bom2 [])) /\
  flat_map eventos_de arquivos
    = [Processando (lit "a.pdf"); Processando (lit "b.PDF");
       ErroArquivo (lit "b.PDF") (ReaderError (lit "EOF"));
       Processando (lit "c.pdf")].
Proof.
  intros bom1 bom2 arquivos.
  destruct (extrair_erros_por_arquivo (lit "PDF")) as [_ H].
  destruct (H arquivos) as [Hex Hfail].
  destruct (Hfail [(lit "a.pdf", bom1)] (lit "b.PDF") (Ilegivel (lit "EOF"))
              [(lit "c.pdf", bom2)] (ReaderError (lit "EOF")) eq_refl eq_refl eq_refl)
    as [Hr He].
  split; [reflexivity|]. split.
  - rewrite Hex. cbn [fst]. rewrite Hr. vm_compute. reflexivity.
  - rewrite He. vm_compute. reflexivity.
Defined.

(** C9: the classifier raises on a text in which the pattern matches an
    amount with two separators; and when a block raises, through its
    notes, the loop over the blocks of the file ends there: the records
    appended before are kept and the blocks after it are not looked at. *)
Theorem formatar_nao_total antes bloco depois lista lista' g rest v e :
  processar_blocos antes lista = (lista', None) ->
  search padrao_transacao bloco = Some (g, rest) ->
  contains (lit "abertura de caixa") (lower (strip (group 3 g))) = false ->
  float_of_str (valor_venda_str (group 4 g)) = Some v ->
  formatar_meio_de_pagamento (strip (group 5 g)) = Raise e ->
  (findall padrao_multiplo (lit "R$ 1,2,3 dinheiro") <> [] /\
   formatar_meio_de_pagamento (lit "R$ 1,2,3 dinheiro")
     = Raise (ValueError (lit "1.2.3"))) /\
  processar_bloco bloco = Raise e /\
  processar_blocos (antes ++ bloco :: depois) lista = (lista', Some e).
Proof.
  intros Hantes Hs Hc Hv He.
  split; [split; vm_compute; [discriminate | reflexivity]|].
  assert (Hb : processar_bloco bloco = Raise e).
  { unfold processar_bloco. rewrite Hs, Hc, Hv, He. reflexivity. }
  split; [exact Hb|].
  revert lista Hantes. induction antes as [|b antes IH]; intros lista Hantes.
  - cbn [processar_blocos] in Hantes. injection Hantes as <-.
    cbn [app processar_blocos]. now rewrite Hb.
  - cbn [app processar_blocos] in *.
    destruct (processar_bloco b) as [[t|]|e']; [apply IH | apply IH | discriminate];
      exact Hantes.
Qed.

Lemma formatar_nao_total_witness :
  let b1 := lit "0001 01/01/2024 10:00 Ana R$ 5,00 R$ 50,00 pix" in
  let b2 := lit "0002 02/01/2024 11:00 Bia R$ 6,00 R$ 60,00 R$ 1,2,3 dinheiro" in
  let b3 := lit "0003 03/01/2024 12:00 Rui R$ 7,00 R$ 70,00 dinheiro" in
  exists t1 t3,
    processar_blocos [b1] [] = ([t1], None) /\
    processar_bloco b3 = Ok (Some t3) /\
    processar_blocos [b1; b2; b3] [] = ([t1], Some (ValueError (lit "1.2.3"))) /\
    extrair_dados_dos_pdfs (lit "PDF")
      (Some [(lit "jan.pdf", Pdf [Some (b1 ++ [nl] ++ b2 ++ [nl] ++ b3)])])
    = (Some [t1], [Processando (lit "jan.pdf");
                   ErroArquivo (lit "jan.pdf") (ValueError (lit "1.2.3"))]).
Proof.
  intros b1 b2 b3.
  destruct (processar_blocos [b1] []) as [l1 o1] eqn:E1.
  vm_compute in E1. injection E1 as <- <-.
  destruct (search padrao_transacao b2) as [[g rest]|] eqn:E2;
    [|vm_compute in E2; discriminate].
  eexists. eexists.
  split; [reflexivity|]. split; [vm_compute; reflexivity|]. split.
  - refine (proj2 (proj2 (formatar_nao_total [b1] b2 [b3] [] _ g rest
                            (Finite 8444249301319680 (-47))
                            (ValueError (lit "1.2.3")) _ E2 _ _ _))).
    + vm_compute. reflexivity.
    + vm_compute in E2. injection E2 as <- _. vm_compute. reflexivity.
    + vm_compute in E2. injection E2 as <- _. vm_compute. reflexivity.
    + vm_compute in E2. injection E2 as <- _. vm_compute. reflexivity.
  - vm_compute. reflexivity.
Defined.

(** ** The ordering step *)

Section Ordering.

Local Open Scope Z_scope.

Lemma data_leb_le a b : data_leb a b = true <-> dia_le a b.
Proof.
  destruct a as [[ya ma] da], b as [[yb mb] db]. unfold data_leb, dia_le.
  rewrite !orb_true_iff, !andb_true_iff, !orb_true_iff, !andb_true_iff,
          !Z.ltb_lt, !Z.eqb_eq, Z.leb_le.
  tauto.
Qed.

Lemma chave_leb_ordem a b : chave_leb a b = true <-> ordem a b.
Proof.
  unfold chave_leb, ordem.
  rewrite orb_true_iff, andb_true_iff, Z.ltb_lt, Z.eqb_eq, data_leb_le. tauto.
Qed.

Lemma dia_le_total a b : dia_le a b \/ dia_le b a.
Proof.
  destruct a as [[ya ma] da], b as [[yb mb] db]. unfold dia_le. lia.
Qed.

Lemma dia_le_trans a b c : dia_le a b -> dia_le b c -> dia_le a c.
Proof.
  destruct a as [[ya ma] da], b as [[yb mb] db], c as [[yc mc] dc].
  unfold dia_le. lia.
Qed.

Lemma ordem_total a b : ordem a b \/ ordem b a.
Proof.
  unfold ordem.
  destruct (Z.lt_trichotomy (pedido a) (pedido b)) as [H|[H|H]]; auto.
  destruct (dia_le_total (dia a) (dia b)); auto.
Qed.

Lemma ordem_trans a b c : ordem a b -> ordem b c -> ordem a c.
Proof.
  unfold ordem. intros [H1|[H1 D1]] [H2|[H2 D2]]; try lia.
  right. split; [lia|]. eapply dia_le_trans; eassumption.
Qed.

Lemma inserir_perm x : forall l, Permutation (x :: l) (inserir x l).
Proof.
  induction l as [|y l IH]; cbn [inserir]; [reflexivity|].
  destruct (chave_leb x y); [reflexivity|].
  rewrite perm_swap. now constructor.
Qed.

Lemma sort_values_perm l : Permutation l (sort_values l).
Proof.
  induction l as [|x l IH]; cbn [sort_values fold_right]; [constructor|].
  rewrite <- inserir_perm. now constructor.
Qed.

Lemma inserir_sorted x : forall l,
  StronglySorted ordem l -> StronglySorted ordem (inserir x l).
Proof.
  induction l as [|y l IH]; intros Hs; cbn [inserir].
  - repeat constructor.
  - inversion Hs as [|? ? Hs' Hy]; subst.
    destruct (chave_leb x y) eqn:E.
    + apply chave_leb_ordem in E. constructor; [exact Hs|].
      constructor; [exact E|].
      eapply Forall_impl; [|exact Hy]. intros z Hz. eapply ordem_trans; eassumption.
    + assert (Hyx : ordem y x).
      { destruct (ordem_total x y) as [H|H]; [|exact H].
        apply chave_leb_ordem in H. congruence. }
      constructor; [now apply IH|].
      eapply Permutation_Forall; [apply inserir_perm|].
      constructor; assumption.
Qed.

Lemma sort_values_sorted l : StronglySorted ordem (sort_values l).
Proof.
  induction l as [|x l IH]; cbn [sort_values fold_right]; [constructor|].
  now apply inserir_sorted.
Qed.

End Ordering.

Lemma converter_ok {A} (f : str -> option A) : forall coluna,
  Forall (fun x => f x <> None) coluna ->
  exists l, converter f coluna = Ok l /\ map f coluna = map Some l.
Proof.
  induction coluna as [|x coluna IH]; intros H.
  - exists []. auto.
  - inversion H as [|? ? Hx H']; subst. destruct (IH H') as [l [Hl Hm]].
    cbn [converter map]. destruct (f x) as [a|]; [|contradiction].
    exists (a :: l). rewrite Hl, Hm. auto.
Qed.

Lemma digito_nao_espaco d : is_digit d = true -> is_space d = false.
Proof.
  destruct d as [[[] [] [] [] [] [] [] []]| | | | | | | | | |]; vm_compute; congruence.
Qed.

Lemma strip_pedido d1 d2 d3 d4 :
  is_digit d1 = true -> is_digit d4 = true ->
  strip [d1; d2; d3; d4] = [d1; d2; d3; d4].
Proof.
  intros H1 H4. unfold strip, rstrip. cbn [lstrip].
  rewrite (digito_nao_espaco _ H1). cbn [rev app lstrip].
  rewrite (digito_nao_espaco _ H4). reflexivity.
Qed.

(** Group 1 of the block pattern is four digits. *)
Lemma padrao_transacao_grupo_1 w rest c :
  sem padrao_transacao w rest c ->
  exists d1 d2 d3 d4,
    group 1 c = [d1; d2; d3; d4] /\
    forallb is_digit [d1; d2; d3; d4] = true.
Proof.
  unfold padrao_transacao, seq, times4, seq. cbn [fold_right].
  intros H. cbn [sem] in H.
  destruct H as [w1 [w2 [c1 [c2 [-> [-> [[c1' [-> H1]] _]]]]]]].
  destruct H1 as [x1 [y1 [? [? [-> [-> [[[d1 [-> H1]] ->] H]]]]]]].
  destruct H as [x2 [y2 [? [? [-> [-> [[[d2 [-> H2]] ->] H]]]]]]].
  destruct H as [x3 [y3 [? [? [-> [-> [[[d3 [-> H3]] ->] H]]]]]]].
  destruct H as [x4 [y4 [? [? [-> [-> [[[d4 [-> H4]] ->] [-> ->]]]]]]]].
  exists d1, d2, d3, d4. cbn. rewrite H1, H2, H3, H4. auto.
Qed.

(** The order number of an extracted record converts. *)
Lemma extraida_to_numeric t : extraida t -> to_numeric (numero_do_pedido t) <> None.
Proof.
  intros [bloco H]. apply processar_bloco_registro in H.
  destruct H as [g [rest [Hs [_ [_ [_ [Hn _]]]]]]].
  apply search_sound in Hs. destruct Hs as [pre [t' [_ Hm]]].
  apply match_here_sound in Hm. destruct Hm as [w [_ Hsem]].
  apply padrao_transacao_grupo_1 in Hsem.
  destruct Hsem as [d1 [d2 [d3 [d4 [Hg Hd]]]]].
  rewrite Hn, Hg.
  assert (Hd' := Hd). cbn [forallb] in Hd'.
  apply andb_true_iff in Hd'. destruct Hd' as [H1 Hd'].
  apply andb_true_iff in Hd'. destruct Hd' as [_ Hd'].
  apply andb_true_iff in Hd'. destruct Hd' as [_ Hd'].
  apply andb_true_iff in Hd'. destruct Hd' as [H4 _].
  rewrite (strip_pedido d1 d2 d3 d4 H1 H4).
  unfold to_numeric. rewrite Hd. discriminate.
Qed.

(** C8 (as amended): for a non-empty list of extracted records whose dates
    [to_datetime] accepts, the output stage converts the two key columns
    and orders the rows by order number, as a number, and for equal order
    numbers by date, both ascending; the sorted frame holds the same rows. *)
Theorem planilha_ordenada dados :
  dados <> [] ->
  Forall extraida dados ->
  Forall (fun t => to_datetime (data t) <> None) dados ->
  exists ns ds df,
    map to_numeric (map numero_do_pedido dados) = map Some ns /\
    map to_datetime (map data dados) = map Some ds /\
    criar_planilha_excel dados = Ok df /\
    Permutation (montar dados ns ds) df /\
    StronglySorted ordem df.
Proof.
  intros Hne He Hd.
  destruct (converter_ok to_numeric (map numero_do_pedido dados)) as [ns [Hns Hmn]].
  { apply Forall_map. eapply Forall_impl; [|exact He].
    intros t. apply extraida_to_numeric. }
  destruct (converter_ok to_datetime (map data dados)) as [ds [Hds Hmd]].
  { apply Forall_map. exact Hd. }
  exists ns, ds, (sort_values (montar dados ns ds)).
  repeat split; auto.
  - unfold criar_planilha_excel. destruct dados; [contradiction|].
    rewrite Hns, Hds. reflexivity.
  - apply sort_values_perm.
  - apply sort_values_sorted.
Qed.

Lemma planilha_ordenada_witness :
  let registro (n d : string) :=
    Transacao (lit n) (lit d) (lit "Ana") (Finite 7036874417766400 (-47)) Dinheiro in
  let dados := [registro "0010"%string "01/02/2024"%string;
                registro "0005"%string "01/01/2024"%string;
                registro "0010"%string "15/01/2024"%string] in
  dados <> [] /\
  Forall extraida dados /\
  Forall (fun t => to_datetime (data t) <> None) dados /\
  exists df,
    criar_planilha_excel dados = Ok df /\
    map (fun l => (pedido l, dia l)) df
      = [(5, (2024, 1, 1)); (10, (2024, 1, 15)); (10, (2024, 2, 1))]%Z /\
    StronglySorted ordem df.
Proof.
  intros registro dados.
  assert (Hne : dados <> []) by discriminate.
  assert (He : Forall extraida dados).
  { repeat constructor.
    - exists (lit "0010 01/02/2024 10:00 Ana R$ 5,00 R$ 50,00 dinheiro").
      vm_compute. reflexivity.
    - exists (lit "0005 01/01/2024 10:00 Ana R$ 5,00 R$ 50,00 dinheiro").
      vm_compute. reflexivity.
    - exists (lit "0010 15/01/2024 10:00 Ana R$ 5,00 R$ 50,00 dinheiro").
      vm_compute. reflexivity. }
  assert (Hd : Forall (fun t => to_datetime (data t) <> None) dados).
  { repeat constructor; vm_compute; discriminate. }
  split; [exact Hne|]. split; [exact He|]. split; [exact Hd|].
  destruct (planilha_ordenada dados Hne He Hd) as [ns [ds [df [_ [_ [Hdf [_ Hs]]]]]]].
  exists df. split; [exact Hdf|]. split; [|exact Hs].
  vm_compute in Hdf. injection Hdf as <-. reflexivity.
Defined.

(** C8, counterexample: a record the parser extracts, with a date that is
    not in the calendar, and the output stage raises instead of ordering. *)
Lemma planilha_ordenada_counterexample :
  let t := Transacao (lit "0010") (lit "31/02/2024") (lit "Ana")
             (Finite 7036874417766400 (-47)) Dinheiro in
  processar_bloco (lit "0010 31/02/2024 10:00 Ana R$ 5,00 R$ 50,00 dinheiro")
    = Ok (Some t) /\
  criar_planilha_excel [t] = Raise (ValueError (lit "31/02/2024")).
Proof. vm_compute. auto. Qed.

(** * Further properties of the code *)

(** ** Stripping and replacing *)

Lemma lstrip_sem_espaco c s : is_space c = false -> lstrip (c :: s) = c :: s.
Proof. intros H. cbn [lstrip]. now rewrite H. Qed.

Lemma lstrip_app_ultimo u c :
  is_space c = false -> lstrip (u ++ [c]) = lstrip u ++ [c].
Proof.
  intros H. induction u as [|a u IH]; cbn [app lstrip].
  - now rewrite H.
  - destruct (is_space a); [exact IH | reflexivity].
Qed.

Lemma rstrip_cons c s : is_space c = false -> rstrip (c :: s) = c :: rstrip s.
Proof.
  intros H. unfold rstrip. cbn [rev].
  rewrite (lstrip_app_ultimo _ _ H), rev_app_distr. reflexivity.
Qed.

Lemma lstrip_idem s : lstrip (lstrip s) = lstrip s.
Proof.
  induction s as [|a s IH]; [reflexivity|].
  cbn [lstrip]. destruct (is_space a) eqn:E; [exact IH|].
  cbn [lstrip]. now rewrite E.
Qed.

Lemma rstrip_idem s : rstrip (rstrip s) = rstrip s.
Proof. unfold rstrip. now rewrite rev_involutive, lstrip_idem. Qed.

Lemma lstrip_cabeca s :
  lstrip s = [] \/ exists c t, lstrip s = c :: t /\ is_space c = false.
Proof.
  induction s as [|a s IH]; [now left|].
  cbn [lstrip]. destruct (is_space a) eqn:E; [exact IH|]. right. eauto.
Qed.

(** [strip] is idempotent. *)
Lemma strip_idem s : strip (strip s) = strip s.
Proof.
  unfold strip. destruct (lstrip_cabeca s) as [->|[c [t [-> Hc]]]].
  - reflexivity.
  - rewrite (rstrip_cons _ _ Hc), (lstrip_sem_espaco _ _ Hc).
    rewrite (rstrip_cons _ _ Hc). now rewrite rstrip_idem.
Qed.

Lemma rstrip_sem_espacos s :
  forallb (fun c => negb (is_space c)) s = true -> rstrip s = s.
Proof.
  induction s as [|a s IH]; [reflexivity|]. cbn [forallb]. intros H.
  apply andb_true_iff in H. destruct H as [Ha Hs].
  apply negb_true_iff in Ha. rewrite (rstrip_cons _ _ Ha), (IH Hs). reflexivity.
Qed.

(** Text without white space is left as it is. *)
Lemma strip_sem_espacos s :
  forallb (fun c => negb (is_space c)) s = true -> strip s = s.
Proof.
  intros H. unfold strip.
  assert (E : lstrip s = s).
  { destruct s as [|a s]; [reflexivity|]. cbn [forallb] in H.
    apply andb_true_iff in H. destruct H as [Ha _]. apply negb_true_iff in Ha.
    now apply lstrip_sem_espaco. }
  rewrite E. now apply rstrip_sem_espacos.
Qed.

Lemma replace_ausente c novo s : ~ In c s -> replace c novo s = s.
Proof.
  unfold replace. induction s as [|a s IH]; intros H; [reflexivity|].
  cbn [flat_map]. destruct (char_eqb_spec c a) as [->|Hne].
  - exfalso. apply H. now left.
  - rewrite IH; [reflexivity|]. intros Hin. apply H. now right.
Qed.

Lemma replace_cons c novo a s :
  replace c novo (a :: s) = (if char_eqb c a then novo else [a]) ++ replace c novo s.
Proof. reflexivity. Qed.

Lemma valor_char_casos c :
  valor_char c = true ->
  (is_digit c = true /\ c <> "."%char /\ c <> ","%char)
  \/ c = "."%char \/ c = ","%char.
Proof.
  unfold valor_char, is_char. intros H.
  apply orb_true_iff in H. destruct H as [H|H].
  - apply orb_true_iff in H. destruct H as [H|H].
    + left. split; [exact H|]. split; intros ->; discriminate.
    + right. left. symmetry. now apply char_eqb_eq.
  - right. right. symmetry. now apply char_eqb_eq.
Qed.

Lemma valor_char_sem_espaco c : valor_char c = true -> is_space c = false.
Proof.
  intros H. destruct (valor_char_casos _ H) as [[Hd _]|[->| ->]];
    [now apply digito_nao_espaco | reflexivity | reflexivity].
Qed.

Lemma strip_valor v : forallb valor_char v = true -> strip v = v.
Proof.
  intros H. apply strip_sem_espacos. rewrite forallb_forall in *.
  intros c Hc. apply negb_true_iff, valor_char_sem_espaco. auto.
Qed.

(** ** Which amounts convert *)

Lemma digito_nao_ponto c : is_digit c = true -> c <> "."%char.
Proof. intros H ->. discriminate. Qed.

Lemma conta_ponto_digitos s :
  forallb is_digit s = true -> count_occ char_dec s "."%char = 0.
Proof.
  induction s as [|a s IH]; [reflexivity|]. cbn [forallb]. intros H.
  apply andb_true_iff in H. destruct H as [Ha Hs].
  rewrite count_occ_cons_neq; [now apply IH | now apply digito_nao_ponto].
Qed.

Lemma digito_ou_ponto_casos c :
  digito_ou_ponto c = true -> is_digit c = true \/ c = "."%char.
Proof.
  unfold digito_ou_ponto, is_char. intros H. apply orb_true_iff in H.
  destruct H as [H|H]; [now left | right]. symmetry. now apply char_eqb_eq.
Qed.

Lemma so_digitos_sem_ponto t :
  forallb digito_ou_ponto t = true ->
  (forallb is_digit t = true <-> count_occ char_dec t "."%char = 0).
Proof.
  induction t as [|a t IH]; [intros; split; reflexivity|].
  cbn [forallb]. intros H. apply andb_true_iff in H. destruct H as [Ha Ht].
  destruct (digito_ou_ponto_casos _ Ha) as [Hd| ->].
  - rewrite Hd, count_occ_cons_neq by now apply digito_nao_ponto.
    cbn [andb]. now apply IH.
  - rewrite count_occ_cons_eq by reflexivity. cbn [is_digit andb].
    split; [intros E; discriminate E | lia].
Qed.

Lemma sem_digitos_pontos t :
  forallb digito_ou_ponto t = true -> existsb is_digit t = false ->
  t = [] \/ 1 <= count_occ char_dec t "."%char.
Proof.
  destruct t as [|a t]; [now left|]. cbn [forallb existsb]. intros H E.
  apply andb_true_iff in H. destruct H as [Ha _].
  apply orb_false_iff in E. destruct E as [Ea _].
  destruct (digito_ou_ponto_casos _ Ha) as [Hd| ->]; [congruence|].
  right. rewrite count_occ_cons_eq by reflexivity. lia.
Qed.

(** [cut_point] on digits and points: digits, then nothing or a point
    and the rest. *)
Lemma cut_point_digitos u :
  forallb digito_ou_ponto u = true ->
  forallb is_digit (fst (cut_point u)) = true /\
  match snd (cut_point u) with
  | None => u = fst (cut_point u)
  | Some t => u = fst (cut_point u) ++ Latin "." :: t
  end.
Proof.
  induction u as [|a u IH]; [intros; split; reflexivity|].
  cbn [forallb]. intros H. apply andb_true_iff in H. destruct H as [Ha Hu].
  cbn [cut_point]. destruct (digito_ou_ponto_casos _ Ha) as [Hd| ->].
  - replace (is_char "."%char a) with false.
    2:{ symmetry. unfold is_char. apply char_eqb_neq. intros E.
        now apply (digito_nao_ponto a Hd). }
    destruct (IH Hu) as [H1 H2]. destruct (cut_point u) as [ip r]. cbn [fst snd] in *.
    split; [cbn [forallb]; now rewrite Hd, H1|].
    destruct r; now rewrite H2 at 1.
  - cbn. split; reflexivity.
Qed.

(** On digits and points, [float] raises exactly when there are two
    points or more, or no digit. *)
Lemma float_of_str_digitos u :
  forallb digito_ou_ponto u = true ->
  (float_of_str u = None <->
   2 <= count_occ char_dec u "."%char \/ existsb is_digit u = false).
Proof.
  intros Hu. destruct (cut_point_digitos u Hu) as [Hip Hr].
  unfold float_of_str. destruct (cut_point u) as [ip r]. cbn [fst snd] in *.
  rewrite Hip. cbn [andb].
  destruct r as [t|].
  - assert (Ht : forallb digito_ou_ponto t = true).
    { rewrite Hr, forallb_app in Hu. apply andb_true_iff in Hu.
      destruct Hu as [_ Hu]. cbn [forallb] in Hu.
      apply andb_true_iff in Hu. tauto. }
    assert (Hc : count_occ char_dec u "."%char = S (count_occ char_dec t "."%char)).
    { rewrite Hr, count_occ_app, (conta_ponto_digitos _ Hip).
      now rewrite count_occ_cons_eq. }
    assert (He : existsb is_digit u = existsb is_digit ip || existsb is_digit t).
    { rewrite Hr, existsb_app. reflexivity. }
    rewrite Hc, He. pose proof (so_digitos_sem_ponto t Ht) as Hsd.
    destruct (forallb is_digit t) eqn:Et.
    + assert (C0 : count_occ char_dec t "."%char = 0) by now apply Hsd.
      rewrite C0. cbn [andb].
      destruct ip as [|a ip]; destruct t as [|b t]; cbn [length Nat.add Nat.eqb negb];
        cbn [forallb existsb] in *.
      * split; [now right | reflexivity].
      * apply andb_true_iff in Et. destruct Et as [Eb _]. rewrite Eb. cbn.
        split; [discriminate | intros [H|H]; [lia | discriminate]].
      * apply andb_true_iff in Hip. destruct Hip as [Ea _]. rewrite Ea. cbn.
        split; [discriminate | intros [H|H]; [lia | discriminate]].
      * apply andb_true_iff in Hip. destruct Hip as [Ea _]. rewrite Ea. cbn.
        split; [discriminate | intros [H|H]; [lia | discriminate]].
    + cbn [andb]. split; [intros _|reflexivity]. left.
      destruct (count_occ char_dec t "."%char) eqn:C; [|lia].
      destruct Hsd as [_ Hsd]. discriminate (Hsd eq_refl).
  - subst u. rewrite (conta_ponto_digitos _ Hip). cbn [forallb andb].
    rewrite Nat.add_0_r. destruct ip as [|a ip]; cbn [length Nat.eqb negb existsb].
    + split; [now right | reflexivity].
    + cbn [forallb] in Hip. apply andb_true_iff in Hip. destruct Hip as [Ea _].
      rewrite Ea. cbn. split; [discriminate | intros [H|H]; [lia | discriminate]].
Qed.

(** What the two [replace] calls make of an amount. *)
Lemma valor_formatado_cons a v :
  forallb valor_char (a :: v) = true ->
  valor_formatado (a :: v) =
  (if is_digit a then [a] else if is_char ","%char a then [Latin "."] else [])
  ++ valor_formatado v.
Proof.
  intros H. unfold valor_formatado.
  rewrite (strip_valor _ H). cbn [forallb] in H.
  apply andb_true_iff in H. destruct H as [Ha Hv]. rewrite (strip_valor _ Hv).
  rewrite (replace_cons "."%char). unfold replace at 1. rewrite flat_map_app.
  fold (replace ","%char (lit ".") (replace "."%char [] v)). f_equal.
  destruct (valor_char_casos _ Ha) as [[Hd [Hp Hc]]|[->| ->]];
    [|reflexivity|reflexivity].
  rewrite Hd. replace (char_eqb "."%char a) with false
    by (symmetry; apply char_eqb_neq; congruence).
  cbn [flat_map app]. replace (char_eqb ","%char a) with false
    by (symmetry; apply char_eqb_neq; congruence).
  reflexivity.
Qed.

Lemma valor_formatado_fatos v :
  forallb valor_char v = true ->
  forallb digito_ou_ponto (valor_formatado v) = true /\
  count_occ char_dec (valor_formatado v) "."%char = count_occ char_dec v ","%char /\
  existsb is_digit (valor_formatado v) = existsb is_digit v.
Proof.
  induction v as [|a v IH]; intros H; [repeat split|].
  rewrite (valor_formatado_cons _ _ H). cbn [forallb] in H.
  apply andb_true_iff in H. destruct H as [Ha Hv].
  destruct (IH Hv) as [I1 [I2 I3]].
  rewrite forallb_app, count_occ_app, existsb_app, I1, I2, I3.
  destruct (valor_char_casos _ Ha) as [[Hd [Hp Hc]]|[->| ->]].
  - rewrite Hd. cbn [forallb existsb]. unfold digito_ou_ponto.
    rewrite Hd. cbn [orb andb]. repeat split.
    rewrite (count_occ_cons_neq _ v) by congruence.
    rewrite (count_occ_cons_neq _ []) by congruence. reflexivity.
  - cbn. repeat split.
  - cbn. repeat split.
Qed.

(** The amounts on which the conversion of the classifier raises. *)
Lemma valor_formatado_malformado v :
  forallb valor_char v = true ->
  (float_of_str (valor_formatado v) = None <-> malformado v).
Proof.
  intros H. destruct (valor_formatado_fatos v H) as [H1 [H2 H3]].
  rewrite (float_of_str_digitos _ H1), H2, H3. reflexivity.
Qed.

Lemma laco_pagamentos_excecao : forall ms acc e,
  (forall m, In m ms -> palavra_chave (group 2 m)) ->
  (laco_pagamentos ms acc = Raise e <->
   exists ms1 m ms2,
     filter reconhecida ms = ms1 ++ m :: ms2 /\
     Forall (fun m' => float_of_str (valor_formatado (group 1 m')) <> None) ms1 /\
     float_of_str (valor_formatado (group 1 m)) = None /\
     e = ValueError (valor_formatado (group 1 m))).
Proof.
  induction ms as [|m0 ms IH]; intros acc e Hk.
  - cbn [laco_pagamentos filter]. split; [discriminate|].
    intros [ms1 [m [ms2 [E _]]]]. destruct ms1; discriminate.
  - destruct (rotulo_categoria m0) as [Hr _]; [apply Hk; now left|].
    cbn [laco_pagamentos filter]. rewrite Hr. unfold reconhecida at 1.
    destruct (categoria (group 2 m0)) as [cat|];
      [|apply IH; intros; apply Hk; now right].
    destruct (float_of_str (valor_formatado (group 1 m0))) as [x|] eqn:Ef.
    + rewrite IH by (intros; apply Hk; now right). split.
      * intros [ms1 [m [ms2 [-> [HF [Hn ->]]]]]].
        exists (m0 :: ms1), m, ms2. repeat split; auto.
        constructor; [congruence | exact HF].
      * intros [ms1 [m [ms2 [E [HF [Hn ->]]]]]].
        destruct ms1 as [|m1 ms1]; cbn [app] in E; injection E as -> ->.
        -- congruence.
        -- inversion HF; subst. exists ms1, m, ms2. auto.
    + split.
      * intros H. injection H as <-.
        exists [], m0, (filter reconhecida ms). repeat split; auto.
      * intros [ms1 [m [ms2 [E [HF [Hn ->]]]]]].
        destruct ms1 as [|m1 ms1]; cbn [app] in E; injection E as -> _.
        -- reflexivity.
        -- inversion HF; subst. congruence.
Qed.

(** X1: the classifier raises exactly when the amount of a match that the
    [if]/[elif] chain takes has two commas or more, or no digit; the
    exception is the [ValueError] of the first such amount, as converted.
    The amount of a match the chain does not take is never converted. *)
Theorem formatar_excecao obs e :
  formatar_meio_de_pagamento obs = Raise e <->
  exists ms1 m ms2,
    tomadas obs = ms1 ++ m :: ms2 /\
    Forall (fun m' => ~ malformado (group 1 m')) ms1 /\
    malformado (group 1 m) /\
    e = ValueError (valor_formatado (group 1 m)).
Proof.
  assert (Hv : forall m, In m (tomadas obs) ->
                         forallb valor_char (group 1 m) = true).
  { intros m Hm. apply filter_In in Hm. destruct Hm as [Hm _].
    apply findall_padrao_multiplo_in in Hm.
    destruct Hm as [pre [valor [tipo [pos [-> [_ [_ [H _]]]]]]]]. exact H. }
  assert (E : formatar_meio_de_pagamento obs = Raise e <->
              laco_pagamentos (findall padrao_multiplo obs) [] = Raise e).
  { unfold formatar_meio_de_pagamento, classificar.
    destruct (laco_pagamentos (findall padrao_multiplo obs) []) as [[|p ps]|e'];
      split; intros H; try discriminate; injection H as ->; reflexivity. }
  rewrite E, (laco_pagamentos_excecao _ [] e (findall_grupo_2 obs)).
  fold (tomadas obs).
  split; intros [ms1 [m [ms2 [Hs [HF [Hn ->]]]]]]; exists ms1, m, ms2;
    (split; [exact Hs|]); (split; [|split; [|reflexivity]]).
  - apply Forall_forall. intros m' Hm'. rewrite Forall_forall in HF.
    rewrite <- valor_formatado_malformado; [now apply HF|].
    apply Hv. rewrite Hs. apply in_or_app. now left.
  - apply valor_formatado_malformado; [|exact Hn].
    apply Hv. rewrite Hs. apply in_or_app. right. now left.
  - apply Forall_forall. intros m' Hm'. rewrite Forall_forall in HF.
    rewrite valor_formatado_malformado; [now apply HF|].
    apply Hv. rewrite Hs. apply in_or_app. now left.
  - apply valor_formatado_malformado; [|exact Hn].
    apply Hv. rewrite Hs. apply in_or_app. right. now left.
Qed.

(** An amount with two commas raises after a keyword the chain takes and
    is passed over after one it does not take. *)
Lemma formatar_excecao_exemplos :
  formatar_meio_de_pagamento (lit "R$ 1,2,3 master")
    = Raise (ValueError (lit "1.2.3")) /\
  formatar_meio_de_pagamento (lit "R$ 1,2,3 ma" ++ [s_longo] ++ lit "ter")
    = Ok Nao_Especificado /\
  formatar_meio_de_pagamento
    (lit "R$ 1,2,3 p" ++ [I_com_ponto] ++ lit "x R$ 7 elo")
    = Ok (Cartao_de_Debito ++ lit " (R$ 7.00)").
Proof. vm_compute. auto. Qed.

Lemma digito_ou_ponto_valor c : digito_ou_ponto c = true -> valor_char c = true.
Proof.
  unfold digito_ou_ponto, valor_char. intros H. now rewrite H.
Qed.

Lemma digito_valor c : is_digit c = true -> valor_char c = true.
Proof. unfold valor_char. intros ->. reflexivity. Qed.

Lemma valor_formatado_milhares inteiro resto :
  forallb digito_ou_ponto inteiro = true ->
  forallb valor_char resto = true ->
  valor_formatado (inteiro ++ resto) = filter is_digit inteiro ++ valor_formatado resto.
Proof.
  induction inteiro as [|a inteiro IH]; intros Hi Hr; [reflexivity|].
  cbn [forallb] in Hi. apply andb_true_iff in Hi. destruct Hi as [Ha Hi].
  cbn [app]. rewrite valor_formatado_cons.
  2:{ cbn [forallb]. rewrite (digito_ou_ponto_valor _ Ha), forallb_app, Hr.
      rewrite andb_true_r. apply forallb_forall. intros c Hc.
      apply digito_ou_ponto_valor. rewrite forallb_forall in Hi. auto. }
  rewrite (IH Hi Hr). cbn [filter].
  destruct (digito_ou_ponto_casos _ Ha) as [Hd| ->]; [now rewrite Hd | reflexivity].
Qed.

Lemma valor_formatado_digitos fracao :
  forallb is_digit fracao = true -> valor_formatado fracao = fracao.
Proof.
  induction fracao as [|a fracao IH]; intros H; [reflexivity|].
  rewrite valor_formatado_cons.
  - cbn [forallb] in H. apply andb_true_iff in H. destruct H as [Ha Hf].
    now rewrite Ha, (IH Hf).
  - apply forallb_forall. intros c Hc. apply digito_valor.
    rewrite forallb_forall in H. auto.
Qed.

Lemma cut_point_ponto ds t :
  forallb is_digit ds = true -> cut_point (ds ++ Latin "." :: t) = (ds, Some t).
Proof.
  induction ds as [|a ds IH]; intros H; [reflexivity|].
  cbn [forallb] in H. apply andb_true_iff in H. destruct H as [Ha Hd].
  cbn [app cut_point].
  replace (is_char "."%char a) with false.
  - now rewrite (IH Hd).
  - symmetry. unfold is_char. apply char_eqb_neq. intros E.
    now apply (digito_nao_ponto a Ha).
Qed.

Lemma cut_point_sem_ponto ds :
  forallb is_digit ds = true -> cut_point ds = (ds, None).
Proof.
  induction ds as [|a ds IH]; intros H; [reflexivity|].
  cbn [forallb] in H. apply andb_true_iff in H. destruct H as [Ha Hd].
  cbn [cut_point].
  replace (is_char "."%char a) with false.
  - now rewrite (IH Hd).
  - symmetry. unfold is_char. apply char_eqb_neq. intros E.
    now apply (digito_nao_ponto a Ha).
Qed.

Lemma filter_digitos l : forallb is_digit (filter is_digit l) = true.
Proof.
  apply forallb_forall. intros c Hc. apply filter_In in Hc. tauto.
Qed.

Lemma filter_digitos_nao_vazio l :
  existsb is_digit l = true -> length (filter is_digit l) <> 0.
Proof.
  intros H. apply existsb_exists in H. destruct H as [c [Hc Hd]].
  assert (Hin : In c (filter is_digit l)) by (apply filter_In; auto).
  destruct (filter is_digit l); [destruct Hin | discriminate].
Qed.

(** X2: a total written with points between the thousands and a comma
    before the decimals always converts: the points are dropped, whatever
    their place, the comma becomes the decimal point, and the value is the
    float nearest to the number the remaining digits spell.  Without a
    comma the text is read as a whole number. *)
Theorem valor_com_milhares inteiro fracao :
  forallb digito_ou_ponto inteiro = true ->
  existsb is_digit inteiro = true ->
  forallb is_digit fracao = true ->
  valor_venda_str (inteiro ++ Latin "," :: fracao)
    = filter is_digit inteiro ++ Latin "." :: fracao /\
  float_of_str (valor_venda_str (inteiro ++ Latin "," :: fracao))
    = Some (nearest (digits_val (filter is_digit inteiro ++ fracao))
                    (10 ^ Z.of_nat (length fracao))) /\
  float_of_str (valor_venda_str inteiro)
    = Some (nearest (digits_val (filter is_digit inteiro)) 1).
Proof.
  intros Hi He Hf.
  change valor_venda_str with valor_formatado.
  assert (Hcf : forallb valor_char (Latin "," :: fracao) = true).
  { cbn [forallb]. change (valor_char ","%char) with true. cbn [andb].
    apply forallb_forall. intros c Hc. apply digito_valor.
    rewrite forallb_forall in Hf. auto. }
  assert (E1 : valor_formatado (inteiro ++ Latin "," :: fracao)
               = filter is_digit inteiro ++ Latin "." :: fracao).
  { rewrite (valor_formatado_milhares _ _ Hi Hcf), (valor_formatado_cons _ _ Hcf).
    now rewrite (valor_formatado_digitos _ Hf). }
  assert (E2 : valor_formatado inteiro = filter is_digit inteiro).
  { rewrite <- (app_nil_r inteiro) at 1.
    rewrite (valor_formatado_milhares _ [] Hi eq_refl). apply app_nil_r. }
  pose proof (filter_digitos inteiro) as Hd.
  pose proof (filter_digitos_nao_vazio _ He) as Hn.
  split; [exact E1|]. split.
  - rewrite E1. unfold float_of_str. rewrite (cut_point_ponto _ _ Hd), Hd, Hf.
    cbn [andb].
    destruct (Nat.eqb_spec (length (filter is_digit inteiro) + length fracao) 0);
      [lia | reflexivity].
  - rewrite E2. unfold float_of_str. rewrite (cut_point_sem_ponto _ Hd), Hd.
    cbn [andb forallb length]. rewrite Nat.add_0_r, app_nil_r.
    destruct (Nat.eqb_spec (length (filter is_digit inteiro)) 0);
      [contradiction | reflexivity].
Qed.

Lemma valor_com_milhares_witness :
  float_of_str (valor_venda_str (lit "12.345.678,90"))
    = Some (nearest 1234567890 100) /\
  float_of_str (valor_venda_str (lit "12.5")) = Some (nearest 125 1).
Proof.
  destruct (valor_com_milhares (lit "12.345.678") (lit "90")
              eq_refl eq_refl eq_refl) as [_ [H _]].
  destruct (valor_com_milhares (lit "12.5") [] eq_refl eq_refl eq_refl)
    as [_ [_ H']].
  split; [exact H | exact H'].
Defined.

(** ** The fields of a block *)

Lemma sem_word l : forall w rest c,
  sem (seq (map ch l)) w rest c -> w = l /\ c = [].
Proof.
  induction l as [|a l IH]; intros w rest c.
  - simpl. tauto.
  - change (seq (map ch (a :: l))) with (Cat (ch a) (seq (map ch l))).
    unfold ch at 1. cbn [sem].
    intros [w1 [w2 [c1 [c2 [-> [-> [[[x [-> Hx]] ->] H2]]]]]]].
    apply IH in H2. destruct H2 as [-> ->].
    unfold is_char in Hx. apply char_eqb_eq in Hx. subst x. auto.
Qed.

Lemma sem_times2 p w rest c :
  sem (times2 p) w rest c ->
  exists a b, w = [a; b] /\ p a = true /\ p b = true /\ c = [].
Proof.
  unfold times2, seq. cbn [fold_right sem].
  intros [w1 [w2 [c1 [c2 [-> [-> [[[a [-> Ha]] ->] H]]]]]]].
  destruct H as [w3 [w4 [c3 [c4 [-> [-> [[[b [-> Hb]] ->] [-> ->]]]]]]]].
  exists a, b. auto.
Qed.

Lemma sem_times4 p w rest c :
  sem (times4 p) w rest c ->
  exists a b d e, w = [a; b; d; e] /\ forallb p [a; b; d; e] = true /\ c = [].
Proof.
  unfold times4, seq. cbn [fold_right sem].
  intros [w1 [w2 [c1 [c2 [-> [-> [[[a [-> Ha]] ->] H]]]]]]].
  destruct H as [w3 [w4 [c3 [c4 [-> [-> [[[b [-> Hb]] ->] H]]]]]]].
  destruct H as [w5 [w6 [c5 [c6 [-> [-> [[[d [-> Hd]] ->] H]]]]]]].
  destruct H as [w7 [w8 [c7 [c8 [-> [-> [[[e [-> He]] ->] [-> ->]]]]]]]].
  exists a, b, d, e. cbn [forallb]. rewrite Ha, Hb, Hd, He. auto.
Qed.

Lemma sem_data_re w rest c : sem data_re w rest c -> forma_de_data w /\ c = [].
Proof.
  unfold data_re, seq. cbn [fold_right sem].
  intros [w1 [w2 [c1 [c2 [-> [-> [H1 H]]]]]]].
  destruct H as [w3 [w4 [c3 [c4 [-> [-> [H2 H]]]]]]].
  destruct H as [w5 [w6 [c5 [c6 [-> [-> [H3 H]]]]]]].
  destruct H as [w7 [w8 [c7 [c8 [-> [-> [H4 H]]]]]]].
  destruct H as [w9 [w10 [c9 [c10 [-> [-> [H5 [-> ->]]]]]]]].
  apply sem_times2 in H1, H3. apply sem_times4 in H5.
  apply (sem_word (lit "/")) in H2, H4.
  destruct H1 as [d1 [d2 [-> [Hd1 [Hd2 ->]]]]].
  destruct H3 as [m1 [m2 [-> [Hm1 [Hm2 ->]]]]].
  destruct H5 as [y1 [y2 [y3 [y4 [-> [Hy ->]]]]]].
  destruct H2 as [-> ->]. destruct H4 as [-> ->].
  split; [|reflexivity].
  exists d1, d2, m1, m2, y1, y2, y3, y4. split; [reflexivity|].
  cbn [forallb] in *. rewrite Hd1, Hd2, Hm1, Hm2. exact Hy.
Qed.

(** The block pattern, spelled out. *)
Lemma sem_padrao_transacao w rest c :
  sem padrao_transacao w rest c ->
  exists g1 e1 g2 e2 hora e3 g3 e4 s1 unitario e5 s2 g4 g5,
    w = g1 ++ e1 ++ g2 ++ e2 ++ hora ++ e3 ++ g3 ++ e4 ++ lit "R$" ++ [s1]
        ++ unitario ++ e5 ++ lit "R$" ++ [s2] ++ g4 ++ g5 /\
    c = [(1, g1); (2, g2); (3, g3); (4, g4); (5, g5)] /\
    quatro_algarismos g1 /\ forma_de_data g2 /\
    (g4 <> [] /\ forallb valor_char g4 = true).
Proof.
  unfold padrao_transacao, seq. cbn [fold_right]. cbn [sem].
  intros [w1 [w2 [c1 [c2 [-> [-> [[c1' [-> H1]] H]]]]]]].
  destruct H as [e1 [w3 [c3 [c4 [-> [-> [He1 H]]]]]]].
  destruct H as [g2 [w4 [c5 [c6 [-> [-> [[c5' [-> H2]] H]]]]]]].
  destruct H as [e2 [w5 [c7 [c8 [-> [-> [He2 H]]]]]]].
  destruct H as [hora [w6 [c9 [c10 [-> [-> [Hh H]]]]]]].
  destruct H as [e3 [w7 [c11 [c12 [-> [-> [He3 H]]]]]]].
  destruct H as [g3 [w8 [c13 [c14 [-> [-> [[c13' [-> [_ ->]]] H]]]]]]].
  destruct H as [e4 [w9 [c15 [c16 [-> [-> [He4 H]]]]]]].
  destruct H as [r1 [w10 [c17 [c18 [-> [-> [Hr1 H]]]]]]].
  destruct H as [x1 [w11 [c19 [c20 [-> [-> [[[s1 [-> Hs1]] ->] H]]]]]]].
  destruct H as [un [w12 [c21 [c22 [-> [-> [Hun H]]]]]]].
  destruct H as [e5 [w13 [c23 [c24 [-> [-> [He5 H]]]]]]].
  destruct H as [r2 [w14 [c25 [c26 [-> [-> [Hr2 H]]]]]]].
  destruct H as [x2 [w15 [c27 [c28 [-> [-> [[[s2 [-> Hs2]] ->] H]]]]]]].
  destruct H as [g4 [w16 [c29 [c30 [-> [-> [[c29' [-> H4]] H]]]]]]].
  destruct H as [g5 [w17 [c31 [c32 [-> [-> [[c31' [-> [_ ->]]] [-> ->]]]]]]]].
  apply sem_times4 in H1. destruct H1 as [a [b [d [e [-> [Hd ->]]]]]].
  apply sem_data_re in H2. destruct H2 as [Hdata ->].
  apply sem_plus in He1, He2, Hh, He3, He4, Hun, He5, H4.
  destruct He1 as [_ [_ ->]]. destruct He2 as [_ [_ ->]]. destruct Hh as [_ [_ ->]].
  destruct He3 as [_ [_ ->]]. destruct He4 as [_ [_ ->]]. destruct Hun as [_ [_ ->]].
  destruct He5 as [_ [_ ->]]. destruct H4 as [Hne [Hv ->]].
  apply (sem_word (lit "R$")) in Hr1, Hr2.
  destruct Hr1 as [-> ->]. destruct Hr2 as [-> ->].
  exists [a; b; d; e], e1, g2, e2, hora, e3, g3, e4, s1, un, e5, s2, g4, g5.
  rewrite app_nil_r. repeat split; auto.
  exists a, b, d, e. auto.
Qed.

Lemma qualquer_sempre c : qualquer c = true.
Proof. unfold qualquer. destruct (is_space c); reflexivity. Qed.

Lemma rep_nao_vazio g p s : rep g p s <> [].
Proof.
  destruct s as [|a s]; cbn [rep]; [discriminate|].
  destruct (p a); [|discriminate].
  destruct g; [|discriminate]. destruct (rep true p s); discriminate.
Qed.

Lemma ate_o_fim_rep : ate_o_fim (Rep true qualquer).
Proof.
  intros s. induction s as [|a s IH]; intros m l H; cbn [run rep] in H.
  - injection H as <- _. reflexivity.
  - rewrite qualquer_sempre in H. cbn [run] in IH.
    destruct (rep true qualquer s) as [|m' l'] eqn:E.
    + now apply rep_nao_vazio in E.
    + cbn [app] in H. injection H as <- _. eapply IH. reflexivity.
Qed.

Lemma ate_o_fim_grp i r : ate_o_fim r -> ate_o_fim (Grp i r).
Proof.
  intros Hr s m l H. cbn [run] in H.
  destruct (run r s) as [|m' l'] eqn:E; [discriminate|].
  cbn [map] in H. injection H as <- _. cbn [snd]. eapply Hr. exact E.
Qed.

Lemma ate_o_fim_cat r1 r2 : ate_o_fim r2 -> ate_o_fim (Cat r1 r2).
Proof.
  intros Hr s m l. cbn [run]. induction (run r1 s) as [|m1 l1 IH]; [discriminate|].
  cbn [flat_map]. cbv beta.
  match goal with |- context [run r2 ?x] => destruct (run r2 x) as [|m2 l2] eqn:E end.
  - exact IH.
  - cbn [map app]. intros H. injection H as <- _. cbn [snd]. eapply Hr. exact E.
Qed.

Lemma ate_o_fim_cat_eps r : ate_o_fim r -> ate_o_fim (Cat r Eps).
Proof.
  intros Hr s m l. cbn [run].
  destruct (run r s) as [|m1 l1] eqn:E; [discriminate|].
  cbn [flat_map]. cbv beta. cbn [run map app]. intros H. injection H as <- _.
  cbn [snd]. eapply Hr. exact E.
Qed.

Lemma ate_o_fim_padrao_transacao : ate_o_fim padrao_transacao.
Proof.
  unfold padrao_transacao, seq. cbn [fold_right].
  repeat first [ apply ate_o_fim_cat_eps | apply ate_o_fim_cat ].
  apply ate_o_fim_grp, ate_o_fim_rep.
Qed.

(** What [re.search] finds in a block: text before the match, the five
    groups in their places, and nothing after the notes. *)
Lemma search_padrao_transacao bloco g rest :
  search padrao_transacao bloco = Some (g, rest) ->
  rest = [] /\
  exists antes g1 e1 g2 e2 hora e3 g3 e4 s1 unitario e5 s2 g4 g5,
    bloco = antes ++ g1 ++ e1 ++ g2 ++ e2 ++ hora ++ e3 ++ g3 ++ e4 ++ lit "R$"
            ++ [s1] ++ unitario ++ e5 ++ lit "R$" ++ [s2] ++ g4 ++ g5 /\
    g = [(1, g1); (2, g2); (3, g3); (4, g4); (5, g5)] /\
    quatro_algarismos g1 /\ forma_de_data g2 /\
    (g4 <> [] /\ forallb valor_char g4 = true).
Proof.
  intros H. apply search_sound in H. destruct H as [pre [t [-> Hm]]].
  assert (Hrest : rest = []).
  { unfold match_here in Hm.
    destruct (run padrao_transacao t) as [|m l] eqn:E; [discriminate|].
    cbn [hd_error] in Hm. injection Hm as ->.
    exact (ate_o_fim_padrao_transacao _ _ _ E). }
  split; [exact Hrest|]. subst rest.
  apply match_here_sound in Hm. destruct Hm as [w [-> Hs]].
  apply sem_padrao_transacao in Hs.
  destruct Hs as [g1 [e1 [g2 [e2 [hora [e3 [g3 [e4 [s1 [un [e5 [s2 [g4 [g5 H]]]]]]]]]]]]]].
  destruct H as [-> H]. rewrite app_nil_r.
  exists pre, g1, e1, g2, e2, hora, e3, g3, e4, s1, un, e5, s2, g4, g5. auto.
Qed.

(** Whatever the classifier returns is not empty. *)
Lemma formatar_nao_vazio obs r : formatar_meio_de_pagamento obs = Ok r -> r <> [].
Proof.
  unfold formatar_meio_de_pagamento, classificar.
  destruct (laco_pagamentos (findall padrao_multiplo obs) []) as [l|e] eqn:E;
    [|discriminate].
  apply laco_pagamentos_nao_vazios in E; [|constructor].
  destruct l as [|p ps]; intros H; injection H as <-.
  - rewrite pagamento_unico_primeira_regra. apply primeira_regra_nao_vazia.
  - inversion E as [|? ? Hp _]; subst.
    destruct p; [contradiction|]. destruct ps; discriminate.
Qed.

Lemma strip_data s : forma_de_data s -> strip s = s.
Proof.
  intros [d1 [d2 [m1 [m2 [y1 [y2 [y3 [y4 [-> H]]]]]]]]].
  apply strip_sem_espacos. cbn [forallb] in *.
  repeat (apply andb_true_iff in H; destruct H as [?H H]).
  repeat match goal with
         | Hd : is_digit ?c = true |- _ =>
             rewrite (digito_nao_espaco c Hd); clear Hd
         end.
  reflexivity.
Qed.

Lemma strip_quatro_algarismos s : quatro_algarismos s -> strip s = s.
Proof.
  intros [d1 [d2 [d3 [d4 [-> H]]]]]. cbn [forallb] in H.
  repeat (apply andb_true_iff in H; destruct H as [?H H]).
  now apply strip_pedido.
Qed.

(** X7: every record the parser produces has an order number of exactly
    four digits and a date of the shape dd/dd/dddd, a customer name without
    white space around it that does not mention a drawer opening, a total
    that is not negative and a payment description that is not empty. *)
Theorem registro_bem_formado t :
  extraida t ->
  quatro_algarismos (numero_do_pedido t) /\
  forma_de_data (data t) /\
  strip (nome_do_cliente t) = nome_do_cliente t /\
  contains (lit "abertura de caixa") (lower (nome_do_cliente t)) = false /\
  nonneg (valor_total t) /\
  meio_de_pagamento t <> [].
Proof.
  intros [bloco H]. apply processar_bloco_registro in H.
  destruct H as [g [rest [Hs [Hc [Hv [Hp [Hn [Hd Hcl]]]]]]]].
  apply search_padrao_transacao in Hs.
  destruct Hs as [_ [antes [g1 [e1 [g2 [e2 [hora [e3 [g3 [e4 [s1 [un [e5 [s2
                    [g4 [g5 [_ [-> [H1 [H2 _]]]]]]]]]]]]]]]]]]]].
  cbn [group Nat.eqb] in *.
  rewrite (strip_quatro_algarismos _ H1) in Hn. rewrite (strip_data _ H2) in Hd.
  rewrite Hn, Hd, Hcl. repeat split; auto.
  - apply strip_idem.
  - exact (float_of_str_nonneg _ _ Hv).
  - exact (formatar_nao_vazio _ _ Hp).
Qed.

Lemma registro_bem_formado_witness :
  let t := Transacao (lit "0001") (lit "01/01/2024") (lit "Fulano de Tal")
             (Finite 5429652300748554 (-42)) Transferencia_PIX in
  extraida t /\
  quatro_algarismos (numero_do_pedido t) /\ forma_de_data (data t).
Proof.
  intros t.
  assert (H : extraida t).
  { exists (lit "0001 01/01/2024 10:00   Fulano de Tal  R$ 617,28 R$ 1.234,56 pix").
    vm_compute. reflexivity. }
  split; [exact H|].
  destruct (registro_bem_formado t H) as [H1 [H2 _]]. auto.
Defined.

(** X8: the notes handed to the classifier are all that follows the total
    in the block, to its very end and across line breaks, stripped; the
    description of the record is what the classifier returns for them. *)
Theorem observacoes_ate_o_fim bloco t :
  processar_bloco bloco = Ok (Some t) ->
  exists antes total notas,
    bloco = antes ++ total ++ notas /\
    float_of_str (valor_venda_str total) = Some (valor_total t) /\
    formatar_meio_de_pagamento (strip notas) = Ok (meio_de_pagamento t).
Proof.
  intros H. apply processar_bloco_registro in H.
  destruct H as [g [rest [Hs [_ [Hv [Hp _]]]]]].
  apply search_padrao_transacao in Hs.
  destruct Hs as [_ [antes [g1 [e1 [g2 [e2 [hora [e3 [g3 [e4 [s1 [un [e5 [s2
                    [g4 [g5 [-> [-> _]]]]]]]]]]]]]]]]]].
  cbn [group Nat.eqb] in *.
  exists (antes ++ g1 ++ e1 ++ g2 ++ e2 ++ hora ++ e3 ++ g3 ++ e4 ++ lit "R$"
          ++ [s1] ++ un ++ e5 ++ lit "R$" ++ [s2]), g4, g5.
  split; [|split; assumption].
  repeat rewrite <- app_assoc. reflexivity.
Qed.

Lemma observacoes_ate_o_fim_witness :
  let bloco := lit "0004 03/01/2024 11:00 Rui R$ 5,00 R$ 50,00 R$ 20,00 dinheiro"
               ++ [nl] ++ lit "e R$ 30,00 no elo" ++ [nl] in
  exists t antes total notas,
    processar_bloco bloco = Ok (Some t) /\
    meio_de_pagamento t
      = lit "Dinheiro (R$ 20.00), " ++ Cartao_de_Debito ++ lit " (R$ 30.00)" /\
    bloco = antes ++ total ++ notas /\
    formatar_meio_de_pagamento (strip notas) = Ok (meio_de_pagamento t).
Proof.
  intros bloco.
  destruct (processar_bloco bloco) as [[t|]|e] eqn:E;
    try (vm_compute in E; discriminate).
  destruct (observacoes_ate_o_fim bloco t E) as [antes [total [notas [H1 [_ H3]]]]].
  exists t, antes, total, notas. split; [reflexivity|]. split; [|split; assumption].
  vm_compute in E. injection E as <-. reflexivity.
Defined.

(** ** Files *)

(** X9: the entries of the directory whose name does not end in ".pdf",
    in any letter case, change neither the records nor what is printed,
    wherever they stand in the listing. *)
Theorem arquivos_nao_pdf_ignorados pasta arquivos :
  extrair_dados_dos_pdfs pasta (Some arquivos)
  = extrair_dados_dos_pdfs pasta
      (Some (filter (fun entrada_dir => eh_pdf (fst entrada_dir)) arquivos)).
Proof.
  unfold extrair_dados_dos_pdfs. rewrite !laco_arquivos_por_arquivo.
  cbn [app]. f_equal.
  - f_equal. induction arquivos as [|[nome a] arquivos IH]; [reflexivity|].
    cbn [filter fst flat_map]. destruct (eh_pdf nome) eqn:E.
    + cbn [flat_map]. now rewrite IH.
    + unfold registros_de at 1. rewrite E. exact IH.
  - induction arquivos as [|[nome a] arquivos IH]; [reflexivity|].
    cbn [filter fst flat_map]. destruct (eh_pdf nome) eqn:E.
    + cbn [flat_map]. now rewrite IH.
    + unfold eventos_de at 1. rewrite E. exact IH.
Qed.

Lemma texto_completo_vazio paginas :
  Forall (fun p => p = None \/ p = Some []) paginas -> texto_completo paginas = [].
Proof.
  induction 1 as [|p paginas [->| ->] _ IH]; [reflexivity | exact IH | exact IH].
Qed.

(** X10: a PDF none of whose pages has text (an image-only document, or
    one without pages) adds no record and raises nothing. *)
Theorem pdf_sem_texto paginas lista :
  Forall (fun p => p = None \/ p = Some []) paginas ->
  processar_arquivo (Pdf paginas) lista = (lista, None).
Proof.
  intros H. cbn [processar_arquivo]. rewrite (texto_completo_vazio _ H).
  reflexivity.
Qed.

Lemma pdf_sem_texto_witness :
  processar_arquivo (Pdf [None; Some []; None]) [] = ([], None) /\
  extrair_dados_dos_pdfs (lit "PDF") (Some [(lit "scan.pdf", Pdf [None; Some []; None])])
    = (Some [], [Processando (lit "scan.pdf")]).
Proof.
  assert (H : Forall (fun p : pagina => p = None \/ p = Some []) [None; Some []; None])
    by (repeat constructor; auto).
  split; [exact (pdf_sem_texto _ [] H)|].
  unfold extrair_dados_dos_pdfs. cbn [laco_arquivos].
  change (eh_pdf (lit "scan.pdf")) with true. cbv iota.
  rewrite (pdf_sem_texto _ [] H). reflexivity.
Defined.

Lemma processar_blocos_limite : forall blocos lista,
  length (fst (processar_blocos blocos lista)) <= length lista + length blocos.
Proof.
  induction blocos as [|b blocos IH]; intros lista; cbn [processar_blocos].
  - cbn. lia.
  - destruct (processar_bloco b) as [[t|]|e].
    + specialize (IH (lista ++ [t])). rewrite length_app in IH. cbn [length] in *. lia.
    + specialize (IH lista). cbn [length]. lia.
    + cbn [fst length]. lia.
Qed.

(** X11: a block gives one record at most, so a file gives no more
    records than its text has line breaks followed by an order header,
    plus one for the text before the first of them. *)
Theorem registros_por_arquivo a :
  length (fst (processar_arquivo a []))
  <= match a with
     | Ilegivel _ => 0
     | Pdf paginas => 1 + quebras (texto_completo paginas)
     end.
Proof.
  destruct a as [causa|paginas]; cbn [processar_arquivo fst length]; [lia|].
  pose proof (processar_blocos_limite (blocos_transacao (texto_completo paginas)) []) as H.
  unfold blocos_transacao, split in *. rewrite split_from_length in H.
  cbn [length] in H. lia.
Qed.

(** ** Dates and the sorted frame *)

Section Dates.

Local Open Scope Z_scope.

Lemma digit_digit_val c : is_digit c = true -> digit (digit_val c) = c.
Proof.
  destruct c as [[[] [] [] [] [] [] [] []]| | | | | | | | | |]; intros H; vm_compute in H;
    try discriminate H; reflexivity.
Qed.

Lemma dois_digitos_val a b :
  is_digit a = true -> is_digit b = true ->
  dois_digitos (digits_val [a; b]) = [a; b].
Proof.
  intros Ha Hb. pose proof (is_digit_val _ Ha). pose proof (is_digit_val _ Hb).
  unfold dois_digitos, digits_val. cbn [fold_left].
  replace ((10 * (10 * 0 + digit_val a) + digit_val b) / 10) with (digit_val a)
    by (Z.to_euclidean_division_equations; lia).
  replace ((10 * (10 * 0 + digit_val a) + digit_val b) mod 10) with (digit_val b)
    by (Z.to_euclidean_division_equations; lia).
  now rewrite !digit_digit_val.
Qed.

Lemma quatro_digitos_val a b c d :
  is_digit a = true -> is_digit b = true -> is_digit c = true -> is_digit d = true ->
  quatro_digitos (digits_val [a; b; c; d]) = [a; b; c; d].
Proof.
  intros Ha Hb Hc Hd.
  pose proof (is_digit_val _ Ha). pose proof (is_digit_val _ Hb).
  pose proof (is_digit_val _ Hc). pose proof (is_digit_val _ Hd).
  unfold quatro_digitos, digits_val. cbn [fold_left].
  set (n := 10 * (10 * (10 * (10 * 0 + digit_val a) + digit_val b) + digit_val c)
            + digit_val d).
  replace (n / 1000) with (digit_val a)
    by (subst n; Z.to_euclidean_division_equations; lia).
  replace (n / 100 mod 10) with (digit_val b)
    by (subst n; Z.to_euclidean_division_equations; lia).
  replace (n / 10 mod 10) with (digit_val c)
    by (subst n; Z.to_euclidean_division_equations; lia).
  replace (n mod 10) with (digit_val d)
    by (subst n; Z.to_euclidean_division_equations; lia).
  now rewrite !digit_digit_val.
Qed.

Lemma to_datetime_inv s d :
  to_datetime s = Some d ->
  exists d1 d2 m1 m2 y1 y2 y3 y4 : char,
    s = [d1; d2; Latin "/"; m1; m2; Latin "/"; y1; y2; y3; y4] /\
    forallb is_digit [d1; d2; m1; m2; y1; y2; y3; y4] = true /\
    d = (digits_val [y1; y2; y3; y4], digits_val [m1; m2], digits_val [d1; d2]).
Proof.
  unfold to_datetime.
  destruct s as [|d1 [|d2 [|b1 [|m1 [|m2 [|b2 [|y1 [|y2 [|y3 [|y4 [|x s]]]]]]]]]]];
    try discriminate.
  destruct (forallb is_digit [d1; d2; m1; m2; y1; y2; y3; y4]
            && is_char "/"%char b1 && is_char "/"%char b2) eqn:E; [|discriminate].
  apply andb_true_iff in E. destruct E as [E E2].
  apply andb_true_iff in E. destruct E as [E E1].
  unfold is_char in E1, E2. apply char_eqb_eq in E1, E2. subst b1 b2.
  match goal with |- (if ?c then _ else _) = _ -> _ => destruct c end;
    [|discriminate].
  intros H. injection H as <-.
  exists d1, d2, m1, m2, y1, y2, y3, y4. auto.
Qed.

End Dates.

Lemma strftime_inverte s d : to_datetime s = Some d -> strftime d = s.
Proof.
  intros H. apply to_datetime_inv in H.
  destruct H as [d1 [d2 [m1 [m2 [y1 [y2 [y3 [y4 [-> [H ->]]]]]]]]]].
  cbn [forallb] in H.
  repeat (apply andb_true_iff in H; destruct H as [?H H]).
  unfold strftime.
  rewrite dois_digitos_val, dois_digitos_val, quatro_digitos_val by assumption.
  reflexivity.
Qed.

(** X12: formatting a converted date gives back the text it was converted
    from: the sheet shows each date as the report had it. *)
Theorem strftime_to_datetime s d : to_datetime s = Some d -> strftime d = s.
Proof.
  intros H. destruct (to_datetime_inv s d H)
    as [d1 [d2 [m1 [m2 [y1 [y2 [y3 [y4 [-> [Hd ->]]]]]]]]]].
  cbn [forallb] in Hd.
  repeat (apply andb_true_iff in Hd; destruct Hd as [?H Hd]).
  unfold strftime.
  rewrite (dois_digitos_val d1 d2), (dois_digitos_val m1 m2),
          (quatro_digitos_val y1 y2 y3 y4) by assumption.
  reflexivity.
Qed.

Lemma strftime_to_datetime_witness :
  to_datetime (lit "29/02/2024") = Some (2024, 2, 29)%Z /\
  strftime (2024, 2, 29)%Z = lit "29/02/2024".
Proof.
  assert (H : to_datetime (lit "29/02/2024") = Some (2024, 2, 29)%Z)
    by (vm_compute; reflexivity).
  split; [exact H | exact (strftime_to_datetime _ _ H)].
Defined.

Lemma converter_inv {A} (f : str -> option A) : forall coluna l,
  converter f coluna = Ok l -> Forall2 (fun x a => f x = Some a) coluna l.
Proof.
  induction coluna as [|x coluna IH]; intros l H; cbn [converter] in H.
  - injection H as <-. constructor.
  - destruct (f x) as [a|] eqn:Ef; [|discriminate].
    destruct (converter f coluna) as [l'|e]; [|discriminate].
    injection H as <-. constructor; auto.
Qed.

Lemma converter_excecao {A} (f : str -> option A) : forall coluna e,
  converter f coluna = Raise e ->
  exists x, In x coluna /\ f x = None /\ e = ValueError x.
Proof.
  induction coluna as [|x coluna IH]; intros e H; cbn [converter] in H;
    [discriminate|].
  destruct (f x) as [a|] eqn:Ef.
  - destruct (converter f coluna) as [l'|e'] eqn:Ec; [discriminate|].
    injection H as <-. destruct (IH e' eq_refl) as [y [Hy H']].
    exists y. split; [now right | exact H'].
  - injection H as <-. exists x. split; [now left | auto].
Qed.

Lemma montar_visao : forall dados ns ds,
  Forall2 (fun x n => to_numeric x = Some n) (map numero_do_pedido dados) ns ->
  Forall2 (fun x d => to_datetime x = Some d) (map data dados) ds ->
  map visao_da_linha (montar dados ns ds) = map visao_do_registro dados.
Proof.
  induction dados as [|t dados IH]; intros ns ds Hn Hd; [reflexivity|].
  cbn [map] in Hn, Hd. inversion Hn as [|? n ? ns' Hn1 Hn2]; subst.
  inversion Hd as [|? d ? ds' Hd1 Hd2]; subst.
  cbn [montar map]. rewrite (IH _ _ Hn2 Hd2). f_equal.
  unfold visao_da_linha, visao_do_registro. cbn [pedido dia cliente valor pagamento].
  rewrite (strftime_inverte _ _ Hd1).
  unfold to_numeric in Hn1. destruct (numero_do_pedido t) as [|a s]; [discriminate|].
  destruct (forallb is_digit (a :: s)); [|discriminate].
  injection Hn1 as <-. reflexivity.
Qed.

Lemma processar_blocos_extraidas : forall blocos lista,
  Forall extraida lista -> Forall extraida (fst (processar_blocos blocos lista)).
Proof.
  induction blocos as [|b blocos IH]; intros lista Hl; cbn [processar_blocos].
  - exact Hl.
  - destruct (processar_bloco b) as [[t|]|e] eqn:E; [| now apply IH | exact Hl].
    apply IH. apply Forall_app. split; [exact Hl|].
    constructor; [|constructor]. exists b. exact E.
Qed.

Lemma registros_de_extraidas arquivos :
  Forall extraida (flat_map registros_de arquivos).
Proof.
  induction arquivos as [|[nome a] arquivos IH]; [constructor|].
  cbn [flat_map]. apply Forall_app. split; [|exact IH].
  unfold registros_de. destruct (eh_pdf nome); [|constructor].
  destruct a as [causa|paginas]; [constructor|].
  apply processar_blocos_extraidas. constructor.
Qed.

Lemma montar_length : forall dados ns ds,
  length ns = length dados -> length ds = length dados ->
  length (montar dados ns ds) = length dados.
Proof.
  induction dados as [|t dados IH]; intros ns ds Hn Hd; [reflexivity|].
  destruct ns as [|n ns]; [discriminate|]. destruct ds as [|d ds]; [discriminate|].
  cbn [montar length] in *. f_equal. apply IH; lia.
Qed.

(** X13: when the output stage gets as far as the sorted frame, the frame
    holds the records it was given, none lost, added or altered: each row
    shows the order number of a record as a number, and its date, customer,
    total and payment description as they were extracted. *)
Theorem planilha_conserva_registros dados df :
  criar_planilha_excel dados = Ok df ->
  Permutation (map visao_da_linha df) (map visao_do_registro dados).
Proof.
  unfold criar_planilha_excel. destruct dados as [|t dados]; [discriminate|].
  destruct (converter to_numeric (map numero_do_pedido (t :: dados))) as [ns|e] eqn:En;
    [|discriminate].
  destruct (converter to_datetime (map data (t :: dados))) as [ds|e] eqn:Ed;
    [|discriminate].
  intros H. injection H as <-.
  apply converter_inv in En, Ed.
  rewrite <- (montar_visao _ _ _ En Ed).
  apply Permutation_map, Permutation_sym, sort_values_perm.
Qed.

Lemma planilha_conserva_registros_witness :
  let registro (n d c : string) :=
    Transacao (lit n) (lit d) (lit c) (Finite 7036874417766400 (-47)) Dinheiro in
  let dados := [registro "0010"%string "01/02/2024"%string "Ana"%string;
                registro "0005"%string "01/01/2024"%string "Rui"%string] in
  exists df,
    criar_planilha_excel dados = Ok df /\
    map visao_da_linha df
      = [visao_do_registro (registro "0005"%string "01/01/2024"%string "Rui"%string);
         visao_do_registro (registro "0010"%string "01/02/2024"%string "Ana"%string)] /\
    Permutation (map visao_da_linha df) (map visao_do_registro dados).
Proof.
  intros registro dados.
  destruct (criar_planilha_excel dados) as [df|e] eqn:E;
    [|vm_compute in E; discriminate].
  exists df. split; [reflexivity|].
  split; [|exact (planilha_conserva_registros dados df E)].
  vm_compute in E. injection E as <-. vm_compute. reflexivity.
Defined.

(** X14: how the main program can end, up to the call of the spreadsheet
    writer.  Without the directory nothing happens; with no record there
    is only the message; otherwise the frame has one row per extracted
    record and is in order, or the run ends in the [ValueError] of the date
    of an extracted record that the conversion rejects.  No other
    exception, and never the [KeyError] of the empty frame, comes out. *)
Theorem principal_desfechos conteudo :
  match principal conteudo with
  | PastaAusente => conteudo = None
  | SemTransacoes =>
      exists arquivos,
        conteudo = Some arquivos /\ flat_map registros_de arquivos = []
  | Planilha df frequente =>
      exists arquivos,
        conteudo = Some arquivos /\
        length df = length (flat_map registros_de arquivos) /\
        df <> [] /\ StronglySorted ordem df
  | Excecao e =>
      exists arquivos t,
        conteudo = Some arquivos /\
        In t (flat_map registros_de arquivos) /\
        to_datetime (data t) = None /\ e = ValueError (data t)
  end.
Proof.
  unfold principal. destruct conteudo as [arquivos|]; [|reflexivity].
  unfold extrair_dados_dos_pdfs. rewrite laco_arquivos_por_arquivo.
  cbn [app fst].
  pose proof (registros_de_extraidas arquivos) as Hex.
  destruct (flat_map registros_de arquivos) as [|t dados] eqn:E.
  - exists arquivos. auto.
  - unfold criar_planilha_excel.
    destruct (converter to_numeric (map numero_do_pedido (t :: dados))) as [ns|e] eqn:En.
    + destruct (converter to_datetime (map data (t :: dados))) as [ds|e] eqn:Ed.
      * exists arquivos. split; [reflexivity|].
        apply converter_inv in En, Ed.
        apply Forall2_length in En, Ed. rewrite length_map in En, Ed.
        assert (Hl : length (sort_values (montar (t :: dados) ns ds))
                     = length (t :: dados)).
        { rewrite <- (Permutation_length (sort_values_perm _)).
          apply montar_length; auto. }
        split; [rewrite E; exact Hl|]. split; [|apply sort_values_sorted].
        intros Hnil. rewrite Hnil in Hl. discriminate.
      * apply converter_excecao in Ed. destruct Ed as [x [Hx [Hn ->]]].
        apply in_map_iff in Hx. destruct Hx as [t' [<- Ht']].
        exists arquivos, t'. rewrite E. auto.
    + exfalso. apply converter_excecao in En. destruct En as [x [Hx [Hn _]]].
      apply in_map_iff in Hx. destruct Hx as [t' [<- Ht']].
      rewrite Forall_forall in Hex.
      exact (extraida_to_numeric t' (Hex t' Ht') Hn).
Qed.

(** ** The tokens of the aggregator *)

Lemma flat_map_igual {A B} (f g : A -> list B) l :
  (forall a, In a l -> f a = g a) -> flat_map f l = flat_map g l.
Proof.
  induction l as [|a l IH]; intros H; [reflexivity|].
  cbn [flat_map]. rewrite (H a (or_introl eq_refl)), IH; [reflexivity|].
  intros b Hb. apply H. now right.
Qed.

Lemma flat_map_filtro {A B} (h : A -> B) (b : B -> bool) l :
  flat_map (fun a => if b (h a) then [h a] else []) l = filter b (map h l).
Proof.
  induction l as [|a l IH]; [reflexivity|].
  cbn [flat_map map filter]. rewrite IH. destruct (b (h a)); reflexivity.
Qed.

Lemma findall_padrao_tipos_in item m :
  In m (findall padrao_tipos item) ->
  m = [(1, group 1 m)] /\ forallb tipo_char (group 1 m) = true.
Proof.
  intros H. apply findall_from_in in H. destruct H as [pre [t [rest [_ H]]]].
  apply match_here_sound in H. destruct H as [w [_ H]].
  apply sem_padrao_tipos in H. destruct H as [-> [_ Hw]]. auto.
Qed.

Lemma tipo_limpo_strip item m :
  In m (findall padrao_tipos item) ->
  strip (replace ")"%char [] (replace "("%char [] (strip (group 1 m))))
  = strip (group 1 m).
Proof.
  intros H. apply findall_padrao_tipos_in in H. destruct H as [_ Hw].
  rewrite forallb_forall in Hw.
  rewrite (replace_ausente "("%char), (replace_ausente ")"%char).
  - apply strip_idem.
  - intros Hin. apply in_strip, Hw in Hin. discriminate.
  - intros Hin. apply in_strip, Hw in Hin. discriminate.
Qed.

(** The greedy repetition first tries the longest stretch of the class. *)
Lemma rep_guloso p s :
  exists w rest l,
    rep true p s = ([], rest) :: l /\ s = w ++ rest /\ forallb p w = true /\
    match rest with
    | [] => True
    | c :: _ => p c = false
    end.
Proof.
  induction s as [|c s IH].
  - exists [], [], []. cbn. auto.
  - cbn [rep]. destruct (p c) eqn:E.
    + destruct IH as [w [rest [l [H1 [H2 [H3 H4]]]]]].
      exists (c :: w), rest, (l ++ [([], c :: s)]).
      rewrite H1, H2. cbn [forallb app]. rewrite E, H3. auto.
    + exists [], (c :: s), []. cbn. auto.
Qed.

Lemma match_here_padrao_tipos s :
  match s with
  | [] => match_here padrao_tipos s = None
  | c :: s' =>
      if tipo_char c then
        exists w rest,
          match_here padrao_tipos s = Some ([(1, c :: w)], rest) /\
          s' = w ++ rest /\ forallb tipo_char w = true /\
          match rest with
          | [] => True
          | d :: _ => tipo_char d = false
          end
      else match_here padrao_tipos s = None
  end.
Proof.
  destruct s as [|c s']; [reflexivity|].
  unfold match_here, padrao_tipos, plus. cbn [run].
  destruct (tipo_char c) eqn:E; [|reflexivity].
  destruct (rep_guloso tipo_char s') as [w [rest [l [H1 [H2 [H3 H4]]]]]].
  exists w, rest. cbn [flat_map app map fst snd]. rewrite H1.
  cbn [map app hd_error fst snd]. split; [|auto].
  rewrite H2. change (c :: w ++ rest) with ((c :: w) ++ rest).
  rewrite firstn_consumed. reflexivity.
Qed.

Lemma sequencias_cons p c s rs :
  p c = false -> sequencias p s rs -> sequencias p (c :: s) rs.
Proof.
  intros Hc H. inversion H as [fora Hf|fora r resto rs' Hf Hr Hp Hm Hs]; subst.
  - apply sequencias_fim. cbn [forallb]. now rewrite Hc.
  - change (c :: fora ++ r ++ resto) with ((c :: fora) ++ r ++ resto).
    apply sequencias_mais; auto. cbn [forallb]. now rewrite Hc.
Qed.

(** The matches of the pattern of the tokens are the maximal runs. *)
Lemma findall_padrao_tipos_sequencias item :
  sequencias tipo_char item (map (group 1) (findall padrao_tipos item)).
Proof.
  assert (G : forall n s, length s <= n ->
              sequencias tipo_char s (map (group 1) (findall padrao_tipos s))).
  { induction n as [|n IH]; intros s Hn.
    - destruct s; [|cbn in Hn; lia]. apply sequencias_fim. reflexivity.
    - destruct s as [|c s]; [apply sequencias_fim; reflexivity|].
      pose proof (match_here_padrao_tipos (c :: s)) as H. cbn beta iota in H.
      unfold findall. cbn [findall_from].
      destruct (tipo_char c) eqn:E.
      + destruct H as [w [rest [-> [-> [Hw Hr]]]]].
        replace (length (c :: w ++ rest) - length rest - 1) with (length w)
          by (cbn [length]; rewrite length_app; lia).
        rewrite findall_from_skip. cbn [map group Nat.eqb].
        apply (sequencias_mais tipo_char [] (c :: w) rest); auto.
        * discriminate.
        * cbn [forallb]. now rewrite E, Hw.
        * apply IH. cbn [length] in Hn. rewrite length_app in Hn. lia.
      + rewrite H. apply sequencias_cons; [exact E|].
        apply IH. cbn [length] in Hn. lia. }
  apply (G (length item)). lia.
Qed.

Lemma sequencia_unica (p : char -> bool) : forall r r' resto resto',
  r ++ resto = r' ++ resto' ->
  forallb p r = true -> forallb p r' = true ->
  match resto with [] => True | c :: _ => p c = false end ->
  match resto' with [] => True | c :: _ => p c = false end ->
  r = r' /\ resto = resto'.
Proof.
  induction r as [|a r IH]; intros r' resto resto' E Hr Hr' Hm Hm'.
  - destruct r' as [|a' r']; [auto|]. cbn [app] in E. subst resto.
    cbn [forallb] in Hr'. apply andb_true_iff in Hr'. destruct Hr' as [Ha _].
    congruence.
  - destruct r' as [|a' r'].
    + cbn [app] in E. subst resto'.
      cbn [forallb] in Hr. apply andb_true_iff in Hr. destruct Hr as [Ha _].
      congruence.
    + cbn [app] in E. injection E as <- E.
      cbn [forallb] in Hr, Hr'. apply andb_true_iff in Hr, Hr'.
      destruct (IH r' resto resto' E) as [-> ->]; tauto.
Qed.

Lemma sequencias_nil (p : char -> bool) rs : sequencias p [] rs -> rs = [].
Proof.
  assert (G : forall s, sequencias p s rs -> s = [] -> rs = []).
  { intros s H. destruct H as [fora Hf|fora r resto rs1 Hf Hr Hp Hm Hs];
      [reflexivity|].
    intros E. destruct fora, r; try discriminate E. contradiction. }
  intros H. exact (G [] H eq_refl).
Qed.

Lemma sequencias_dentro (p : char -> bool) c s rs :
  p c = true -> sequencias p (c :: s) rs ->
  exists r resto rs',
    rs = r :: rs' /\ c :: s = r ++ resto /\ forallb p r = true /\
    match resto with [] => True | d :: _ => p d = false end /\
    sequencias p resto rs'.
Proof.
  intros Ec H.
  assert (G : forall t, sequencias p t rs -> t = c :: s ->
              exists r resto rs',
                rs = r :: rs' /\ c :: s = r ++ resto /\ forallb p r = true /\
                match resto with [] => True | d :: _ => p d = false end /\
                sequencias p resto rs').
  { intros t Ht. destruct Ht as [fora Hf|fora r resto rs1 Hf Hr Hp Hm Hs]; intros E.
    - subst fora. cbn [forallb] in Hf. rewrite Ec in Hf. discriminate.
    - destruct fora as [|a fora].
      + exists r, resto, rs1. cbn [app] in E. auto.
      + cbn [app] in E. injection E as -> _. cbn [forallb] in Hf.
        rewrite Ec in Hf. discriminate. }
  exact (G _ H eq_refl).
Qed.

Lemma sequencias_fora (p : char -> bool) c s rs :
  p c = false -> sequencias p (c :: s) rs -> sequencias p s rs.
Proof.
  intros Ec H.
  assert (G : forall t, sequencias p t rs -> t = c :: s -> sequencias p s rs).
  { intros t Ht. destruct Ht as [fora Hf|fora r resto rs1 Hf Hr Hp Hm Hs]; intros E.
    - subst fora. cbn [forallb] in Hf. apply andb_true_iff in Hf.
      apply sequencias_fim. tauto.
    - destruct fora as [|a fora].
      + destruct r as [|a r]; [contradiction|]. cbn [app] in E.
        injection E as -> _. cbn [forallb] in Hp. rewrite Ec in Hp. discriminate.
      + cbn [app] in E. injection E as -> <-. cbn [forallb] in Hf.
        apply andb_true_iff in Hf. apply sequencias_mais; tauto. }
  exact (G _ H eq_refl).
Qed.

(** The maximal runs of a text are determined by the text. *)
Lemma sequencias_unicas (p : char -> bool) : forall s rs rs',
  sequencias p s rs -> sequencias p s rs' -> rs = rs'.
Proof.
  assert (G : forall n s rs rs', length s <= n ->
              sequencias p s rs -> sequencias p s rs' -> rs = rs').
  { induction n as [|n IH]; intros s rs rs' Hn H H'.
    - destruct s; [|cbn in Hn; lia].
      rewrite (sequencias_nil p rs H), (sequencias_nil p rs' H'). reflexivity.
    - destruct s as [|c s].
      { rewrite (sequencias_nil p rs H), (sequencias_nil p rs' H'). reflexivity. }
      destruct (p c) eqn:Ec.
      + destruct (sequencias_dentro p c s rs Ec H)
          as [r [resto [rs1 [-> [E [Hp [Hm Hs]]]]]]].
        destruct (sequencias_dentro p c s rs' Ec H')
          as [r' [resto' [rs1' [-> [E' [Hp' [Hm' Hs']]]]]]].
        destruct (sequencia_unica p r r' resto resto') as [-> ->];
          [congruence | auto | auto | auto | auto |].
        f_equal. apply (IH resto'); auto.
        assert (L : length (r' ++ resto') = S (length s)) by now rewrite <- E'.
        rewrite length_app in L. destruct r' as [|a r'].
        * cbn [app] in E'. subst resto'. congruence.
        * cbn [length] in L. cbn [length] in Hn. lia.
      + apply (IH s); [cbn [length] in Hn; lia | |];
          eapply sequencias_fora; eauto. }
  intros s rs rs'. apply (G (length s)). lia.
Qed.

(** X4: the tokens of a description are exactly its maximal runs of
    letters of the class, white space and ['/'], stripped, the blank ones
    left out: taking the parentheses out and testing for ["R$"] never
    changes anything.  The maximal runs are the stretches of class
    characters that the text does not continue on either side, and the
    text has one list of them only.  Every token is non-empty, made of
    characters of the class and without white space around it. *)
Theorem tipos_do_item_sequencias item :
  (exists rs,
     sequencias tipo_char item rs /\
     (forall rs', sequencias tipo_char item rs' -> rs' = rs) /\
     tipos_do_item item = filter (fun t => negb (str_eqb t [])) (map strip rs)) /\
  Forall (fun t => t <> [] /\ forallb tipo_char t = true /\ strip t = t)
         (tipos_do_item item).
Proof.
  assert (E : tipos_do_item item
              = filter (fun t => negb (str_eqb t []))
                  (map (fun m => strip (group 1 m)) (findall padrao_tipos item))).
  { unfold tipos_do_item.
    rewrite <- (flat_map_filtro (fun m => strip (group 1 m))
                  (fun t => negb (str_eqb t []))).
    apply flat_map_igual. intros m Hm. cbv zeta.
    rewrite (guarda_do_marcador_sem_efeito item m Hm), (tipo_limpo_strip item m Hm).
    cbn [negb]. now rewrite andb_true_r. }
  split.
  { exists (map (group 1) (findall padrao_tipos item)).
    pose proof (findall_padrao_tipos_sequencias item) as Hs.
    split; [exact Hs|]. split.
    - intros rs' Hs'. exact (sequencias_unicas tipo_char item _ _ Hs' Hs).
    - rewrite map_map. exact E. }
  rewrite E. apply Forall_forall. intros t Ht.
  apply filter_In in Ht. destruct Ht as [Ht Hne].
  apply in_map_iff in Ht. destruct Ht as [m [<- Hm]].
  apply findall_padrao_tipos_in in Hm. destruct Hm as [_ Hw].
  split; [|split].
  - intros E0. rewrite E0 in Hne. discriminate.
  - apply forallb_forall. intros c Hc. rewrite forallb_forall in Hw.
    apply Hw. now apply in_strip.
  - apply strip_idem.
Qed.

(** ** Counting *)


Lemma incr_chaves k cnt :
  (In k (map fst cnt) /\ map fst (incr k cnt) = map fst cnt) \/
  (~ In k (map fst cnt) /\ incr k cnt = cnt ++ [(k, 1)]).
Proof.
  induction cnt as [|[k0 n0] cnt IH]; [right; auto|].
  cbn [incr map fst]. destruct (str_eqb k k0) eqn:E.
  - apply str_eqb_eq in E. subst k0. left. split; [now left | reflexivity].
  - assert (Hne : k0 <> k).
    { intros ->. assert (str_eqb k k = true) by now apply str_eqb_eq. congruence. }
    destruct IH as [[Hin Hk]|[Hnin Hk]].
    + left. split; [now right|]. cbn [map fst]. now rewrite Hk.
    + right. split; [intros [H|H]; auto|]. now rewrite Hk.
Qed.

Lemma incr_in k cnt k' n :
  NoDup (map fst cnt) -> In (k', n) (incr k cnt) ->
  (k' <> k /\ In (k', n) cnt) \/
  (k' = k /\ ((exists n0, n = S n0 /\ In (k, n0) cnt)
              \/ (n = 1 /\ ~ In k (map fst cnt)))).
Proof.
  induction cnt as [|[k0 n0] cnt IH]; intros Hnd H.
  - destruct H as [H|[]]. injection H as <- <-. right. auto.
  - cbn [map fst] in Hnd. inversion Hnd as [|? ? Hk0 Hnd']; subst.
    cbn [incr] in H. destruct (str_eqb k k0) eqn:E.
    + apply str_eqb_eq in E. subst k0. destruct H as [H|H].
      * injection H as <- <-. right. split; [reflexivity|]. left.
        exists n0. split; [reflexivity | now left].
      * left. split; [|now right]. intros ->. apply Hk0.
        apply in_map_iff. exists (k, n). auto.
    + assert (Hne : k0 <> k).
      { intros ->. assert (str_eqb k k = true) by now apply str_eqb_eq. congruence. }
      destruct H as [H|H].
      * injection H as <- <-. left. split; [exact Hne | now left].
      * destruct (IH Hnd' H) as [[H1 H2]|[-> [[m [-> H2]]|[-> H2]]]].
        -- left. split; [exact H1 | now right].
        -- right. split; [reflexivity|]. left. exists m. split; [reflexivity | now right].
        -- right. split; [reflexivity|]. right. split; [reflexivity|].
           intros [H3|H3]; auto.
Qed.

Lemma Counter_app l x : Counter (l ++ [x]) = incr x (Counter l).
Proof. unfold Counter. now rewrite fold_left_app. Qed.

Lemma conta_app l x k :
  conta (l ++ [x]) k = conta l k + (if list_eq_dec char_dec x k then 1 else 0).
Proof.
  unfold conta. rewrite count_occ_app. cbn [count_occ].
  destruct (list_eq_dec char_dec x k); reflexivity.
Qed.

(** [Counter]: one entry per distinct token, holding its number of
    occurrences, the entries in the order in which the tokens first occur. *)
Lemma Counter_fatos l :
  NoDup (map fst (Counter l)) /\
  (forall k n, In (k, n) (Counter l) -> n = conta l k) /\
  (forall k, In k l <-> In k (map fst (Counter l))) /\
  (forall l1 k l2, l = l1 ++ k :: l2 -> ~ In k l1 ->
     exists p1 p2, map fst (Counter l) = p1 ++ k :: p2 /\
                   forall t, In t l1 -> In t p1).
Proof.
  induction l as [|x l IH] using rev_ind.
  - split; [constructor|]. split; [intros k n []|].
    split; [intros k; reflexivity|].
    intros l1 k l2 E. destruct l1; discriminate.
  - destruct IH as [I1 [I2 [I3 I4]]]. rewrite Counter_app.
    assert (Hx0 : ~ In x (map fst (Counter l)) -> conta l x = 0).
    { intros Hn. unfold conta. apply count_occ_not_In. intros Hin. apply Hn, I3, Hin. }
    assert (I3' : forall k, In k l -> In k (map fst (Counter l))) by (intros; now apply I3).
    split; [|split; [|split]].
    + destruct (incr_chaves x (Counter l)) as [[_ ->]|[Hn ->]]; [exact I1|].
      rewrite map_app. cbn [map fst]. apply NoDup_app; [exact I1 | |].
      * constructor; [intros [] | constructor].
      * intros a Ha [<-|[]]. contradiction.
    + intros k n H. rewrite conta_app.
      destruct (incr_in x (Counter l) k n I1 H) as [[Hne Hin]|[-> [[n0 [-> Hin]]|[-> Hn]]]].
      * destruct (list_eq_dec char_dec x k); [congruence|].
        rewrite (I2 _ _ Hin). lia.
      * destruct (list_eq_dec char_dec x x); [|congruence].
        rewrite (I2 _ _ Hin). lia.
      * destruct (list_eq_dec char_dec x x); [|congruence].
        rewrite (Hx0 Hn). reflexivity.
    + intros k. rewrite in_app_iff.
      destruct (incr_chaves x (Counter l)) as [[Hin ->]|[Hn ->]].
      * rewrite <- I3. split; [|tauto].
        intros [Hk|[<-|[]]]; [exact Hk | now apply I3].
      * rewrite map_app, in_app_iff, <- I3. reflexivity.
    + intros l1 k l2 E Hk.
      destruct l2 as [|y l2] using rev_ind.
      * apply app_inj_tail in E. destruct E as [-> <-].
        assert (Hn : ~ In x (map fst (Counter l1))) by now rewrite <- I3.
        destruct (incr_chaves x (Counter l1)) as [[Hin _]|[_ ->]]; [contradiction|].
        rewrite map_app. cbn [map fst]. exists (map fst (Counter l1)), [].
        split; [reflexivity|]. intros t Ht. now apply I3.
      * clear IHl2. rewrite app_comm_cons, app_assoc in E.
        apply app_inj_tail in E. destruct E as [-> ->].
        destruct (I4 l1 k l2 eq_refl Hk) as [p1 [p2 [Ep Hp]]].
        destruct (incr_chaves y (Counter (l1 ++ k :: l2))) as [[_ ->]|[_ ->]].
        -- exists p1, p2. auto.
        -- rewrite map_app, Ep. cbn [map fst]. exists p1, (p2 ++ [y]).
           split; [now rewrite <- app_assoc | exact Hp].
Qed.

Lemma max_first_primeiro : forall cnt pre best mid,
  (forall x, In x pre -> snd x < snd best) ->
  (forall x, In x mid -> snd x <= snd best) ->
  exists c1 c2,
    pre ++ best :: mid ++ cnt = c1 ++ max_first best cnt :: c2 /\
    (forall x, In x c1 -> snd x < snd (max_first best cnt)) /\
    (forall x, In x c2 -> snd x <= snd (max_first best cnt)).
Proof.
  induction cnt as [|y cnt IH]; intros pre best mid Hpre Hmid; cbn [max_first].
  - exists pre, mid. rewrite app_nil_r. auto.
  - destruct (snd best <? snd y) eqn:E.
    + apply Nat.ltb_lt in E.
      destruct (IH (pre ++ best :: mid) y []) as [c1 [c2 [Ec H]]].
      * intros x Hx. apply in_app_or in Hx. destruct Hx as [Hx|[<-|Hx]].
        -- specialize (Hpre x Hx). lia.
        -- exact E.
        -- specialize (Hmid x Hx). lia.
      * intros x [].
      * exists c1, c2. split; [|exact H]. rewrite <- Ec, <- app_assoc. reflexivity.
    + apply Nat.ltb_ge in E.
      destruct (IH pre best (mid ++ [y])) as [c1 [c2 [Ec H]]]; [exact Hpre | |].
      * intros x Hx. apply in_app_or in Hx. destruct Hx as [Hx|[<-|[]]]; auto.
      * exists c1, c2. split; [|exact H]. rewrite <- Ec, <- app_assoc. reflexivity.
Qed.

Lemma in_split_primeiro (k : str) l :
  In k l -> exists l1 l2, l = l1 ++ k :: l2 /\ ~ In k l1.
Proof.
  induction l as [|a l IH]; intros H; [destruct H|].
  destruct (list_eq_dec char_dec a k) as [->|Hne].
  - exists [], l. auto.
  - destruct H as [H|H]; [contradiction|].
    destruct (IH H) as [l1 [l2 [-> Hn]]]. exists (a :: l1), l2.
    split; [reflexivity|]. intros [H1|H1]; auto.
Qed.

Lemma NoDup_split_unico {A} (a : A) : forall p1 p2 q1 q2,
  NoDup (p1 ++ a :: p2) -> p1 ++ a :: p2 = q1 ++ a :: q2 -> p1 = q1.
Proof.
  induction p1 as [|b p1 IH]; intros p2 q1 q2 Hnd E.
  - destruct q1 as [|c q1]; [reflexivity|]. cbn [app] in *. injection E as <- E.
    inversion Hnd as [|? ? Hn _]; subst. exfalso. apply Hn.
    apply in_or_app. right. now left.
  - destruct q1 as [|c q1]; cbn [app] in *; injection E as -> E.
    + inversion Hnd as [|? ? Hn _]; subst. exfalso. apply Hn.
      apply in_or_app. right. now left.
    + inversion Hnd as [|? ? _ Hnd']; subst. f_equal. eapply IH; eassumption.
Qed.

(** Where the winner stands in the counter: the entries before it have
    smaller counts, the entries after it counts that are not greater. *)
Lemma encontrar_posicao coluna :
  flat_map tipos_do_item coluna <> [] ->
  exists c1 c2,
    Counter (flat_map tipos_do_item coluna)
      = c1 ++ (encontrar_pagamento_mais_frequente coluna,
               conta (flat_map tipos_do_item coluna)
                     (encontrar_pagamento_mais_frequente coluna)) :: c2 /\
    (forall x, In x c1 ->
       snd x < conta (flat_map tipos_do_item coluna)
                     (encontrar_pagamento_mais_frequente coluna)) /\
    (forall x, In x c2 ->
       snd x <= conta (flat_map tipos_do_item coluna)
                      (encontrar_pagamento_mais_frequente coluna)).
Proof.
  intros Hne. set (tokens := flat_map tipos_do_item coluna) in *.
  destruct (Counter_fatos tokens) as [I1 [I2 [I3 I4]]].
  destruct (Counter tokens) as [|x cnt] eqn:Ec.
  - exfalso. destruct tokens as [|t0 tokens']; [contradiction|].
    assert (H : In t0 (map fst (@nil (str * nat)))) by (apply I3; now left).
    destruct H.
  - assert (Ew : encontrar_pagamento_mais_frequente coluna = fst (max_first x cnt)).
    { unfold encontrar_pagamento_mais_frequente.
      destruct coluna as [|item coluna']; [contradiction|].
      fold tokens. rewrite Ec. cbn [most_common_1].
      destruct (max_first x cnt). reflexivity. }
    rewrite Ew.
    destruct (max_first_primeiro cnt [] x []) as [c1 [c2 [Es [H1 H2]]]];
      [intros ? [] | intros ? [] |].
    cbn [app] in Es. destruct (max_first x cnt) as [w n] eqn:Em. cbn [fst snd] in *.
    assert (Hn : n = conta tokens w).
    { apply I2. rewrite Es. apply in_or_app. right. now left. }
    subst n. exists c1, c2. auto.
Qed.

(** The winner has the greatest count. *)
Lemma encontrar_maior coluna t :
  flat_map tipos_do_item coluna <> [] ->
  conta (flat_map tipos_do_item coluna) t
  <= conta (flat_map tipos_do_item coluna) (encontrar_pagamento_mais_frequente coluna).
Proof.
  intros Hne. destruct (encontrar_posicao coluna Hne) as [c1 [c2 [Es [H1 H2]]]].
  set (tokens := flat_map tipos_do_item coluna) in *.
  destruct (Counter_fatos tokens) as [_ [I2 [I3 _]]].
  destruct (in_dec (list_eq_dec char_dec) t tokens) as [Ht|Ht].
  - apply I3 in Ht. apply in_map_iff in Ht. destruct Ht as [[t' nt] [Et Ht]].
    cbn in Et. subst t'. rewrite <- (I2 _ _ Ht).
    rewrite Es in Ht. apply in_app_or in Ht. destruct Ht as [Ht|[Ht|Ht]].
    + specialize (H1 _ Ht). cbn in H1. lia.
    + injection Ht as _ <-. lia.
    + specialize (H2 _ Ht). cbn in H2. exact H2.
  - unfold conta at 1.
    rewrite (count_occ_not_In (list_eq_dec char_dec) tokens t) in Ht.
    rewrite Ht. lia.
Qed.

Lemma encontrar_sem_tipos coluna :
  flat_map tipos_do_item coluna = [] ->
  encontrar_pagamento_mais_frequente coluna = Nenhum.
Proof.
  intros H. unfold encontrar_pagamento_mais_frequente.
  destruct coluna; [reflexivity|]. rewrite H. reflexivity.
Qed.

(** X5: the most frequent payment is a token whose number of occurrences
    in all the descriptions is the greatest; among tokens that tie it is
    the one that occurs first, every token before its first occurrence
    having a smaller count.  When no description has a token the answer is
    the sentinel. *)
Theorem mais_frequente_e_maximo coluna :
  (flat_map tipos_do_item coluna = [] ->
   encontrar_pagamento_mais_frequente coluna = Nenhum) /\
  (flat_map tipos_do_item coluna <> [] ->
  (forall t, conta (flat_map tipos_do_item coluna) t
             <= conta (flat_map tipos_do_item coluna)
                      (encontrar_pagamento_mais_frequente coluna)) /\
  exists l1 l2,
    flat_map tipos_do_item coluna
      = l1 ++ encontrar_pagamento_mais_frequente coluna :: l2 /\
    ~ In (encontrar_pagamento_mais_frequente coluna) l1 /\
    forall t, In t l1 ->
      conta (flat_map tipos_do_item coluna) t
      < conta (flat_map tipos_do_item coluna)
              (encontrar_pagamento_mais_frequente coluna)).
Proof.
  split; [apply encontrar_sem_tipos|]. intros Hne.
  split; [intros t; now apply encontrar_maior|].
  destruct (encontrar_posicao coluna Hne) as [c1 [c2 [Es [H1 _]]]].
  set (tokens := flat_map tipos_do_item coluna) in *.
  set (w := encontrar_pagamento_mais_frequente coluna) in *.
  destruct (Counter_fatos tokens) as [I1 [I2 [I3 I4]]].
  assert (Hw : In w tokens).
  { apply I3. rewrite Es, map_app. apply in_or_app. right. now left. }
  destruct (in_split_primeiro w tokens Hw) as [l1 [l2 [El Hl1]]].
  exists l1, l2. split; [exact El|]. split; [exact Hl1|].
  destruct (I4 l1 w l2 El Hl1) as [p1 [p2 [Ep Hp]]].
  assert (Ep1 : p1 = map fst c1).
  { apply (NoDup_split_unico w p1 p2 (map fst c1) (map fst c2)).
    - rewrite <- Ep. exact I1.
    - rewrite <- Ep, Es, map_app. reflexivity. }
  intros t Ht. apply Hp in Ht. rewrite Ep1 in Ht.
  apply in_map_iff in Ht. destruct Ht as [[t' nt] [Et Ht]]. cbn in Et. subst t'.
  assert (Hin : In (t, nt) (Counter tokens)) by (rewrite Es; apply in_or_app; now left).
  rewrite <- (I2 _ _ Hin). exact (H1 _ Ht).
Qed.

Lemma mais_frequente_e_maximo_witness :
  let coluna := [lit "PIX"; Dinheiro; lit "PIX, " ++ Dinheiro; Transferencia_PIX] in
  flat_map tipos_do_item coluna
    = [lit "PIX"; Dinheiro; lit "PIX"; Dinheiro; lit "Transfer"; lit "ncia/PIX"] /\
  encontrar_pagamento_mais_frequente coluna = lit "PIX" /\
  forall t, conta (flat_map tipos_do_item coluna) t
            <= conta (flat_map tipos_do_item coluna)
                     (encontrar_pagamento_mais_frequente coluna).
Proof.
  intros coluna.
  assert (E : flat_map tipos_do_item coluna
              = [lit "PIX"; Dinheiro; lit "PIX"; Dinheiro; lit "Transfer";
                 lit "ncia/PIX"]) by (vm_compute; reflexivity).
  split; [exact E|]. split; [vm_compute; reflexivity|].
  refine (proj1 (proj2 (mais_frequente_e_maximo coluna) _)). rewrite E. discriminate.
Defined.

Lemma conta_permutacao l l' k : Permutation l l' -> conta l k = conta l' k.
Proof.
  intros H. unfold conta.
  apply (proj1 (Permutation_count_occ (list_eq_dec char_dec) l l') H).
Qed.

Lemma montar_pagamento : forall dados ns ds,
  length ns = length dados -> length ds = length dados ->
  map pagamento (montar dados ns ds) = map meio_de_pagamento dados.
Proof.
  induction dados as [|t dados IH]; intros ns ds Hn Hd; [reflexivity|].
  destruct ns as [|n ns]; [discriminate|]. destruct ds as [|d ds]; [discriminate|].
  cbn [montar map pagamento length] in *. f_equal. apply IH; lia.
Qed.

(** X6: the number of occurrences of the winner does not depend on the
    order of the descriptions; so taking the most frequent payment from
    the sorted frame, as the output stage does, gives a token with the same
    count as taking it from the records in the order of extraction (the
    order only decides between tokens that tie). *)
Theorem mais_frequente_sem_ordem :
  (forall coluna coluna',
     Permutation coluna coluna' ->
     conta (flat_map tipos_do_item coluna') (encontrar_pagamento_mais_frequente coluna')
     = conta (flat_map tipos_do_item coluna) (encontrar_pagamento_mais_frequente coluna)) /\
  (forall dados df,
     criar_planilha_excel dados = Ok df ->
     conta (flat_map tipos_do_item (map meio_de_pagamento dados)) (pagamento_frequente df)
     = conta (flat_map tipos_do_item (map meio_de_pagamento dados))
             (encontrar_pagamento_mais_frequente (map meio_de_pagamento dados))).
Proof.
  assert (G : forall coluna coluna',
     Permutation coluna coluna' ->
     conta (flat_map tipos_do_item coluna') (encontrar_pagamento_mais_frequente coluna')
     = conta (flat_map tipos_do_item coluna) (encontrar_pagamento_mais_frequente coluna)).
  { intros coluna coluna' HP.
    assert (HT : Permutation (flat_map tipos_do_item coluna)
                             (flat_map tipos_do_item coluna'))
      by now apply Permutation_flat_map.
    destruct (flat_map tipos_do_item coluna) as [|t0 ts] eqn:E.
    - apply Permutation_nil in HT. rewrite HT. reflexivity.
    - assert (Hne : flat_map tipos_do_item coluna <> []) by (rewrite E; discriminate).
      assert (Hne' : flat_map tipos_do_item coluna' <> []).
      { intros E'. rewrite E' in HT. apply Permutation_sym, Permutation_nil in HT.
        discriminate. }
      pose proof (encontrar_maior coluna
                    (encontrar_pagamento_mais_frequente coluna') Hne) as H.
      pose proof (encontrar_maior coluna'
                    (encontrar_pagamento_mais_frequente coluna) Hne') as H'.
      rewrite E in H.
      rewrite <- !(conta_permutacao _ _ _ HT) in H'.
      rewrite <- (conta_permutacao _ _ _ HT). lia. }
  split; [exact G|].
  intros dados df H. unfold pagamento_frequente.
  assert (HP : Permutation (map meio_de_pagamento dados) (map pagamento df)).
  { unfold criar_planilha_excel in H. destruct dados as [|t dados]; [discriminate|].
    destruct (converter to_numeric (map numero_do_pedido (t :: dados))) as [ns|e] eqn:En;
      [|discriminate].
    destruct (converter to_datetime (map data (t :: dados))) as [ds|e] eqn:Ed;
      [|discriminate].
    injection H as <-. apply converter_inv, Forall2_length in En, Ed.
    rewrite length_map in En, Ed.
    rewrite <- (montar_pagamento (t :: dados) ns ds) by auto.
    apply Permutation_map, sort_values_perm. }
  rewrite <- (G _ _ HP).
  apply conta_permutacao, Permutation_flat_map, HP.
Qed.

Lemma mais_frequente_sem_ordem_witness :
  let a := [Dinheiro; lit "PIX"; lit "PIX"] in
  let b := [lit "PIX"; Dinheiro; lit "PIX"] in
  Permutation a b /\
  conta (flat_map tipos_do_item b) (encontrar_pagamento_mais_frequente b)
  = conta (flat_map tipos_do_item a) (encontrar_pagamento_mais_frequente a).
Proof.
  intros a b.
  assert (H : Permutation a b) by apply perm_swap.
  split; [exact H | exact (proj1 mais_frequente_sem_ordem a b H)].
Defined.

(** ** Letter case *)

Lemma lower_char_idem c : lower_char (lower_char c) = lower_char c.
Proof. destruct c as [[[] [] [] [] [] [] [] []]| | | | | | | | | |]; reflexivity. Qed.

Lemma lower_char_sem_ponto c : lower_char c <> I_com_ponto.
Proof.
  destruct c as [[[] [] [] [] [] [] [] []]| | | | | | | | | |]; discriminate.
Qed.

Lemma em_minusculas_idem s : em_minusculas (em_minusculas s) = em_minusculas s.
Proof.
  unfold em_minusculas. rewrite map_map. apply map_ext. exact lower_char_idem.
Qed.

(** Without U+0130, [str.lower] works character by character. *)
Lemma lower_sem_ponto s : ~ In I_com_ponto s -> lower s = em_minusculas s.
Proof.
  unfold lower, em_minusculas. induction s as [|a s IH]; intros H; [reflexivity|].
  cbn [flat_map map]. rewrite IH by (intros Hs; apply H; now right).
  destruct a; try reflexivity. exfalso. apply H. now left.
Qed.

Lemma em_minusculas_sem_ponto s : ~ In I_com_ponto (em_minusculas s).
Proof.
  unfold em_minusculas. intros H. apply in_map_iff in H.
  destruct H as [c [Hc _]]. exact (lower_char_sem_ponto c Hc).
Qed.

Lemma lower_em_minusculas s :
  ~ In I_com_ponto s -> lower (em_minusculas s) = lower s.
Proof.
  intros H. rewrite (lower_sem_ponto s H).
  rewrite (lower_sem_ponto _ (em_minusculas_sem_ponto s)).
  apply em_minusculas_idem.
Qed.

Lemma is_space_lower c : is_space (lower_char c) = is_space c.
Proof. destruct c as [[[] [] [] [] [] [] [] []]| | | | | | | | | |]; reflexivity. Qed.

Lemma valor_char_lower c : valor_char (lower_char c) = valor_char c.
Proof. destruct c as [[[] [] [] [] [] [] [] []]| | | | | | | | | |]; reflexivity. Qed.

Lemma dot_lower c : dot (lower_char c) = dot c.
Proof. destruct c as [[[] [] [] [] [] [] [] []]| | | | | | | | | |]; reflexivity. Qed.

Lemma cifrao_lower c : is_char "$"%char (lower_char c) = is_char "$"%char c.
Proof. destruct c as [[[] [] [] [] [] [] [] []]| | | | | | | | | |]; reflexivity. Qed.

Lemma lower_valor v : forallb valor_char v = true -> em_minusculas v = v.
Proof.
  induction v as [|a v IH]; [reflexivity|]. cbn [forallb]. intros H.
  apply andb_true_iff in H. destruct H as [Ha Hv].
  unfold em_minusculas in *. cbn [map]. rewrite (IH Hv). f_equal.
  destruct (valor_char_casos _ Ha) as [[Hd _]|[->| ->]]; [|reflexivity|reflexivity].
  revert Hd. destruct a as [[[] [] [] [] [] [] [] []]| | | | | | | | | |]; intros Hd;
    vm_compute in Hd; try discriminate Hd; reflexivity.
Qed.

Lemma insensivel_iword l : insensivel (seq (map ich l)).
Proof.
  induction l as [|a l IH]; [exact I|].
  change (seq (map ich (a :: l))) with (Cat (ich a) (seq (map ich l))).
  split; [|exact IH]. intros c. cbn beta. now rewrite lower_char_idem.
Qed.

Lemma insensivel_padrao_multiplo : insensivel padrao_multiplo.
Proof.
  unfold padrao_multiplo, seq, plus, tipo_re, iword. cbn [fold_right insensivel].
  repeat split;
    try apply insensivel_iword;
    try (intros c; first [ apply is_space_lower | apply valor_char_lower
                         | apply dot_lower | apply cifrao_lower
                         | (cbn beta; now rewrite lower_char_idem) ]).
Qed.

Lemma rep_lower g p s :
  (forall c, p (lower_char c) = p c) ->
  rep g p (em_minusculas s) = map lower_m (rep g p s).
Proof.
  intros Hp. induction s as [|a s IH]; [reflexivity|].
  change (em_minusculas (a :: s)) with (lower_char a :: em_minusculas s).
  cbn [rep]. rewrite Hp. destruct (p a); [|reflexivity].
  destruct g.
  - rewrite IH, map_app. reflexivity.
  - rewrite IH. reflexivity.
Qed.

Lemma lower_caps_app c1 c2 : lower_caps (c1 ++ c2) = lower_caps c1 ++ lower_caps c2.
Proof. apply map_app. Qed.

(** Matching the lower-cased text gives the matches of the text, lower-cased. *)
Lemma run_lower r :
  insensivel r -> forall s, run r (em_minusculas s) = map lower_m (run r s).
Proof.
  induction r as [|p|r1 IH1 r2 IH2|r1 IH1 r2 IH2|g p|i r1 IH1|r1 IH1];
    cbn [insensivel]; intros Hi s.
  - reflexivity.
  - destruct s as [|a s]; [reflexivity|].
    change (em_minusculas (a :: s)) with (lower_char a :: em_minusculas s).
    cbn [run]. rewrite Hi. destruct (p a); reflexivity.
  - destruct Hi as [H1 H2]. cbn [run]. rewrite (IH1 H1).
    induction (run r1 s) as [|m1 l IHl]; [reflexivity|].
    cbn [map flat_map]. rewrite map_app, IHl. f_equal.
    cbn [lower_m snd fst]. rewrite (IH2 H2), !map_map.
    apply map_ext. intros m2. unfold lower_m. cbn [fst snd].
    now rewrite lower_caps_app.
  - destruct Hi as [H1 H2]. cbn [run]. now rewrite (IH1 H1), (IH2 H2), map_app.
  - cbn [run]. now apply rep_lower.
  - cbn [run]. rewrite (IH1 Hi), !map_map. apply map_ext. intros m.
    unfold lower_m. cbn [fst snd lower_caps map]. f_equal. f_equal. f_equal.
    unfold em_minusculas. rewrite !length_map. apply firstn_map.
  - cbn [run]. rewrite (IH1 Hi). destruct (run r1 s) as [|m l]; reflexivity.
Qed.

Lemma findall_from_lower r :
  insensivel r ->
  forall s k,
    findall_from r (em_minusculas s) k = map lower_caps (findall_from r s k).
Proof.
  intros Hi. induction s as [|a s IH]; intros k.
  - destruct k; [|reflexivity]. change (em_minusculas []) with (@nil char).
    pose proof (run_lower r Hi []) as E.
    change (em_minusculas []) with (@nil char) in E.
    cbn [findall_from]. unfold match_here.
    destruct (run r []) as [|[c rest] l]; [reflexivity|].
    cbn [map hd_error lower_m fst snd] in *. injection E as E _ _.
    now rewrite <- E.
  - change (em_minusculas (a :: s)) with (lower_char a :: em_minusculas s).
    destruct k as [|k]; cbn [findall_from]; [|apply IH].
    unfold match_here.
    change (lower_char a :: em_minusculas s) with (em_minusculas (a :: s)).
    rewrite (run_lower r Hi (a :: s)).
    destruct (run r (a :: s)) as [|[c rest] l]; cbn [map hd_error lower_m fst snd].
    + apply IH.
    + rewrite IH. unfold em_minusculas. rewrite !length_map. reflexivity.
Qed.

Lemma group_lower i c : group i (lower_caps c) = em_minusculas (group i c).
Proof.
  induction c as [|[j t] c IH]; [reflexivity|].
  cbn [lower_caps map group fst snd]. destruct (Nat.eqb i j); [reflexivity | exact IH].
Qed.

Lemma rotulo_lower tipo :
  ~ In I_com_ponto tipo -> rotulo (em_minusculas tipo) = rotulo tipo.
Proof. intros H. unfold rotulo. now rewrite (lower_em_minusculas _ H). Qed.

Lemma laco_pagamentos_lower : forall ms acc,
  (forall m, In m ms -> forallb valor_char (group 1 m) = true) ->
  (forall m, In m ms -> ~ In I_com_ponto (group 2 m)) ->
  laco_pagamentos (map lower_caps ms) acc = laco_pagamentos ms acc.
Proof.
  induction ms as [|m ms IH]; intros acc Hv Hp; [reflexivity|].
  cbn [map laco_pagamentos].
  rewrite !group_lower, (rotulo_lower _ (Hp m (or_introl eq_refl))).
  rewrite (lower_valor _ (Hv m (or_introl eq_refl))).
  destruct (rotulo (group 2 m));
    [|apply IH; intros; [apply Hv | apply Hp]; now right].
  destruct (float_of_str (valor_formatado (group 1 m))); [|reflexivity].
  apply IH; intros; [apply Hv | apply Hp]; now right.
Qed.

Lemma formatar_lower obs :
  ~ In I_com_ponto obs ->
  formatar_meio_de_pagamento (lower obs) = formatar_meio_de_pagamento obs.
Proof.
  intros Hp. rewrite (lower_sem_ponto _ Hp).
  unfold formatar_meio_de_pagamento, classificar, findall.
  rewrite (findall_from_lower _ insensivel_padrao_multiplo), laco_pagamentos_lower.
  - destruct (laco_pagamentos (findall_from padrao_multiplo obs 0) []) as [[|p ps]|e];
      try reflexivity.
    unfold pagamento_unico. now rewrite (lower_em_minusculas _ Hp).
  - intros m Hm. apply findall_padrao_multiplo_in in Hm.
    destruct Hm as [pre [valor [tipo [pos [-> [_ [_ [H _]]]]]]]]. exact H.
  - intros m Hm. apply findall_padrao_multiplo_in in Hm.
    destruct Hm as [pre [valor [tipo [pos [-> [_ [_ [_ E]]]]]]]].
    cbn [group Nat.eqb]. intros Hi. apply Hp. rewrite E.
    apply in_or_app. right. apply in_or_app. now left.
Qed.

(** X3: on text without U+0130, the one character that [str.lower] turns
    into two, the classifier does not look at the case of the letters: two
    notes that are equal once lower-cased get the same description, or
    raise the same exception. *)
Theorem formatar_sem_caixa a b :
  ~ In I_com_ponto a -> ~ In I_com_ponto b ->
  lower a = lower b ->
  formatar_meio_de_pagamento a = formatar_meio_de_pagamento b.
Proof.
  intros Ha Hb H.
  rewrite <- (formatar_lower a Ha), <- (formatar_lower b Hb), H. reflexivity.
Qed.

Lemma formatar_sem_caixa_witness :
  let a := lit "r$ 20,00 DINHEIRO e R$ 30,00 no Elo, R$ 1 ma" ++ [s_longo] ++ lit "ter" in
  let b := lit "R$ 20,00 dinheiro E r$ 30,00 NO ELO, r$ 1 MA" ++ [s_longo] ++ lit "TER" in
  ~ In I_com_ponto a /\ ~ In I_com_ponto b /\
  lower a = lower b /\
  formatar_meio_de_pagamento a = formatar_meio_de_pagamento b /\
  formatar_meio_de_pagamento b
    = Ok (lit "Dinheiro (R$ 20.00), " ++ Cartao_de_Debito ++ lit " (R$ 30.00)").
Proof.
  intros a b.
  assert (Ha : ~ In I_com_ponto a).
  { intros Hi. vm_compute in Hi.
    repeat (destruct Hi as [Hi|Hi]; [discriminate Hi|]). exact Hi. }
  assert (Hb : ~ In I_com_ponto b).
  { intros Hi. vm_compute in Hi.
    repeat (destruct Hi as [Hi|Hi]; [discriminate Hi|]). exact Hi. }
  assert (H : lower a = lower b) by (vm_compute; reflexivity).
  split; [exact Ha|]. split; [exact Hb|]. split; [exact H|].
  split; [exact (formatar_sem_caixa a b Ha Hb H)|].
  vm_compute. reflexivity.
Defined.

(** With U+0130 the two readings part: the pattern takes it for an i,
    [str.lower] makes an i and a combining dot of it, which is no keyword
    any more. *)
Lemma formatar_com_ponto :
  let a := lit "R$ 5 p" ++ [I_com_ponto] ++ lit "x R$ 7 elo" in
  lower (lower a) = lower a /\
  formatar_meio_de_pagamento a = Ok (Cartao_de_Debito ++ lit " (R$ 7.00)") /\
  formatar_meio_de_pagamento (lower a) = Ok (Cartao_de_Debito ++ lit " (R$ 5.00)").
Proof. vm_compute. auto. Qed.
